(** * ggpk-tool: a shallow embedding of the binary decoders

    The development follows the TypeScript sources:
    - [Js]         the parts of the JavaScript runtime the decoders rely on
                   (Buffer reads, BigInt to Number conversion);
    - [Dat]        src/dat/dat-parser.ts, the .datc64 table decoder;
    - [Ggpk]       the container reader (class GGPKReader): records;
    - [Bundle]     src/ggpk/bundle-extractor.ts, the result of one run of
                   the external extraction utility;
    - [Parallel]   src/dat/parallel-parser.ts, the batching of decode tasks;
    - [Pipeline]   src/extraction/extraction-pipeline.ts, the per-file
                   post-processing of table files;
    - [DatSpec], [DatRows]  the schema of a table and the rows decoded
                   against it;
    - [GgpkFiles]  the header, the extraction of a file and the traversals
                   of the container reader;
    - [ParseAll]   the directory loop and the cache of the table decoder,
                   and the statistics of the parallel decoder;
    - [BundleList] the listing of the external utility.

    Exceptions are modelled with [option]: [None] is a thrown error.  The
    models come first; each module of proofs bears the name of the module
    it is about. *)

From Stdlib Require Import ZArith Lia Bool.
From Stdlib Require Import Strings.Byte.
From stdpp Require Import pretty strings list gmap fin_maps.

Open Scope Z_scope.

(* ===================================================================== *)
(** * The JavaScript runtime *)
(* ===================================================================== *)

Module Js.

(** A Buffer is a sequence of bytes. *)
Definition Buffer := list byte.

Definition byte_val (b : byte) : Z := Z.of_N (Byte.to_N b).

Definition buf_length (buf : Buffer) : Z := Z.of_nat (length buf).

(** [buf.slice(off, off+n)] when the whole range lies inside the buffer;
    the read methods throw a RangeError otherwise. *)
Definition read_bytes (buf : Buffer) (off : Z) (n : nat) : option (list byte) :=
  if (0 <=? off) && (off + Z.of_nat n <=? buf_length buf)
  then Some (take n (drop (Z.to_nat off) buf))
  else None.

(** Little-endian value of a byte sequence. *)
Fixpoint le_value (bs : list byte) : Z :=
  match bs with
  | [] => 0
  | b :: rest => byte_val b + 256 * le_value rest
  end.

(** [BigInt.asIntN(w, z)]: wrap to a signed [w]-bit integer. *)
Definition asIntN (w : Z) (z : Z) : Z :=
  let m := z mod 2 ^ w in
  if m <? 2 ^ (w - 1) then m else m - 2 ^ w.

Definition readUIntLE (buf : Buffer) (off : Z) (n : nat) : option Z :=
  le_value <$> read_bytes buf off n.

Definition readUInt8 (buf : Buffer) (off : Z) : option Z := readUIntLE buf off 1.
Definition readUInt16LE (buf : Buffer) (off : Z) : option Z := readUIntLE buf off 2.
Definition readUInt32LE (buf : Buffer) (off : Z) : option Z := readUIntLE buf off 4.
Definition readBigUInt64LE (buf : Buffer) (off : Z) : option Z := readUIntLE buf off 8.
Definition readInt16LE (buf : Buffer) (off : Z) : option Z := asIntN 16 <$> readUIntLE buf off 2.
Definition readInt32LE (buf : Buffer) (off : Z) : option Z := asIntN 32 <$> readUIntLE buf off 4.
Definition readBigInt64LE (buf : Buffer) (off : Z) : option Z := asIntN 64 <$> readUIntLE buf off 8.

(** A Number is an IEEE-754 double.  The decoders only produce integral
    Numbers, modelled as the integer they denote.  [to_double z] is the
    double nearest to the integer [z], ties to even: a double carries 53
    significant bits, so integers of magnitude up to 2^53 are exact and
    larger ones lose their [k] low bits. *)
Definition to_double (z : Z) : Z :=
  let a := Z.abs z in
  let k := Z.log2 a - 52 in
  if k <=? 0 then z
  else
    let q := Z.shiftr a k in
    let r := Z.land a (Z.ones k) in
    let half := 2 ^ (k - 1) in
    let q' := if r <? half then q
              else if half <? r then q + 1
              else if Z.even q then q else q + 1 in
    Z.sgn z * Z.shiftl q' k.

(** [Number(z)] for a BigInt [z], and [a + b] on Numbers. *)
Definition Number_of_BigInt (z : Z) : Z := to_double z.
Definition num_add (a b : Z) : Z := to_double (a + b).

(** [s.toLowerCase()] on a string of code units below 256: the capital
    letters are A to Z and, in Latin-1, U+00C0 to U+00DE without the
    multiplication sign U+00D7; each is 32 below its small letter. *)
Definition lower_unit (c : Ascii.ascii) : Ascii.ascii :=
  let n := Ascii.nat_of_ascii c in
  if ((65 <=? n) && (n <=? 90) || (192 <=? n) && (n <=? 222) && negb (n =? 215))%nat
  then Ascii.ascii_of_nat (n + 32) else c.

Fixpoint toLowerCase (s : string) : string :=
  match s with
  | EmptyString => EmptyString
  | String c s' => String (lower_unit c) (toLowerCase s')
  end.

(** [buf.indexOf(pat, start)] for a non-empty pattern: the first position at
    or after [start] where [pat] occurs, or -1. *)
Fixpoint is_prefix (pat l : list byte) : bool :=
  match pat, l with
  | [], _ => true
  | p :: pat', x :: l' => Byte.eqb p x && is_prefix pat' l'
  | _ :: _, [] => false
  end.

Fixpoint indexOf_from (pat l : list byte) (i : Z) : Z :=
  match l with
  | [] => -1
  | _ :: l' => if is_prefix pat l then i else indexOf_from pat l' (i + 1)
  end.

Definition indexOf (buf : Buffer) (pat : list byte) (start : Z) : Z :=
  indexOf_from pat (drop (Z.to_nat start) buf) start.

(** UTF-16LE decoding of an even number of bytes: one code unit per pair.
    A JavaScript string is its sequence of UTF-16 code units. *)
Fixpoint utf16le (bs : list byte) : list Z :=
  match bs with
  | lo :: hi :: rest => (byte_val lo + 256 * byte_val hi) :: utf16le rest
  | _ => []
  end.

(** Test data: the buffer of a list of byte values, and the little-endian
    encoding of an integer on [n] bytes. *)
Definition byte_of (z : Z) : byte :=
  default x00 (Byte.of_N (Z.to_N (z mod 256))).

Definition bytes (l : list Z) : Buffer := byte_of <$> l.

Fixpoint le_bytes (n : nat) (z : Z) : list Z :=
  match n with
  | O => []
  | S n' => z mod 256 :: le_bytes n' (z / 256)
  end.

(** The code units of an ASCII string. *)
Definition code_units (s : string) : list Z :=
  (fun c => Z.of_nat (Ascii.nat_of_ascii c)) <$> String.list_ascii_of_string s.

End Js.

(* ===================================================================== *)
(** * The table decoder, dat-parser.ts *)
(* ===================================================================== *)

Module Dat.
Import Js.

(** The column types of the schema ([SchemaColumn.type]). *)
Inductive FieldType :=
| TBool | TI16 | TI32 | TU16 | TU32 | TF32
| TString | TRow | TForeignRow | TEnumRow | TArray.

#[global] Instance FieldType_eq_dec : EqDecision FieldType.
Proof. solve_decision. Defined.

(** The fields of a column the decoder reads; the remaining ones
    (description, unique, localized, references, ...) are informational. *)
Record SchemaColumn := mkColumn {
  col_name : option string;
  col_array : bool;
  col_type : FieldType;
}.

Record SchemaTable := mkTable {
  validFor : Z;
  tbl_name : string;
  columns : list SchemaColumn;
}.

Record Schema := mkSchema {
  version : Z;
  createdAt : Z;
  tables : list SchemaTable;
}.

Definition FIELD_SIZES (t : FieldType) : Z :=
  match t with
  | TBool => 1
  | TI16 => 2
  | TU16 => 2
  | TI32 => 4
  | TU32 => 4
  | TF32 => 4
  | TString => 8
  | TRow => 8
  | TForeignRow => 16
  | TEnumRow => 4
  | TArray => 16
  end.

(** [x || 8] on numbers: zero is falsy. *)
Definition or8 (x : Z) : Z := if x =? 0 then 8 else x.

Definition NULL_ROW : Z := -1.
Definition NULL_FOREIGN_ROW : Z := 0xFFFFFFFFFFFFFFFE.
Definition NULL_MARKER : Z := asIntN 64 0xFEFEFEFEFEFEFEFE.

Definition VARIABLE_DATA_MAGIC : list byte :=
  [xbb; xbb; xbb; xbb; xbb; xbb; xbb; xbb].

(** Decoded values.  A float is kept as its IEEE-754 bit pattern, a string
    as its UTF-16 code units. *)
#[warnings="-register-all"] Inductive value :=
| VNull
| VBool (b : bool)
| VNum (n : Z)
| VFloat32 (bits : Z)
| VStr (s : list Z)
| VArr (l : list value).

(** A row is a JavaScript object used as a map from field name to value:
    [row[k] = v] sets the field [k], replacing the value it had.  (The key
    [__proto__], which assignment treats apart, is left out of the model.) *)
Abbreviation Row := (gmap string value).

Record ParseResult := mkResult {
  rows : list Row;
  rowCount : Z;
  error : option string;
}.

Record DATParser := mkParser {
  schema : Schema;
  tableMap : gmap string SchemaTable;
  isPOE2 : bool;
}.

(** The constructor: the table map is keyed by lower-cased name and keeps
    the tables valid for the configured game. *)
Definition new_DATParser (schema : Schema) (isPOE2 : bool) : DATParser :=
  let tableMap :=
    foldl (fun (m : gmap string SchemaTable) table =>
             let validForPOE2 := negb (Z.land (validFor table) 2 =? 0) in
             let validForPOE1 := negb (Z.land (validFor table) 1 =? 0) in
             if (isPOE2 && validForPOE2) || (negb isPOE2 && validForPOE1)
             then <[toLowerCase (tbl_name table) := table]> m
             else m)
          ∅ (tables schema) in
  mkParser schema tableMap isPOE2.

Definition getTableSchema (p : DATParser) (tableName : string) : option SchemaTable :=
  tableMap p !! toLowerCase tableName.

Definition calculateRowSize (table : SchemaTable) : Z :=
  foldl (fun size col =>
           if col_array col then size + 16
           else size + or8 (FIELD_SIZES (col_type col)))
        0 (columns table).

(** The [while] loop of readString.  Every iteration moves [e] two bytes
    forward, so [fuel] above the buffer length is never exhausted
    (lemma [scan_end_fuel]). *)
Fixpoint scan_end (buf : Buffer) (fuel : nat) (e : Z) : option Z :=
  match fuel with
  | O => Some e
  | S fuel' =>
      if e + 4 <=? buf_length buf then
        v ← readUInt32LE buf e;
        if v =? 0 then Some e else scan_end buf fuel' (e + 2)
      else Some e
  end.

(** [buf.toString('utf16le', start, end)] for [0 <= start <= end <= length]. *)
Definition toString_utf16le (buf : Buffer) (start e : Z) : list Z :=
  utf16le (take (Z.to_nat (e - start)) (drop (Z.to_nat start) buf)).

Definition readString (buf : Buffer) (offset : Z) : option (list Z) :=
  if buf_length buf <=? offset then Some []
  else
    e ← scan_end buf (S (length buf)) offset;
    if e =? offset then Some []
    else Some (toString_utf16le buf offset e).

Definition readField (buf : Buffer) (offset variableDataStart : Z) (type : FieldType)
  : option (value * Z) :=
  match type with
  | TBool => v ← readUInt8 buf offset; Some (VBool (negb (v =? 0)), 1)
  | TI16 => v ← readInt16LE buf offset; Some (VNum v, 2)
  | TU16 => v ← readUInt16LE buf offset; Some (VNum v, 2)
  | TI32 | TEnumRow => v ← readInt32LE buf offset; Some (VNum v, 4)
  | TU32 => v ← readUInt32LE buf offset; Some (VNum v, 4)
  | TF32 => v ← readUInt32LE buf offset; Some (VFloat32 v, 4)
  | TString =>
      strOffset ← readBigInt64LE buf offset;
      if strOffset <? 0 then Some (VNull, 8)
      else
        str ← readString buf (num_add variableDataStart (Number_of_BigInt strOffset));
        Some (VStr str, 8)
  | TRow =>
      rid ← readBigInt64LE buf offset;
      if (rid =? NULL_ROW) || (rid =? NULL_MARKER) then Some (VNull, 8)
      else Some (VNum (Number_of_BigInt rid), 8)
  | TForeignRow =>
      rid ← readBigInt64LE buf offset;
      if (rid =? NULL_ROW) || (rid =? NULL_FOREIGN_ROW) || (rid =? NULL_MARKER)
      then Some (VNull, 16)
      else Some (VNum (Number_of_BigInt rid), 16)
  | TArray =>
      (* the [default] branch: the 8 bytes as a decimal string *)
      v ← readBigInt64LE buf offset; Some (VStr (code_units (pretty v)), 8)
  end.

(** The element loop of readArray; [n] counts the remaining iterations. *)
Fixpoint read_elements (buf : Buffer) (variableDataStart : Z) (elementType : FieldType)
    (elementSize : Z) (n : nat) (elementOffset : Z) : list value :=
  match n with
  | O => []
  | S n' =>
      if buf_length buf <? elementOffset + elementSize then []
      else
        let v := match readField buf elementOffset variableDataStart elementType with
                 | Some (v, _) => v
                 | None => VNull
                 end in
        v :: read_elements buf variableDataStart elementType elementSize n'
               (elementOffset + elementSize)
  end.

Definition readArray (buf : Buffer) (offset variableDataStart : Z) (elementType : FieldType)
  : option (value * Z) :=
  length ← readBigInt64LE buf offset;
  arrayOffset ← readBigInt64LE buf (offset + 8);
  if (length =? 0) || (arrayOffset <? 0) then Some (VArr [], 16)
  else
    let count := Number_of_BigInt length in
    if (100000 <? count) || (count <? 0) then Some (VArr [], 16)
    else if bool_decide (elementType = TArray) || (FIELD_SIZES elementType =? 0)
    then Some (VArr [], 16)
    else
      let dataOffset := num_add variableDataStart (Number_of_BigInt arrayOffset) in
      if (dataOffset <? 0) || (buf_length buf <=? dataOffset) then Some (VArr [], 16)
      else
        let elementSize := or8 (FIELD_SIZES elementType) in
        Some (VArr (read_elements buf variableDataStart elementType elementSize
                      (Z.to_nat count) dataOffset), 16).

(** [col.name || `_unknown${colIdx}`]: null and the empty string are falsy. *)
Definition fieldName (col : SchemaColumn) (colIdx : nat) : string :=
  match col_name col with
  | Some (String c s) => String c s
  | _ => "_unknown" +:+ pretty colIdx
  end.

(** The column loop of one row.  It returns the cursor next to the row. *)
Fixpoint parse_columns (buf : Buffer) (variableDataStart rowStart rowSize : Z)
    (cols : list SchemaColumn) (colIdx : nat) (offset : Z) (row : Row) : Z * Row :=
  match cols with
  | [] => (offset, row)
  | col :: cols' =>
      if rowStart + rowSize <=? offset then (offset, row)
      else
        let '(v, bytesRead) :=
          match (if col_array col
                 then readArray buf offset variableDataStart (col_type col)
                 else readField buf offset variableDataStart (col_type col)) with
          | Some (v, bytesRead) => (v, bytesRead)
          | None => (VNull, if col_array col then 16 else or8 (FIELD_SIZES (col_type col)))
          end in
        parse_columns buf variableDataStart rowStart rowSize cols' (S colIdx)
          (offset + bytesRead) (<[fieldName col colIdx := v]> row)
  end.

(** One row starting at [rowStart]: the object [{ _rid: i }] extended by the
    column loop. *)
Definition parse_row (buf : Buffer) (variableDataStart rowSize : Z) (table : SchemaTable)
    (i : Z) (rowStart : Z) : Row :=
  snd (parse_columns buf variableDataStart rowStart rowSize (columns table) 0 rowStart
         {[ "_rid" := VNum i ]}).

(** The row loop; [n] counts the remaining rows, [i] is the row index and
    [offset] the cursor.  It returns the final cursor and the rows. *)
Fixpoint parse_rows (buf : Buffer) (variableDataStart rowSize : Z) (table : SchemaTable)
    (n : nat) (i : Z) (offset : Z) (rows : list Row) : Z * list Row :=
  match n with
  | O => (offset, rows)
  | S n' =>
      let rowStart := offset in
      let row := parse_row buf variableDataStart rowSize table i rowStart in
      let offset := rowStart + rowSize in
      parse_rows buf variableDataStart rowSize table n' (i + 1) offset (rows ++ [row])
  end.

(** [parse].  Nothing in the row loop throws outside the per-column [try],
    so the outer [catch] of the source is never entered. *)
Definition parse (p : DATParser) (buffer : Buffer) (tableName : string) : option ParseResult :=
  match getTableSchema p tableName with
  | None => Some (mkResult [] 0 (Some ("Unknown table: " +:+ tableName)))
  | Some table =>
      if buf_length buffer <? 4 then Some (mkResult [] 0 (Some "Buffer too small"))
      else
        rowCount ← readUInt32LE buffer 0;
        if rowCount =? 0 then Some (mkResult [] 0 None)
        else
          let fixedDataStart := 4 in
          let magicIndex := indexOf buffer VARIABLE_DATA_MAGIC fixedDataStart in
          if magicIndex =? -1 then Some (mkResult [] 0 (Some "Magic bytes not found"))
          else
            let variableDataStart := magicIndex in
            let fixedDataLength := magicIndex - fixedDataStart in
            let actualRowSize := fixedDataLength / rowCount in
            let schemaRowSize := calculateRowSize table in
            let rowSize := actualRowSize in
            (* if (actualRowSize !== schemaRowSize) { }: the body is empty *)
            let _ := if negb (actualRowSize =? schemaRowSize) then tt else tt in
            let '(_, rows) :=
              parse_rows buffer variableDataStart rowSize table (Z.to_nat rowCount)
                0 fixedDataStart [] in
            Some (mkResult rows rowCount None)
  end.

(** ** Specification vocabulary *)

(** A 4-byte run of zeros sits at [e]. *)
Definition zero_run_at (buf : Buffer) (e : Z) : bool :=
  match readUInt32LE buf e with Some 0 => true | _ => false end.

(** The first 4-byte run of zeros met from [p] in steps of two bytes is the
    one after [k] code units. *)
Fixpoint first_zero_run (buf : Buffer) (p : Z) (k : nat) : bool :=
  match k with
  | O => zero_run_at buf p
  | S k' => negb (zero_run_at buf p) && first_zero_run buf (p + 2) k'
  end.

(** The element of an array decoded at [off]: the value of readField, or
    null when it throws. *)
Definition element_at (buf : Buffer) (vds : Z) (ty : FieldType) (off : Z) : value :=
  match readField buf off vds ty with
  | Some (v, _) => v
  | None => VNull
  end.

(** No array value above the ceiling. *)
Definition array_bounded (v : value) : Prop :=
  forall l, v = VArr l -> Z.of_nat (length l) <= 100000.

(** ** Test data *)

Definition magic : list Z := [0xbb; 0xbb; 0xbb; 0xbb; 0xbb; 0xbb; 0xbb; 0xbb].

(** Scenario S3: two rows of [i32, string, array<i32>], the string hi and a
    3-element array; the second row has a null string and an array that
    runs past the end of the buffer. *)
Definition t3 : SchemaTable :=
  mkTable 2 "Foo" [mkColumn (Some "a") false TI32; mkColumn (Some "s") false TString;
                   mkColumn None true TI32].
Definition p3 : DATParser := new_DATParser (mkSchema 1 0 [t3]) true.
Definition row3 (a s arrlen arroff : Z) : list Z :=
  le_bytes 4 a ++ le_bytes 8 s ++ le_bytes 8 arrlen ++ le_bytes 8 arroff.
Definition b3 : Buffer :=
  bytes (le_bytes 4 2 ++ row3 7 8 3 16 ++ row3 9 (-1) 5 20 ++ magic
         ++ [104; 0; 105; 0; 0; 0; 0; 0] ++ le_bytes 4 1 ++ le_bytes 4 2 ++ le_bytes 4 3).

(** Scenario S5: the schema row size is 24, the observed row size 20. *)
Definition t5 : SchemaTable :=
  mkTable 2 "T" [mkColumn (Some "x") false TString; mkColumn (Some "y") false TString;
                 mkColumn (Some "z") false TString].
Definition p5 : DATParser := new_DATParser (mkSchema 1 0 [t5]) true.
Definition b5 : Buffer :=
  bytes (le_bytes 4 2
         ++ le_bytes 8 (-1) ++ le_bytes 8 8 ++ le_bytes 4 0
         ++ le_bytes 8 (-1) ++ le_bytes 8 8 ++ le_bytes 4 0
         ++ magic ++ [104; 0; 105; 0; 0; 0; 0; 0]).

(** A table with a column named _rid. *)
Definition t_rid : SchemaTable := mkTable 2 "R" [mkColumn (Some "_rid") false TI32].
Definition p_rid : DATParser := new_DATParser (mkSchema 1 0 [t_rid]) true.
Definition b_rid : Buffer := bytes (le_bytes 4 1 ++ le_bytes 4 7 ++ magic).

(** A foreignrow field holding the row id -2. *)
Definition b_fr : Buffer := bytes (le_bytes 8 (-2) ++ le_bytes 8 0).


(** A string field whose offset lies past the end of the buffer. *)
Definition b_far : Buffer := bytes (le_bytes 8 1000).

End Dat.

(* ===================================================================== *)
(** * The container reader, class GGPKReader *)
(* ===================================================================== *)

Module Ggpk.
Import Js.

Record FileRecord := mkFileRecord {
  file_offset : Z;
  file_length : Z;
  file_name : list Z;
  file_hash : list byte;
  dataOffset : Z;
  dataLength : Z;
}.

Record DirectoryRecord := mkDirectoryRecord {
  dir_offset : Z;
  dir_length : Z;
  dir_name : list Z;
  dir_hash : list byte;
  entries : list Z;
}.

Record FreeRecord := mkFreeRecord {
  free_offset : Z;
  free_length : Z;
  nextFreeOffset : Z;
}.

Inductive Record_ :=
| FILE (r : FileRecord)
| PDIR (r : DirectoryRecord)
| FREE (r : FreeRecord).

(** [buf.slice(s, e)] for non-negative indices: it never throws, and is
    empty when [e <= s]. *)
Definition slice (buf : Buffer) (s e : Z) : Buffer :=
  take (Z.to_nat (e - s)) (drop (Z.to_nat s) buf).

(** The tag bytes [buf.toString('utf8', 4, 8)] equal an ASCII literal exactly
    when the four bytes are its characters. *)
Definition tag_is (buf : Buffer) (tag : string) : bool :=
  bool_decide (byte_val <$> slice buf 4 8 = code_units tag).

Section Reader.

(** The largest Buffer the runtime allocates, and the bytes of the archive
    behind the file descriptor. *)
Variable kMaxLength : Z.
Variable archive : list byte.

(** [Buffer.alloc(length)] followed by a positioned read: the bytes the
    archive has at the position, the rest of the buffer left zero.  [None]
    when the allocation throws.  For a negative position the read is not a
    positioned one (at -1 it starts at the current position of the
    descriptor): this function says nothing faithful there and gives
    [None]; what is stated about the reader is stated for offsets that are
    not negative. *)
Definition readAtOffset (offset : Z) (length : Z) : option Buffer :=
  if (length <? 0) || (kMaxLength <? length) then None
  else
    let position := Number_of_BigInt offset in
    if position <? 0 then None
    else
      let got := take (Z.to_nat length) (drop (Z.to_nat position) archive) in
      Some (got ++ replicate (Z.to_nat length - base.length got) x00).

Definition parseFileRecordLazy (offset : Z) (totalLength : Z) : option FileRecord :=
  metaHeader ← readAtOffset offset 16;
  nameLength ← readUInt32LE metaHeader 8;
  let headerSize := 8 + 4 + 32 + nameLength * 2 in
  headerBuffer ← readAtOffset offset headerSize;
  let pos := 8 in
  let pos := pos + 4 in
  let hash := slice headerBuffer pos (pos + 32) in
  let pos := pos + 32 in
  let nameBuffer := slice headerBuffer pos (pos + (nameLength - 1) * 2) in
  let name := utf16le nameBuffer in
  let pos := pos + nameLength * 2 in
  let dataOffset := offset + pos in
  let dataLength := totalLength - pos in
  Some (mkFileRecord offset totalLength name hash dataOffset dataLength).

(** The entry loop of parseDirectoryRecord. *)
Fixpoint read_entries (buffer : Buffer) (n : nat) (pos : Z) : option (list Z) :=
  match n with
  | O => Some []
  | S n' =>
      let pos := pos + 4 in
      e ← readBigInt64LE buffer pos;
      rest ← read_entries buffer n' (pos + 8);
      Some (e :: rest)
  end.

Definition parseDirectoryRecord (offset : Z) (buffer : Buffer) : option DirectoryRecord :=
  let pos := 8 in
  nameLength ← readUInt32LE buffer pos;
  let pos := pos + 4 in
  entriesCount ← readUInt32LE buffer pos;
  let pos := pos + 4 in
  let hash := slice buffer pos (pos + 32) in
  let pos := pos + 32 in
  let nameBuffer := slice buffer pos (pos + (nameLength - 1) * 2) in
  let name := utf16le nameBuffer in
  let pos := pos + nameLength * 2 in
  entries ← read_entries buffer (Z.to_nat entriesCount) pos;
  Some (mkDirectoryRecord offset (buf_length buffer) name hash entries).

Definition parseFreeRecord (offset : Z) (buffer : Buffer) (recordLength : Z) : option FreeRecord :=
  nextFreeOffset ← readBigUInt64LE buffer 8;
  Some (mkFreeRecord offset recordLength nextFreeOffset).

Definition readRecord (offset : Z) : option Record_ :=
  headerBuffer ← readAtOffset offset 8;
  length ← readUInt32LE headerBuffer 0;
  if length <? 8 then None
  else if tag_is headerBuffer "FILE" then FILE <$> parseFileRecordLazy offset length
  else if tag_is headerBuffer "PDIR" then
    pdirBuffer ← readAtOffset offset length;
    PDIR <$> parseDirectoryRecord offset pdirBuffer
  else if tag_is headerBuffer "FREE" then
    freeBuffer ← readAtOffset offset (Z.min length 24);
    FREE <$> parseFreeRecord offset freeBuffer length
  else None.

End Reader.

(** Test data: a FILE record named "a.txt" with payload "hello". *)
Definition file_record_a : list Z :=
  le_bytes 4 61 ++ [70; 73; 76; 69] ++ le_bytes 4 6 ++ replicate 32 17
  ++ [97; 0; 46; 0; 116; 0; 120; 0; 116; 0; 0; 0] ++ [104; 101; 108; 108; 111].

Definition archive_a : list byte := bytes (replicate 64 0 ++ file_record_a).

End Ggpk.


(* ===================================================================== *)
(** * The bundle extractor, bundle-extractor.ts *)
(* ===================================================================== *)

Module Bundle.
Import Js.

(** The Numbers the counts of a result can be: [parseInt] of a decimal
    numeral is a non-negative integer, or Infinity when the numeral is too
    large for a double. *)
Inductive number :=
| Finite (z : Z)
| Infinity.

(** [n > 0] *)
Definition is_positive (n : number) : bool :=
  match n with
  | Finite z => 0 <? z
  | Infinity => true
  end.

Record ExtractionResult := mkExtraction {
  extracted : number;
  missed : number;
  total : number;
}.

(** The end of one run: the promise is rejected with an Error, or resolves
    to a result. *)
Inductive outcome :=
| Thrown (message : string)
| Returned (r : ExtractionResult).

Definition newline : string := String (Ascii.ascii_of_nat 10) "".

Definition is_digit (c : Ascii.ascii) : bool :=
  let n := Ascii.nat_of_ascii c in ((48 <=? n) && (n <=? 57))%nat.

(** [\d+] is greedy, and every literal that follows it in the pattern starts
    with a character that is no digit: the longest run of digits is the only
    candidate. *)
Fixpoint span_digits (s : string) : string * string :=
  match s with
  | String c s' =>
      if is_digit c then let '(d, rest) := span_digits s' in (String c d, rest)
      else (EmptyString, s)
  | EmptyString => (EmptyString, EmptyString)
  end.

Definition digits1 (s : string) : option (string * string) :=
  match span_digits s with
  | (EmptyString, _) => None
  | (d, rest) => Some (d, rest)
  end.

(** Strip a literal prefix. *)
Fixpoint literal (l s : string) : option string :=
  match l with
  | EmptyString => Some s
  | String a l' =>
      match s with
      | String b s' => if Ascii.eqb a b then literal l' s' else None
      | EmptyString => None
      end
  end.

(** [s.includes(sub)] *)
Fixpoint includes (sub s : string) : bool :=
  match literal sub s with
  | Some _ => true
  | None =>
      match s with
      | EmptyString => false
      | String _ s' => includes sub s'
      end
  end.

(** A match of [/Done, (\d+)\/(\d+) extracted, (\d+) missed/] at the start
    of [s]: the three captures. *)
Definition match_here (s : string) : option (string * string * string) :=
  s ← literal "Done, " s;
  '(x, s) ← digits1 s;
  s ← literal "/" s;
  '(y, s) ← digits1 s;
  s ← literal " extracted, " s;
  '(z, s) ← digits1 s;
  _ ← literal " missed" s;
  Some (x, y, z).

(** [output.match(re)]: the leftmost match. *)
Fixpoint regex_match (s : string) : option (string * string * string) :=
  match match_here s with
  | Some m => Some m
  | None =>
      match s with
      | EmptyString => None
      | String _ s' => regex_match s'
      end
  end.

(** The value of a string of decimal digits. *)
Definition decimal_value (d : string) : Z :=
  foldl (fun acc c => 10 * acc + (Z.of_nat (Ascii.nat_of_ascii c) - 48)) 0
        (String.list_ascii_of_string d).

(** [parseInt(d)] on a string of decimal digits: the Number nearest to its
    value, as the engines compute it (they round the whole numeral, where
    the language would let them drop the digits after the 20th).  The
    largest double is [2^1024 - 2^971]; a value half a step above it or
    more, that is from [2^1024 - 2^970] on, rounds to Infinity. *)
Definition parseInt (d : string) : number :=
  let v := decimal_value d in
  if v <? 2 ^ 1024 - 2 ^ 970 then Finite (to_double v) else Infinity.

(** extractBundledFiles from the point where the utility has exited:
    [stdout] and [outputBuffer] (the collected stderr) are its output,
    [exitCode] its exit status. *)
Definition extractBundledFiles (patterns : list string)
    (stdout outputBuffer : string) (exitCode : Z) : outcome :=
  let output := stdout +:+ newline +:+ outputBuffer in
  if negb (exitCode =? 0) && negb (includes "Done," output)
  then Thrown ("bun_extract_file failed: " +:+ output)
  else
    match regex_match output with
    | Some (x, y, z) =>
        Returned {| extracted := parseInt x; total := parseInt y; missed := parseInt z |}
    | None =>
        Returned {| extracted := Finite 0;
                    total := Finite (Z.of_nat (length patterns));
                    missed := Finite (Z.of_nat (length patterns)) |}
    end.

(** Specification vocabulary: a numeral is a non-empty string of decimal
    digits; [done_line x y z] is the text the pattern matches. *)
Fixpoint all_digits (s : string) : bool :=
  match s with
  | EmptyString => true
  | String c s' => is_digit c && all_digits s'
  end.

Definition numeral (s : string) : bool :=
  match s with
  | EmptyString => false
  | String _ _ => all_digits s
  end.

Definition done_line (x y z : string) : string :=
  "Done, " +:+ x +:+ "/" +:+ y +:+ " extracted, " +:+ z +:+ " missed".

(** A text whose first character is no digit (or the end of the text). *)
Definition starts_nondigit (s : string) : bool :=
  match s with
  | EmptyString => true
  | String c _ => negb (is_digit c)
  end.

(** A literal without the character [c] cannot match across the start of
    a text that begins with [c]. *)
Fixpoint lacks (c : Ascii.ascii) (l : string) : bool :=
  match l with
  | EmptyString => true
  | String a l' => negb (Ascii.eqb a c) && lacks c l'
  end.

Definition char_D : Ascii.ascii := Ascii.ascii_of_nat 68.

(** The output holds no text the pattern matches. *)
Definition no_done_line (output : string) : Prop :=
  forall pre x y z post,
    numeral x = true -> numeral y = true -> numeral z = true ->
    output <> pre +:+ done_line x y z +:+ post.

(** The first text the pattern matches in [output] is [done_line x y z],
    after [pre]: no such text starts earlier. *)
Definition first_done_line (output pre x y z post : string) : Prop :=
  numeral x = true /\ numeral y = true /\ numeral z = true /\
  output = pre +:+ done_line x y z +:+ post /\
  forall pre' x' y' z' post',
    numeral x' = true -> numeral y' = true -> numeral z' = true ->
    output = pre' +:+ done_line x' y' z' +:+ post' ->
    (String.length pre <= String.length pre')%nat.

End Bundle.

(* ===================================================================== *)
(** * The parallel decode driver, parallel-parser.ts *)
(* ===================================================================== *)

Module Parallel.

(** [Math.ceil(a / b)] on integers, [b] non-zero. *)
Definition Math_ceil_div (a b : Z) : Z := - ((- a) / b).

Section Driver.
Context {ParseTask : Type}.

(** [arr.slice(s, e)]: negative indices count from the end, and both ends
    are clamped to the array. *)
Definition Array_slice (arr : list ParseTask) (s e : Z) : list ParseTask :=
  let len := Z.of_nat (length arr) in
  let rel k := if k <? 0 then Z.max (len + k) 0 else Z.min k len in
  take (Z.to_nat (rel e - rel s)) (drop (Z.to_nat (rel s)) arr).

(** [options.concurrency || Math.max(1, cpus().length - 1)]: an absent or
    zero concurrency falls back to the default. *)
Definition numWorkers_of (concurrency : option Z) (cpus : Z) : Z :=
  match concurrency with
  | Some c => if c =? 0 then Z.max 1 (cpus - 1) else c
  | None => Z.max 1 (cpus - 1)
  end.

(** The loop [for (let i = 0; i < tasks.length; i += batchSize)].  It does
    not terminate when [batchSize <= 0]; [None] is fuel exhausted. *)
Fixpoint batch_loop (tasks : list ParseTask) (batchSize : Z) (fuel : nat) (i : Z)
  : option (list (list ParseTask)) :=
  match fuel with
  | O => None
  | S fuel' =>
      if i <? Z.of_nat (length tasks) then
        rest ← batch_loop tasks batchSize fuel' (i + batchSize);
        Some (Array_slice tasks i (i + batchSize) :: rest)
      else Some []
  end.

(** The batches parseAllDatFilesParallel hands to its workers; no batch is
    made when there is no task. *)
Definition make_batches (concurrency : option Z) (cpus : Z) (tasks : list ParseTask)
    (fuel : nat) : option (list (list ParseTask)) :=
  if Z.of_nat (length tasks) =? 0 then Some []
  else
    let numWorkers := numWorkers_of concurrency cpus in
    let actualWorkers := Z.min numWorkers (Z.of_nat (length tasks)) in
    let batchSize := Math_ceil_div (Z.of_nat (length tasks)) actualWorkers in
    batch_loop tasks batchSize fuel 0.

(** [batches.map(batch => runWorkerBatch(...))]: every call creates its own
    Worker, numbered here in order of creation. *)
Record Worker := mkWorker { worker_id : nat; worker_tasks : list ParseTask }.

Definition runWorkerBatches (batches : list (list ParseTask)) : list Worker :=
  imap mkWorker batches.

(** What the loop computes from cursor [i] on. *)
Definition chunks_ok (tasks : list ParseTask) (s i : Z) (bs : list (list ParseTask)) : Prop :=
  concat bs = drop (Z.to_nat i) tasks /\
  Z.of_nat (length bs) = Math_ceil_div (Z.max (Z.of_nat (length tasks) - i) 0) s /\
  forall (j : nat) b, bs !! j = Some b ->
    1 <= Z.of_nat (length b) <= s /\
    ((S j < length bs)%nat -> Z.of_nat (length b) = s).

End Driver.
End Parallel.

(* ===================================================================== *)
(** * The extraction pipeline, extraction-pipeline.ts *)
(* ===================================================================== *)

Module Pipeline.
Import Js Dat.

(** [s.replace(/\.datc?64$/i, repl)]: a match ends the string, so it is the
    suffix [.datc64] or [.dat64], in any letter case; without a match the
    string is unchanged. *)
Definition ends_with_ci (suffix s : string) : bool :=
  let n := String.length s in
  let k := String.length suffix in
  (k <=? n)%nat && bool_decide (toLowerCase (String.substring (n - k) k s) = suffix).

Definition replace_dat_suffix (s repl : string) : string :=
  let n := String.length s in
  if ends_with_ci ".datc64" s then String.substring 0 (n - 7) s +:+ repl
  else if ends_with_ci ".dat64" s then String.substring 0 (n - 6) s +:+ repl
  else s.

Record PipelineState := mkState {
  files : gmap string Buffer;
  parsed : Z;
  failed : Z;
}.

Section Run.

(** The environment: [path.basename], the text [JSON.stringify(parsed, null, 2)]
    as file content, and whether the file system lets a path be written or
    unlinked. *)
Variable basename : string -> string.
Variable JSON_stringify : ParseResult -> Buffer.
Variable can_write : string -> bool.
Variable can_unlink : string -> bool.

Definition count_failed (st : PipelineState) : PipelineState :=
  mkState (files st) (parsed st) (failed st + 1).

(** One iteration of the loop over [datFiles]; every [throw] inside lands
    in the [catch] that counts a failure. *)
Definition process_data_file (parser : option DATParser) (st : PipelineState) (file : string)
  : PipelineState :=
  let tableName := toLowerCase (replace_dat_suffix (basename file) "") in
  match parser with
  | None => count_failed st
  | Some parser =>
      match files st !! file with
      | None => count_failed st
      | Some buffer =>
          match parse parser buffer tableName with
          | None => count_failed st
          | Some result =>
              if (0 <? length (rows result))%nat then
                let jsonPath := replace_dat_suffix file ".json" in
                if can_write jsonPath then
                  let written := <[jsonPath := JSON_stringify result]> (files st) in
                  let cleaned := if can_unlink file then delete file written else written in
                  mkState cleaned (parsed st + 1) (failed st)
                else count_failed st
              else count_failed st
          end
      end
  end.

(** Phase 2 for table files: [schema] is the loaded schema, [None] when the
    schema file is missing or unreadable. *)
Definition parse_data_files (parseDatFiles : bool) (schema : option Schema)
    (extracted : Bundle.number) (datFiles : list string) (st : PipelineState)
    : PipelineState :=
  if Bundle.is_positive extracted && parseDatFiles && (0 <? length datFiles)%nat then
    let parser := (fun s => new_DATParser s true) <$> schema in
    foldl (process_data_file parser) st datFiles
  else st.

End Run.

(** Test data: a POSIX [basename], an opaque JSON text, an empty table. *)
Fixpoint posix_basename_go (s acc : string) : string :=
  match s with
  | EmptyString => acc
  | String c s' =>
      if Ascii.eqb c (Ascii.ascii_of_nat 47) then posix_basename_go s' EmptyString
      else posix_basename_go s' (acc +:+ String c EmptyString)
  end.

Definition posix_basename (s : string) : string := posix_basename_go s EmptyString.

Definition json_stub (r : ParseResult) : Buffer :=
  bytes [123; Z.of_nat (length (rows r)); 125].

(** A table file with row_count 0, and one holding the table of S3. *)
Definition st_empty_table : PipelineState :=
  mkState {[ "data/Foo.datc64" := bytes [0; 0; 0; 0] ]} 0 0.

Definition st_table : PipelineState := mkState {[ "data/Foo.datc64" := b3 ]} 0 0.

End Pipeline.

(* ===================================================================== *)
(** * Vocabulary for the table decoder *)
(* ===================================================================== *)

Module DatSpec.
Import Js Dat.

(** The test of the constructor: bit 2 of [validFor] for POE2, bit 1 for
    POE1. *)
Definition valid_for (isPOE2 : bool) (table : SchemaTable) : bool :=
  if isPOE2 then negb (Z.land (validFor table) 2 =? 0)
  else negb (Z.land (validFor table) 1 =? 0).

(** A table the constructor keeps and that answers to [tableName]. *)
Definition table_matches (isPOE2 : bool) (tableName : string) (table : SchemaTable) : Prop :=
  valid_for isPOE2 table = true /\ toLowerCase (tbl_name table) = toLowerCase tableName.

#[global] Instance table_matches_dec isPOE2 tableName table :
  Decision (table_matches isPOE2 tableName table).
Proof. unfold table_matches. apply _. Defined.

(** What calculateRowSize counts for a column. *)
Definition nominal_size (col : SchemaColumn) : Z :=
  if col_array col then 16 else or8 (FIELD_SIZES (col_type col)).

(** The bytes readField reads at [offset] for a type. *)
Definition read_width (type : FieldType) : Z :=
  match type with
  | TBool => 1
  | TI16 | TU16 => 2
  | TI32 | TU32 | TF32 | TEnumRow => 4
  | TString | TRow | TForeignRow | TArray => 8
  end.

(** No two neighbouring code units are both zero. *)
Fixpoint no_double_nul (s : list Z) : bool :=
  match s with
  | a :: ((b :: _) as t) => negb ((a =? 0) && (b =? 0)) && no_double_nul t
  | _ => true
  end.

(** A column that is not an array but whose type is array. *)
Definition scalar_array_type (col : SchemaColumn) : bool :=
  negb (col_array col) && bool_decide (col_type col = TArray).

(** The values the integer types of fixed width can hold. *)
Definition integer_range (type : FieldType) (v : Z) : Prop :=
  match type with
  | TI16 => -32768 <= v < 32768
  | TU16 => 0 <= v < 65536
  | TI32 | TEnumRow => -2147483648 <= v < 2147483648
  | TU32 => 0 <= v < 4294967296
  | _ => True
  end.

End DatSpec.

(* ===================================================================== *)
(** * Vocabulary for the rows of a table *)
(* ===================================================================== *)

Module DatRows.
Import Js Dat DatSpec.

(** [buf'] has the length of [buf] and the same bytes at the positions in
    [lo, hi) and from [m] on. *)
Definition agree_on (buf buf' : Buffer) (lo hi m : Z) : Prop :=
  length buf' = length buf /\
  forall k : nat, lo <= Z.of_nat k < hi \/ m <= Z.of_nat k -> buf' !! k = buf !! k.

(** The read the column loop makes for a column at [off], and what it
    stores for it: the value read, or null when the read throws. *)
Definition column_read (buf : Buffer) (vds : Z) (col : SchemaColumn) (off : Z)
  : option (value * Z) :=
  if col_array col then readArray buf off vds (col_type col)
  else readField buf off vds (col_type col).

Definition column_value (buf : Buffer) (vds : Z) (col : SchemaColumn) (off : Z) : value :=
  match column_read buf vds col off with
  | Some (v, _) => v
  | None => VNull
  end.

(** The bytes the read of a column addresses in the fixed region. *)
Definition column_width (col : SchemaColumn) : Z :=
  if col_array col then 16 else read_width (col_type col).

(** Where a column starts in its row: after the sizes of the columns
    before it. *)
Definition column_start (pre : list SchemaColumn) : Z :=
  foldr (fun col s => nominal_size col + s) 0 pre.

(** The cursor of the column loop of the row at [rowStart] when it has
    gone through the columns [pre]. *)
Definition cursor_after (buf : Buffer) (vds rowStart R : Z) (pre : list SchemaColumn) : Z :=
  fst (parse_columns buf vds rowStart R pre 0 rowStart ∅).

(** The column has a field of its own in the row: its name is not
    [__proto__], whose assignment sets no property of the row, and no
    column after it takes the name. *)
Definition keeps_name (pre : list SchemaColumn) (col : SchemaColumn)
    (post : list SchemaColumn) : Prop :=
  fieldName col (length pre) <> "__proto__" /\
  forall (j : nat) c, post !! j = Some c ->
    fieldName c (S (length pre) + j) <> fieldName col (length pre).

(** What a stored string offset decodes to when the variable data start
    at [m]: null when it is negative; otherwise it addresses [m + offset],
    where at or past the end of the buffer the value is the empty string,
    and where a 4-byte run of zeros is first met, in steps of two bytes,
    after [k] code units, the value is the UTF-16LE text of these. *)
Definition string_decoding (buf : Buffer) (m strOffset : Z) (v : value) : Prop :=
  (strOffset < 0 -> v = VNull) /\
  (0 <= strOffset -> buf_length buf <= m + strOffset -> v = VStr []) /\
  (0 <= strOffset -> forall k, first_zero_run buf (m + strOffset) k = true ->
     v = VStr (utf16le (take (2 * k) (drop (Z.to_nat (m + strOffset)) buf)))).

(** No column has the type array without being an array. *)
Definition plain_columns (cols : list SchemaColumn) : bool :=
  forallb (fun c => negb (scalar_array_type c)) cols.

(** Scenario S5 with the first four bytes of row 1 set to zero. *)
Definition b5' : Buffer :=
  bytes (le_bytes 4 2
         ++ le_bytes 8 (-1) ++ le_bytes 8 8 ++ le_bytes 4 0
         ++ le_bytes 4 0 ++ le_bytes 4 (-1) ++ le_bytes 8 8 ++ le_bytes 4 0
         ++ magic ++ [104; 0; 105; 0; 0; 0; 0; 0]).

(** A table of one column, an array of strings: one row holding the
    string hi and a null. *)
Definition t_names : SchemaTable := mkTable 2 "Names" [mkColumn (Some "names") true TString].
Definition p_names : DATParser := new_DATParser (mkSchema 1 0 [t_names]) true.
Definition b_names : Buffer :=
  bytes (le_bytes 4 1 ++ le_bytes 8 2 ++ le_bytes 8 8 ++ magic
         ++ le_bytes 8 24 ++ le_bytes 8 (-1) ++ [104; 0; 105; 0; 0; 0; 0; 0]).

End DatRows.

(* ===================================================================== *)
(** * The archive reader: header, extraction and listings *)
(* ===================================================================== *)

Module GgpkFiles.
Import Js Ggpk.

Record GGPKHeader := mkHeader {
  version : Z;
  firstRecordOffset : Z;
}.

(** How an extraction ends: it returns, or a read throws part-way. *)
Inductive completion := Done | Threw.

Definition CHUNK_SIZE : Z := 50 * 1024 * 1024.

(** A path is a JavaScript string, kept as its code units; [sep] is "/". *)
Definition sep : list Z := [47].

(** [path ? `${path}/${name}` : name]: the empty string is falsy. *)
Definition join_path (path name : list Z) : list Z :=
  match path with
  | [] => name
  | _ => path ++ sep ++ name
  end.

(** How a whole listing ends.  readHeader is outside every [try], so its
    Error leaves the function.  [Unsettled] stands for the runs on which
    this model is silent: those that exhaust the call stack, where the
    RangeError is thrown and swallowed inside some [try] at a depth that
    depends on the engine, and those that address a record at a negative
    position, where the read starts at the current position of the
    descriptor.  The source returns on them, with a result that the bytes
    of the archive alone do not determine. *)
Inductive listing (A : Type) :=
| Returns (a : A)
| Throws
| Unsettled.
Arguments Returns {A} a.
Arguments Throws {A}.
Arguments Unsettled {A}.

Section Reader.

Variable kMaxLength : Z.
Variable archive : list byte.

(** readHeader; the field [magic] of the result is always "GGPK". *)
Definition readHeader : option GGPKHeader :=
  headerBuffer ← readAtOffset kMaxLength archive 0 32;
  recordLength ← readUInt32LE headerBuffer 0;
  if negb (tag_is headerBuffer "GGPK") then None
  else
    version ← readUInt32LE headerBuffer 8;
    firstRecordOffset ← readBigUInt64LE headerBuffer 12;
    Some (mkHeader version firstRecordOffset).

(** The [while (remaining > 0)] loop of extractFile over [chunk]-sized
    reads; [written] is the content of the output file so far.  Every
    iteration takes at least one byte off [remaining], so [fuel] above it
    is never exhausted. *)
Fixpoint copy_chunks (chunk : Z) (fuel : nat) (remaining currentOffset : Z) (written : Buffer)
  : completion * Buffer :=
  match fuel with
  | O => (Done, written)
  | S fuel' =>
      if 0 <? remaining then
        let chunkSize := Z.min chunk remaining in
        match readAtOffset kMaxLength archive currentOffset chunkSize with
        | None => (Threw, written)
        | Some data =>
            copy_chunks chunk fuel' (remaining - chunkSize) (currentOffset + chunkSize)
              (written ++ data)
        end
      else (Done, written)
  end.

(** extractFile: the output files after the call (directories are not
    modelled, and writes are taken to succeed). *)
Definition extractFile (fileRecord : FileRecord) (outputPath : string)
    (files : gmap string Buffer) : completion * gmap string Buffer :=
  if CHUNK_SIZE <? dataLength fileRecord then
    let '(c, written) :=
      copy_chunks CHUNK_SIZE (Z.to_nat (dataLength fileRecord))
        (dataLength fileRecord) (dataOffset fileRecord) [] in
    (c, <[outputPath := written]> files)
  else
    match readAtOffset kMaxLength archive (dataOffset fileRecord) (dataLength fileRecord) with
    | None => (Threw, files)
    | Some data => (Done, <[outputPath := data]> files)
    end.

(** [for (const x of xs) body(x)] over a state: the loop stops at the
    first iteration that does not finish. *)
Fixpoint for_each {A S : Type} (xs : list A) (body : A -> S -> option S) (s : S) : option S :=
  match xs with
  | [] => Some s
  | x :: xs' => s' ← body x s; for_each xs' body s'
  end.



(** [!pattern || pattern.test(filePath)], for a pattern without the flags
    that make [test] depend on earlier calls. *)
Definition accepts (pattern : option (list Z -> bool)) (filePath : list Z) : bool :=
  match pattern with
  | None => true
  | Some test => test filePath
  end.

(** The closure [traverse] of listFiles, acting on the array [files]. *)
Fixpoint traverse_list (pattern : option (list Z -> bool)) (fuel : nat) (offset : Z)
    (path : list Z) (files : list (list Z)) : option (list (list Z)) :=
  match fuel with
  | O => None
  | S fuel' =>
      if offset <? 0 then None else
      match readRecord kMaxLength archive offset with
      | Some (PDIR record) =>
          let dirPath := join_path path (dir_name record) in
          let cleanPath := if bool_decide (dir_name record = code_units "ROOT")
                           then [] else dirPath in
          for_each (entries record)
            (fun entryOffset files => traverse_list pattern fuel' entryOffset cleanPath files)
            files
      | Some (FILE record) =>
          let filePath := join_path path (file_name record) in
          if accepts pattern filePath then Some (files ++ [filePath]) else Some files
      | Some (FREE _) => Some files
      | None => Some files
      end
  end.

Definition listFiles (pattern : option (list Z -> bool)) (fuel : nat) : listing (list (list Z)) :=
  match readHeader with
  | None => Throws
  | Some header =>
      match traverse_list pattern fuel (firstRecordOffset header) [] [] with
      | Some files => Returns files
      | None => Unsettled
      end
  end.


End Reader.

(** ** The layout of records, for stating what the reader recovers *)

Definition encode_utf16 (units : list Z) : list byte :=
  units ≫= (fun u => [byte_of u; byte_of (u / 256)]).

(** [length:4][tag:4][version:4][first record offset:8] *)
Definition header_bytes (length version firstRecord : Z) : list byte :=
  bytes (le_bytes 4 length) ++ bytes (code_units "GGPK")
  ++ bytes (le_bytes 4 version) ++ bytes (le_bytes 8 firstRecord).

(** [length:4][tag:4][nameLength:4][hash:32][name:nameLength*2][data] *)
Definition file_record_bytes (name : list Z) (hash payload : list byte) : list byte :=
  let nameLength := Z.of_nat (length name) + 1 in
  bytes (le_bytes 4 (8 + 4 + 32 + 2 * nameLength + Z.of_nat (length payload)))
  ++ bytes (code_units "FILE") ++ bytes (le_bytes 4 nameLength)
  ++ hash ++ encode_utf16 name ++ [x00; x00] ++ payload.

(** [length:4][tag:4][nameLength:4][entries:4][hash:32][name][(hash:4, offset:8)*] *)
Definition directory_record_bytes (name : list Z) (hash : list byte)
    (children : list (Z * Z)) : list byte :=
  let nameLength := Z.of_nat (length name) + 1 in
  bytes (le_bytes 4 (8 + 4 + 4 + 32 + 2 * nameLength + 12 * Z.of_nat (length children)))
  ++ bytes (code_units "PDIR") ++ bytes (le_bytes 4 nameLength)
  ++ bytes (le_bytes 4 (Z.of_nat (length children)))
  ++ hash ++ encode_utf16 name ++ [x00; x00]
  ++ (children ≫= (fun c => bytes (le_bytes 4 (fst c)) ++ bytes (le_bytes 8 (snd c)))).

(** One entry of a directory: the hash of the name, then the offset. *)
Definition entry_bytes (c : Z * Z) : list byte :=
  bytes (le_bytes 4 (fst c)) ++ bytes (le_bytes 8 (snd c)).

(** The bytes of the archive in [offset, offset + length), zero beyond its
    end. *)
Definition archive_range (archive : list byte) (offset length : Z) : Buffer :=
  let got := take (Z.to_nat length) (drop (Z.to_nat offset) archive) in
  got ++ replicate (Z.to_nat length - base.length got) x00.

(** Scenario S2: ROOT holding a.txt and sub, sub holding b.txt. *)
Definition hash0 : list byte := replicate 32 x00.
Definition rec_a : list byte := file_record_bytes (code_units "a.txt") hash0 (bytes (code_units "hello")).
Definition rec_b : list byte := file_record_bytes (code_units "b.txt") hash0 (bytes (code_units "world")).
Definition off_root : Z := 32.
Definition rec_root (a s : Z) : list byte :=
  directory_record_bytes (code_units "ROOT") hash0 [(1, a); (2, s)].
Definition off_a : Z := off_root + Z.of_nat (length (rec_root 0 0)).
Definition off_sub : Z := off_a + Z.of_nat (length rec_a).
Definition rec_sub (b : Z) : list byte := directory_record_bytes (code_units "sub") hash0 [(3, b)].
Definition off_b : Z := off_sub + Z.of_nat (length (rec_sub 0)).
Definition archive_S2 : list byte :=
  header_bytes 28 3 off_root ++ replicate 12 x00
  ++ rec_root off_a off_sub ++ rec_a ++ rec_sub off_b ++ rec_b.



End GgpkFiles.

(* ===================================================================== *)
(** * Parsing a directory of tables: dat-parser.ts and parallel-parser.ts *)
(* ===================================================================== *)

Module ParseAll.
Import Js Dat.

Record ParseAllResult := mkCounts {
  success : Z;
  failed : Z;
  skipped : Z;
  cached : Z;
}.

(** A file as the loop sees it: its bytes, and [mtimeMs] of its [stat].
    Time stamps are only compared with each other, so integers stand for
    them. *)
Record FileEntry := mkFile {
  content : Buffer;
  mtimeMs : Z;
}.

Record RunState := mkRun {
  fs : gmap string FileEntry;
  counts : ParseAllResult;
}.

(** [s.replace(pat, '')] for a string pattern: only the first occurrence
    goes. *)
Fixpoint remove_first (pat s : string) : string :=
  match Bundle.literal pat s with
  | Some rest => rest
  | None =>
      match s with
      | EmptyString => EmptyString
      | String c s' => String c (remove_first pat s')
      end
  end.

(** isCached: [stat] of a missing input throws into the [catch], a missing
    output is the [null] of its own [catch]. *)
Definition isCached (fs : gmap string FileEntry) (inputPath outputPath : string) : bool :=
  match fs !! inputPath, fs !! outputPath with
  | Some inputStat, Some outputStat => mtimeMs inputStat <=? mtimeMs outputStat
  | _, _ => false
  end.

Definition tally_success (c : ParseAllResult) : ParseAllResult :=
  mkCounts (success c + 1) (failed c) (skipped c) (cached c).
Definition tally_failed (c : ParseAllResult) : ParseAllResult :=
  mkCounts (success c) (failed c + 1) (skipped c) (cached c).
Definition tally_skipped (c : ParseAllResult) : ParseAllResult :=
  mkCounts (success c) (failed c) (skipped c + 1) (cached c).
Definition tally_cached (c : ParseAllResult) : ParseAllResult :=
  mkCounts (success c + 1) (failed c) (skipped c) (cached c + 1).

Section Loop.

(** The environment: [path.join], the JSON text of the rows (pretty or
    compact) and whether [Bun.write] to a path succeeds.  A write that
    fails is taken to leave the file system as it was. *)
Variable join : string -> string -> string.
Variable JSON_stringify : list Row -> Buffer.
Variable can_write : string -> bool.

Variable parser : DATParser.
Variable useCache : bool.
Variable dataDir outputDir : string.

Definition outputPath_of (file : string) : string :=
  join outputDir (remove_first ".datc64" file +:+ ".json").

(** One iteration of the loop of parseAllDatFiles, at time [now], which is
    what a write stamps on the file. *)
Definition parse_one (now : Z) (st : RunState) (file : string) : RunState :=
  let tableName := remove_first ".datc64" file in
  let inputPath := join dataDir file in
  let outputPath := join outputDir (tableName +:+ ".json") in
  match getTableSchema parser tableName with
  | None => mkRun (fs st) (tally_skipped (counts st))
  | Some _ =>
      if useCache && isCached (fs st) inputPath outputPath
      then mkRun (fs st) (tally_cached (counts st))
      else
        match fs st !! inputPath with
        | None => mkRun (fs st) (tally_failed (counts st))
        | Some input =>
            match parse parser (content input) tableName with
            | None => mkRun (fs st) (tally_failed (counts st))
            | Some result =>
                if can_write outputPath
                then mkRun (<[outputPath := mkFile (JSON_stringify (rows result)) now]> (fs st))
                           (tally_success (counts st))
                else mkRun (fs st) (tally_failed (counts st))
            end
        end
  end.

(** The loop over [datFiles]; iteration [i] runs at time [clock i]. *)
Fixpoint parse_loop (clock : nat -> Z) (i : nat) (st : RunState) (datFiles : list string)
  : RunState :=
  match datFiles with
  | [] => st
  | file :: rest => parse_loop clock (S i) (parse_one (clock i) st file) rest
  end.

(** parseAllDatFiles from the point where the schema is loaded and
    [datFiles] has been selected from the directory: the loop and the
    counters it returns, with the file system it leaves. *)
Definition parseAllDatFiles (clock : nat -> Z) (files : gmap string FileEntry)
    (datFiles : list string) : RunState :=
  parse_loop clock 0 (mkRun files (mkCounts 0 0 0 0)) datFiles.

(** Vocabulary: the table of [file] has a schema; its output is at least as
    new as its input; the iteration can parse it and write the result. *)
Definition has_schema (file : string) : bool :=
  bool_decide (is_Some (getTableSchema parser (remove_first ".datc64" file))).

Definition hit (files : gmap string FileEntry) (file : string) : bool :=
  isCached files (join dataDir file) (outputPath_of file).

Definition parses (files : gmap string FileEntry) (file : string) : bool :=
  has_schema file && bool_decide (is_Some (files !! join dataDir file))
  && can_write (outputPath_of file).

(** No input among [all] is stamped later than any time of [clock]. *)
Definition stamped (clock : nat -> Z) (all : list string) (files : gmap string FileEntry)
  : Prop :=
  forall f e (i : nat), f ∈ all -> files !! join dataDir f = Some e -> mtimeMs e <= clock i.

End Loop.

(** ** The statistics of the parallel driver *)

Record WorkerResult := mkWorkerResult {
  res_tableName : string;
  res_success : bool;
  res_rowCount : Z;
  res_error : option string;
  res_cached : bool;
}.

Record ParallelParseResult := mkStats {
  st_success : Z;
  st_failed : Z;
  st_skipped : Z;
  st_cached : Z;
  totalRows : Z;
}.

(** The body of [for (const result of results)] in
    parseAllDatFilesParallel; [cached] and [success] are tested for truth,
    an absent [cached] being false. *)
Definition aggregate_one (stats : ParallelParseResult) (result : WorkerResult)
  : ParallelParseResult :=
  if res_cached result then
    mkStats (st_success stats + 1) (st_failed stats) (st_skipped stats)
            (st_cached stats + 1) (totalRows stats)
  else if res_success result then
    mkStats (st_success stats + 1) (st_failed stats) (st_skipped stats)
            (st_cached stats) (num_add (totalRows stats) (res_rowCount result))
  else if bool_decide (res_error result = Some "No schema") then
    mkStats (st_success stats) (st_failed stats) (st_skipped stats + 1)
            (st_cached stats) (totalRows stats)
  else
    mkStats (st_success stats) (st_failed stats + 1) (st_skipped stats)
            (st_cached stats) (totalRows stats).

Definition aggregate (results : list WorkerResult) : ParallelParseResult :=
  foldl aggregate_one (mkStats 0 0 0 0 0) results.

(** The rows the statistics should count: those of the results that were
    parsed, not taken from the cache. *)
Definition parsed_rows (results : list WorkerResult) : Z :=
  foldr (fun r acc => (if negb (res_cached r) && res_success r then res_rowCount r else 0) + acc)
        0 results.

Definition is_skip (r : WorkerResult) : bool :=
  negb (res_cached r) && negb (res_success r)
  && bool_decide (res_error r = Some "No schema").

Definition accounted (c : ParseAllResult) : Z := success c + failed c + skipped c.

(** Test data. *)
Definition join_slash (dir name : string) : string := dir +:+ "/" +:+ name.
Definition json_rows (rs : list Row) : Buffer := bytes [91; Z.of_nat (length rs); 93].
Definition fs3 : gmap string FileEntry := {[ "in/Foo.datc64" := mkFile b3 100 ]}.

End ParseAll.


(* ===================================================================== *)
(** * The file list of the bundle utility, bundle-extractor.ts *)
(* ===================================================================== *)

Module BundleList.
Import Js Bundle.

(** The code units [String.prototype.trim] removes: WhiteSpace and
    LineTerminator of the language. *)
Definition is_space (u : Z) : bool :=
  bool_decide (u ∈ [9; 10; 11; 12; 13; 32; 160; 5760; 8232; 8233; 8239; 8287; 12288; 65279])
  || ((8192 <=? u) && (u <=? 8202)).

Fixpoint trimStart (s : list Z) : list Z :=
  match s with
  | u :: s' => if is_space u then trimStart s' else s
  | [] => []
  end.

Definition trimEnd (s : list Z) : list Z := reverse (trimStart (reverse s)).

Definition trim (s : list Z) : list Z := trimEnd (trimStart s).

(** [s.split('\n')]: the pieces between line feeds; a text without one is a
    single piece. *)
Fixpoint split_lines (s : list Z) : list (list Z) :=
  match s with
  | [] => [[]]
  | u :: s' =>
      match split_lines s' with
      | line :: rest => if u =? 10 then [] :: line :: rest else (u :: line) :: rest
      | [] => [[u]]
      end
  end.

(** listBundledFiles once the utility has exited: [None] is the thrown
    Error, the value is the field [files] of the result ([bundleCount] and
    [fileCount], read off stderr, are left out). *)
Definition listBundledFiles (stdout : list Z) (stderr : string) (exitCode : Z)
  : option (list (list Z)) :=
  if negb (exitCode =? 0) && negb (includes "File count" stderr) then None
  else Some (List.filter (fun l => (0 <? length l)%nat) (trim <$> split_lines stdout)).

(** Vocabulary: a path as the utility prints it, and a listing with one
    path per line, each line closed by [eol]. *)
Definition printable (name : list Z) : Prop :=
  name <> [] /\ (10 ∉ name) /\
  (forall u, head name = Some u -> is_space u = false) /\
  (forall u, last name = Some u -> is_space u = false).

Definition print_lines (eol : list Z) (names : list (list Z)) : list Z :=
  names ≫= (fun name => name ++ eol).

End BundleList.


(* ===================================================================== *)
(** * Facts about the runtime model *)
(* ===================================================================== *)

Module JsFacts.
Import Js.

(** Integers of magnitude below 2^53 are doubles. *)
Lemma to_double_exact z : Z.abs z < 2 ^ 53 -> to_double z = z.
Proof.
  intros Hz. unfold to_double.
  destruct (Z.eq_dec (Z.abs z) 0) as [H0 | H0].
  - rewrite H0. reflexivity.
  - assert (Z.log2 (Z.abs z) < 53) by (apply Z.log2_lt_pow2; lia).
    destruct (Z.leb_spec (Z.log2 (Z.abs z) - 52) 0); [reflexivity | lia].
Qed.

(** Rounding keeps the sign and never falls below 2^53 in magnitude. *)
Lemma to_double_magnitude z :
  2 ^ 53 <= Z.abs z ->
  exists m, 2 ^ 53 <= m /\ to_double z = Z.sgn z * m.
Proof.
  intros Hz. unfold to_double.
  set (a := Z.abs z) in *.
  assert (Hlog : 53 <= Z.log2 a) by (apply Z.log2_le_pow2; lia).
  set (k := Z.log2 a - 52).
  destruct (Z.leb_spec k 0) as [Hk | Hk]; [lia |].
  set (q := Z.shiftr a k).
  assert (Hq : 2 ^ 52 <= q).
  { unfold q. rewrite Z.shiftr_div_pow2 by lia.
    apply Z.div_le_lower_bound; [lia |].
    rewrite <- Z.pow_add_r by lia.
    replace (k + 52) with (Z.log2 a) by lia.
    apply Z.log2_spec. lia. }
  match goal with |- context [Z.shiftl ?x k] => set (q' := x) end.
  assert (Hq' : q <= q').
  { unfold q'. repeat match goal with |- context [if ?c then _ else _] => destruct c end; lia. }
  exists (Z.shiftl q' k). split; [| reflexivity].
  rewrite Z.shiftl_mul_pow2 by lia.
  assert (2 <= 2 ^ k).
  { change 2 with (2 ^ 1) at 1. apply Z.pow_le_mono_r; lia. }
  change (2 ^ 53) with (2 ^ 52 * 2). nia.
Qed.

Lemma to_double_ge z : 2 ^ 53 <= z -> 2 ^ 53 <= to_double z.
Proof.
  intros Hz. destruct (to_double_magnitude z) as (m & Hm & ->); [lia |].
  rewrite Z.sgn_pos by lia. lia.
Qed.

Lemma to_double_le z : z <= - 2 ^ 53 -> to_double z <= - 2 ^ 53.
Proof.
  intros Hz. destruct (to_double_magnitude z) as (m & Hm & ->); [lia |].
  rewrite Z.sgn_neg by lia. lia.
Qed.

(** Ties go to the even neighbour; the largest signed 64-bit integer rounds
    up to 2^63. *)
Example to_double_ties :
  to_double (2 ^ 53 + 1) = 2 ^ 53 /\ to_double (2 ^ 53 + 3) = 2 ^ 53 + 4 /\
  to_double (2 ^ 63 - 1) = 2 ^ 63 /\ to_double (- (2 ^ 53 + 1)) = - 2 ^ 53.
Proof. repeat split. Qed.

(** A read succeeds exactly when its range lies inside the buffer. *)
Lemma read_bytes_Some buf off n :
  0 <= off -> off + Z.of_nat n <= buf_length buf ->
  read_bytes buf off n = Some (take n (drop (Z.to_nat off) buf)).
Proof.
  intros H1 H2. unfold read_bytes.
  destruct (Z.leb_spec 0 off); [| lia].
  destruct (Z.leb_spec (off + Z.of_nat n) (buf_length buf)); [| lia].
  reflexivity.
Qed.

Lemma read_bytes_inv buf off n bs :
  read_bytes buf off n = Some bs ->
  0 <= off /\ off + Z.of_nat n <= buf_length buf /\ bs = take n (drop (Z.to_nat off) buf).
Proof.
  unfold read_bytes.
  destruct (Z.leb_spec 0 off); simpl; [| discriminate].
  destruct (Z.leb_spec (off + Z.of_nat n) (buf_length buf)); [| discriminate].
  intros [= <-]. auto.
Qed.

Lemma readUIntLE_inv buf off n v :
  readUIntLE buf off n = Some v -> 0 <= off /\ off + Z.of_nat n <= buf_length buf.
Proof.
  unfold readUIntLE. destruct (read_bytes buf off n) eqn:E; [| discriminate].
  intros _. apply read_bytes_inv in E. tauto.
Qed.

Lemma readUIntLE_is_Some buf off n :
  0 <= off -> off + Z.of_nat n <= buf_length buf -> is_Some (readUIntLE buf off n).
Proof.
  intros. unfold readUIntLE. rewrite read_bytes_Some by assumption. simpl. eauto.
Qed.

End JsFacts.

(* ===================================================================== *)
(** * The table decoder: proofs *)
(* ===================================================================== *)

Module DatProofs.
Import Js Dat JsFacts.

(** ** readString and string fields *)

Lemma zero_run_at_inv buf e :
  zero_run_at buf e = true -> readUInt32LE buf e = Some 0 /\ 0 <= e /\ e + 4 <= buf_length buf.
Proof.
  unfold zero_run_at. destruct (readUInt32LE buf e) as [v |] eqn:E; [| discriminate].
  destruct v; try discriminate. intros _.
  apply readUIntLE_inv in E as HE. split; [reflexivity | lia].
Qed.

Lemma first_zero_run_bound buf k : forall p,
  first_zero_run buf p k = true -> p + 2 * Z.of_nat k + 4 <= buf_length buf.
Proof.
  induction k as [| k IH]; intros p H; simpl in H.
  - apply zero_run_at_inv in H. lia.
  - apply andb_true_iff in H as [_ H]. apply IH in H. lia.
Qed.

(** The loop stops at the first zero run, [k] code units after [p]. *)
Lemma scan_end_first_zero_run buf k : forall p fuel,
  0 <= p -> first_zero_run buf p k = true -> (k < fuel)%nat ->
  scan_end buf fuel p = Some (p + 2 * Z.of_nat k).
Proof.
  induction k as [| k IH]; intros p fuel Hp H Hf.
  - destruct fuel as [| fuel]; [lia |]. simpl in *.
    apply zero_run_at_inv in H as (Hr & _ & Hb).
    destruct (Z.leb_spec (p + 4) (buf_length buf)); [| lia].
    rewrite Hr. simpl. f_equal. lia.
  - destruct fuel as [| fuel]; [lia |].
    cbn [first_zero_run] in H. apply andb_true_iff in H as [Hnz H].
    pose proof (first_zero_run_bound _ _ _ H) as Hb.
    cbn [scan_end].
    destruct (Z.leb_spec (p + 4) (buf_length buf)); [| lia].
    assert (is_Some (readUIntLE buf p 4)) as [v Hv] by (apply readUIntLE_is_Some; lia).
    unfold zero_run_at, readUInt32LE in *. rewrite Hv in *. simpl.
    destruct (Z.eqb_spec v 0) as [-> | _]; [simpl in Hnz; discriminate |].
    rewrite IH by (assumption || lia). f_equal. lia.
Qed.

(** The loop of readString leaves on its own: with fuel above half the
    remaining bytes, the cursor it returns satisfies the exit condition. *)
Lemma scan_end_fuel buf fuel : forall e e',
  0 <= e -> buf_length buf - e < 2 * Z.of_nat fuel ->
  scan_end buf fuel e = Some e' ->
  buf_length buf < e' + 4 \/ readUInt32LE buf e' = Some 0.
Proof.
  induction fuel as [| fuel IH]; intros e e' He Hf H.
  - simpl in H. injection H as <-. lia.
  - cbn [scan_end] in H.
    destruct (Z.leb_spec (e + 4) (buf_length buf)).
    + destruct (readUInt32LE buf e) as [v |] eqn:Hv; [| discriminate]. simpl in H.
      destruct (Z.eqb_spec v 0) as [-> | _].
      * injection H as <-. auto.
      * apply IH in H; [assumption | lia | lia].
    + injection H as <-. lia.
Qed.

Lemma readString_first_zero_run buf p k :
  0 <= p -> first_zero_run buf p k = true ->
  readString buf p = Some (utf16le (take (2 * k) (drop (Z.to_nat p) buf))).
Proof.
  intros Hp H. pose proof (first_zero_run_bound _ _ _ H) as Hb.
  unfold readString.
  destruct (Z.leb_spec (buf_length buf) p); [lia |].
  rewrite (scan_end_first_zero_run buf k) by (try assumption; unfold buf_length in *; lia).
  simpl. destruct (Z.eqb_spec (p + 2 * Z.of_nat k) p) as [E | E].
  - assert (k = 0%nat) as -> by lia. reflexivity.
  - unfold toString_utf16le. do 3 f_equal. lia.
Qed.

Lemma readString_out_of_range buf p : buf_length buf <= p -> readString buf p = Some [].
Proof.
  intros H. unfold readString. destruct (Z.leb_spec (buf_length buf) p); [reflexivity | lia].
Qed.

(** The target position [variableDataStart + Number(strOffset)] is exact
    below 2^53 and stays above it otherwise. *)
Lemma string_target_exact vds off :
  0 <= vds -> 0 <= off -> vds + off < 2 ^ 53 ->
  num_add vds (Number_of_BigInt off) = vds + off.
Proof.
  intros. unfold num_add, Number_of_BigInt.
  rewrite (to_double_exact off) by lia. apply to_double_exact. lia.
Qed.

Lemma string_target_large vds off :
  0 <= vds -> 0 <= off -> 2 ^ 53 <= vds + off ->
  2 ^ 53 <= num_add vds (Number_of_BigInt off).
Proof.
  intros Hv Ho H. unfold num_add, Number_of_BigInt.
  apply to_double_ge.
  destruct (Z.lt_ge_cases off (2 ^ 53)).
  - rewrite (to_double_exact off) by lia. lia.
  - pose proof (to_double_ge off). lia.
Qed.

(** readField on a string field, for any start of the variable data: a
    negative stored offset decodes to null; an offset that is not negative
    addresses [variableDataStart + offset], where at or past the end of the
    buffer the value is the empty string, and otherwise it is the text of
    the [k] code units before the first 4-byte run of zeros met in steps of
    two bytes. *)
Lemma readField_string buf offset vds strOffset :
  0 <= vds -> buf_length buf < 2 ^ 53 ->
  readBigInt64LE buf offset = Some strOffset ->
  (strOffset < 0 -> readField buf offset vds TString = Some (VNull, 8)) /\
  (0 <= strOffset -> buf_length buf <= vds + strOffset ->
     readField buf offset vds TString = Some (VStr [], 8)) /\
  (0 <= strOffset -> forall k, first_zero_run buf (vds + strOffset) k = true ->
     readField buf offset vds TString =
       Some (VStr (utf16le (take (2 * k) (drop (Z.to_nat (vds + strOffset)) buf))), 8)).
Proof.
  intros Hv Hlen Hr. unfold readField. rewrite Hr. simpl.
  repeat split.
  - intros Hneg. destruct (Z.ltb_spec strOffset 0); [reflexivity | lia].
  - intros Hpos Hout. destruct (Z.ltb_spec strOffset 0); [lia |].
    rewrite readString_out_of_range; [reflexivity |].
    destruct (Z.lt_ge_cases (vds + strOffset) (2 ^ 53)).
    + rewrite string_target_exact by lia. lia.
    + pose proof (string_target_large vds strOffset). lia.
  - intros Hpos k Hk. destruct (Z.ltb_spec strOffset 0); [lia |].
    pose proof (first_zero_run_bound _ _ _ Hk).
    rewrite string_target_exact by lia.
    rewrite (readString_first_zero_run _ _ k) by (assumption || lia). reflexivity.
Qed.

(** ** readArray *)

Lemma read_elements_length buf vds ty size n : forall off,
  (length (read_elements buf vds ty size n off) <= n)%nat.
Proof.
  induction n as [| n IH]; intros off; simpl; [lia |].
  destruct (buf_length buf <? off + size); simpl; [lia |].
  specialize (IH (off + size)). lia.
Qed.

(** The element loop reads the elements that fit before the end of the
    buffer, [n] at most. *)
Lemma read_elements_partial buf vds ty size n : forall off,
  0 < size ->
  read_elements buf vds ty size n off =
    (fun i : nat => element_at buf vds ty (off + Z.of_nat i * size))
      <$> seq 0 (n `min` Z.to_nat ((buf_length buf - off) / size)).
Proof.
  induction n as [| n IH]; intros off Hs; [reflexivity |].
  cbn [read_elements].
  destruct (Z.ltb_spec (buf_length buf) (off + size)) as [Hlt | Hge].
  - assert ((buf_length buf - off) / size <= 0).
    { apply Z.lt_succ_r. apply Z.div_lt_upper_bound; lia. }
    replace (Z.to_nat ((buf_length buf - off) / size)) with 0%nat by lia.
    rewrite Nat.min_0_r. reflexivity.
  - assert (Hq : (buf_length buf - (off + size)) / size = (buf_length buf - off) / size - 1).
    { replace (buf_length buf - (off + size)) with ((buf_length buf - off) + (-1) * size) by lia.
      rewrite Z.div_add by lia. lia. }
    assert (1 <= (buf_length buf - off) / size).
    { apply Z.div_le_lower_bound; lia. }
    rewrite IH by assumption. rewrite Hq.
    replace (S n `min` Z.to_nat ((buf_length buf - off) / size))%nat
      with (S (n `min` Z.to_nat ((buf_length buf - off) / size - 1)))%nat by lia.
    cbn [seq fmap list_fmap]. rewrite <- fmap_S_seq, <- list_fmap_compose.
    f_equal.
    + unfold element_at. replace (off + Z.of_nat 0 * size) with off by lia. reflexivity.
    + apply list_fmap_ext. intros _ j _. simpl. f_equal. lia.
Qed.

(** Once its two 64-bit reads succeed, readArray returns an array of at most
    100 000 elements, empty for a length outside [0, 100000]. *)
Lemma readArray_shape buf offset vds ty len64 arrOff :
  readBigInt64LE buf offset = Some len64 ->
  readBigInt64LE buf (offset + 8) = Some arrOff ->
  exists l, readArray buf offset vds ty = Some (VArr l, 16) /\
            Z.of_nat (length l) <= 100000 /\
            (len64 < 0 \/ 100000 < len64 -> l = []).
Proof.
  intros H1 H2. unfold readArray. rewrite H1, H2. cbn [mbind option_bind].
  destruct ((len64 =? 0) || (arrOff <? 0)) eqn:E0.
  { exists []. simpl. repeat split; try lia. }
  change (Number_of_BigInt len64) with (to_double len64).
  destruct (Z.ltb_spec 100000 (to_double len64)) as [Hc1 | Hc1]; cbn [orb].
  { exists []. simpl. repeat split; try lia. }
  destruct (Z.ltb_spec (to_double len64) 0) as [Hc2 | Hc2]; cbn [orb].
  { exists []. simpl. repeat split; try lia. }
  assert (Hexact : 0 <= len64 <= 100000).
  { destruct (Z.lt_ge_cases (Z.abs len64) (2 ^ 53)) as [Hs | Hs].
    - rewrite to_double_exact in * by assumption. lia.
    - destruct (Z.le_ge_cases 0 len64).
      + pose proof (to_double_ge len64). lia.
      + pose proof (to_double_le len64). lia. }
  rewrite (to_double_exact len64) by lia.
  match goal with |- context [if ?c then _ else _] => destruct c end.
  { exists []. simpl. repeat split; try lia. }
  match goal with |- context [if ?c then _ else _] => destruct c end.
  { exists []. simpl. repeat split; try lia. }
  eexists. split; [reflexivity |]. split.
  - pose proof (read_elements_length buf vds ty (or8 (FIELD_SIZES ty)) (Z.to_nat len64)
                  (num_add vds (Number_of_BigInt arrOff))). lia.
  - lia.
Qed.

(** An accepted array is the list of the elements that fit. *)
Lemma readArray_partial buf offset vds ty len64 arrOff :
  readBigInt64LE buf offset = Some len64 ->
  readBigInt64LE buf (offset + 8) = Some arrOff ->
  0 < len64 <= 100000 -> 0 <= arrOff -> ty <> TArray ->
  let dataOffset := num_add vds (Number_of_BigInt arrOff) in
  0 <= dataOffset < buf_length buf ->
  readArray buf offset vds ty =
    Some (VArr ((fun i : nat => element_at buf vds ty (dataOffset + Z.of_nat i * FIELD_SIZES ty))
                  <$> seq 0 (Z.to_nat len64 `min`
                               Z.to_nat ((buf_length buf - dataOffset) / FIELD_SIZES ty))), 16).
Proof.
  intros H1 H2 Hlen Hoff Hty dataOffset Hd. unfold readArray. rewrite H1, H2.
  cbn [mbind option_bind].
  destruct (Z.eqb_spec len64 0); [lia |].
  destruct (Z.ltb_spec arrOff 0); [lia |]. cbn [orb].
  change (Number_of_BigInt len64) with (to_double len64). rewrite (to_double_exact len64) by lia.
  destruct (Z.ltb_spec 100000 len64); [lia |].
  destruct (Z.ltb_spec len64 0); [lia |]. cbn [orb].
  rewrite bool_decide_eq_false_2 by assumption.
  assert (Hsz : 0 < FIELD_SIZES ty) by (destruct ty; simpl; lia).
  destruct (Z.eqb_spec (FIELD_SIZES ty) 0); [lia |]. cbn [orb].
  fold dataOffset.
  destruct (Z.ltb_spec dataOffset 0); [lia |].
  destruct (Z.leb_spec (buf_length buf) dataOffset); [lia |]. cbn [orb].
  unfold or8. destruct (Z.eqb_spec (FIELD_SIZES ty) 0); [lia |].
  rewrite read_elements_partial by assumption. reflexivity.
Qed.

(** readField never yields an array. *)
Lemma readField_not_array buf offset vds ty v n :
  readField buf offset vds ty = Some (v, n) -> forall l, v <> VArr l.
Proof.
  intros H l ->. unfold readField in H.
  destruct ty; simpl in H;
    repeat match type of H with
           | context [mbind _ ?x] => destruct x; simpl in H
           | context [if ?c then _ else _] => destruct c
           end; congruence.
Qed.

(** ** The row loop *)

Lemma readArray_bounded buf offset vds ty v n :
  readArray buf offset vds ty = Some (v, n) -> array_bounded v.
Proof.
  intros H.
  destruct (readBigInt64LE buf offset) as [len64 |] eqn:H1;
    [| unfold readArray in H; rewrite H1 in H; discriminate].
  destruct (readBigInt64LE buf (offset + 8)) as [arrOff |] eqn:H2;
    [| unfold readArray in H; rewrite H1, H2 in H; discriminate].
  destruct (readArray_shape buf offset vds ty len64 arrOff H1 H2) as (l & Hl & Hb & _).
  rewrite Hl in H. injection H as <- <-. intros l' [= <-]. exact Hb.
Qed.

Lemma parse_columns_bounded buf vds rowStart R cols :
  forall colIdx offset (row : gmap string value),
  map_Forall (fun _ v => array_bounded v) row ->
  map_Forall (fun _ v => array_bounded v)
    (snd (parse_columns buf vds rowStart R cols colIdx offset row)).
Proof.
  induction cols as [| col cols IH]; intros colIdx offset row Hrow; [exact Hrow |].
  cbn [parse_columns].
  destruct (rowStart + R <=? offset); [exact Hrow |].
  destruct (col_array col) eqn:Harr.
  - destruct (readArray buf offset vds (col_type col)) as [[v n] |] eqn:E.
    + apply IH. apply map_Forall_insert_2; [| exact Hrow].
      eapply readArray_bounded; eassumption.
    + apply IH. apply map_Forall_insert_2; [| exact Hrow]. intros l; discriminate.
  - destruct (readField buf offset vds (col_type col)) as [[v n] |] eqn:E.
    + apply IH. apply map_Forall_insert_2; [| exact Hrow].
      intros l ->. exfalso. exact (readField_not_array _ _ _ _ _ _ E l eq_refl).
    + apply IH. apply map_Forall_insert_2; [| exact Hrow]. intros l; discriminate.
Qed.

Lemma parse_row_bounded buf vds R table i rowStart :
  map_Forall (fun _ v => array_bounded v) (parse_row buf vds R table i rowStart).
Proof.
  unfold parse_row. apply parse_columns_bounded.
  apply map_Forall_singleton. intros l; discriminate.
Qed.

(** The column loop leaves once the cursor is at or past the end of the row. *)
Lemma parse_columns_past_row buf vds rowStart R cols colIdx offset (row : gmap string value) :
  rowStart + R <= offset ->
  parse_columns buf vds rowStart R cols colIdx offset row = (offset, row).
Proof.
  intros H. destruct cols; [reflexivity |]. cbn [parse_columns].
  destruct (Z.leb_spec (rowStart + R) offset); [reflexivity | lia].
Qed.

(** A field no column is named after keeps its value through the column
    loop. *)
Lemma parse_columns_lookup_other buf vds rowStart R (k : string) cols :
  forall colIdx offset (row : gmap string value),
  (forall (j : nat) col, cols !! j = Some col -> fieldName col (colIdx + j) <> k) ->
  snd (parse_columns buf vds rowStart R cols colIdx offset row) !! k = row !! k.
Proof.
  induction cols as [| col cols IH]; intros colIdx offset row Hk; [reflexivity |].
  cbn [parse_columns].
  destruct (rowStart + R <=? offset); [reflexivity |].
  assert (Hhd : fieldName col colIdx <> k).
  { specialize (Hk 0%nat col eq_refl). rewrite Nat.add_0_r in Hk. exact Hk. }
  assert (Htl : forall (j : nat) c, cols !! j = Some c -> fieldName c (S colIdx + j) <> k).
  { intros j c Hj. specialize (Hk (S j) c Hj).
    replace (S colIdx + j)%nat with (colIdx + S j)%nat by lia. exact Hk. }
  match goal with
  | |- context [let '(v, bytesRead) := ?x in _] => destruct x as [v bytesRead]
  end.
  rewrite IH by exact Htl. apply lookup_insert_ne. exact Hhd.
Qed.

(** The row loop in closed form: row [j] starts at [offset + j * R]. *)
Lemma parse_rows_spec buf vds R table n : forall i offset rows,
  parse_rows buf vds R table n i offset rows =
    (offset + Z.of_nat n * R,
     rows ++ ((fun j : nat => parse_row buf vds R table (i + Z.of_nat j) (offset + Z.of_nat j * R))
                <$> seq 0 n)).
Proof.
  induction n as [| n IH]; intros i offset rows.
  - simpl. rewrite app_nil_r. f_equal. lia.
  - cbn [parse_rows]. rewrite IH. f_equal; [lia |].
    cbn [seq fmap list_fmap]. rewrite <- fmap_S_seq, <- list_fmap_compose.
    rewrite <- app_assoc. f_equal. cbn [app]. f_equal.
    + f_equal; lia.
    + apply list_fmap_ext. intros _ j _. simpl. f_equal; lia.
Qed.

(** A position found by indexOf lies between the start and the end. *)
Lemma indexOf_from_range pat l : forall i,
  indexOf_from pat l i = -1 \/ i <= indexOf_from pat l i < i + Z.of_nat (length l).
Proof.
  induction l as [| x l IH]; intros i; [left; reflexivity |].
  cbn [indexOf_from length]. destruct (is_prefix pat (x :: l)).
  - right. lia.
  - destruct (IH (i + 1)) as [-> | H]; [left; reflexivity | right; lia].
Qed.

Lemma indexOf_range buf pat start :
  0 <= start ->
  indexOf buf pat start = -1 \/ start <= indexOf buf pat start < buf_length buf.
Proof.
  intros Hs. unfold indexOf.
  destruct (indexOf_from_range pat (drop (Z.to_nat start) buf) start) as [H | H];
    [left; exact H | right].
  rewrite length_drop in H. unfold buf_length. lia.
Qed.

(** parse never throws. *)
Lemma parse_total p buf tableName : is_Some (parse p buf tableName).
Proof.
  unfold parse. destruct (getTableSchema p tableName) as [table |]; [| eauto].
  destruct (Z.ltb_spec (buf_length buf) 4); [eauto |].
  destruct (readUIntLE_is_Some buf 0 4) as [rc Hrc]; [lia | lia |].
  unfold readUInt32LE. rewrite Hrc. cbn [mbind option_bind].
  destruct (rc =? 0); [eauto |].
  destruct (indexOf buf VARIABLE_DATA_MAGIC 4 =? -1); [eauto |].
  destruct (parse_rows _ _ _ _ _ _ _ _). eauto.
Qed.

(** The result of parse for a known table, a positive row count and a
    magic in place. *)
Lemma parse_known p buf tableName table rc :
  getTableSchema p tableName = Some table ->
  readUInt32LE buf 0 = Some rc -> 0 < rc ->
  let m := indexOf buf VARIABLE_DATA_MAGIC 4 in
  m <> -1 ->
  parse p buf tableName =
    Some (mkResult
            ((fun i : nat =>
                parse_row buf m ((m - 4) / rc) table (Z.of_nat i) (4 + Z.of_nat i * ((m - 4) / rc)))
               <$> seq 0 (Z.to_nat rc))
            rc None).
Proof.
  intros Ht Hrc Hpos m Hm. unfold parse. rewrite Ht.
  apply readUIntLE_inv in Hrc as Hlen.
  destruct (Z.ltb_spec (buf_length buf) 4); [lia |].
  rewrite Hrc. cbn [mbind option_bind].
  destruct (Z.eqb_spec rc 0); [lia |].
  fold m. destruct (Z.eqb_spec m (-1)); [contradiction |].
  rewrite parse_rows_spec. cbn [app]. do 3 f_equal.
Qed.

(** Scenario S3, decoded. *)
Example scenario_S3 :
  (fun r => (fun row : gmap string value => (row !! "a", row !! "s", row !! "_unknown2"))
              <$> rows r) <$> parse p3 b3 "foo"
  = Some [(Some (VNum 7), Some (VStr [104; 105]), Some (VArr [VNum 1; VNum 2; VNum 3]));
          (Some (VNum 9), Some VNull, Some (VArr [VNum 2; VNum 3]))].
Proof. vm_compute. reflexivity. Qed.

(** Scenario S4: a string offset of -1 and a row id of 0xFEFEFEFEFEFEFEFE are
    both null. *)
Example scenario_S4 :
  readField (bytes (le_bytes 8 (-1))) 0 0 TString = Some (VNull, 8) /\
  readField (bytes (replicate 8 0xFE)) 0 0 TRow = Some (VNull, 8).
Proof. split; vm_compute; reflexivity. Qed.

(** ** Null sentinels *)

(** A signed 64-bit read lies in [-2^63, 2^63). *)
Lemma readBigInt64LE_range buf off v :
  readBigInt64LE buf off = Some v -> - 2 ^ 63 <= v < 2 ^ 63.
Proof.
  unfold readBigInt64LE. destruct (readUIntLE buf off 8) as [u |]; [| discriminate].
  intros [= <-]. unfold asIntN.
  pose proof (Z.mod_pos_bound u (2 ^ 64) ltac:(lia)).
  destruct (Z.ltb_spec (u mod 2 ^ 64) (2 ^ (64 - 1)));
    change (2 ^ (64 - 1)) with (2 ^ 63) in *; lia.
Qed.

(** Any foreignrow field holding -2 decodes to the number -2. *)
Lemma foreignrow_minus_two_not_null buf offset vds :
  readBigInt64LE buf offset = Some (-2) ->
  readField buf offset vds TForeignRow = Some (VNum (-2), 16).
Proof. intros H. unfold readField. rewrite H. reflexivity. Qed.

(** The constant NULL_FOREIGN_ROW is no value of a signed read. *)
Lemma NULL_FOREIGN_ROW_never_read buf off v :
  readBigInt64LE buf off = Some v -> v <> NULL_FOREIGN_ROW.
Proof. intros H%readBigInt64LE_range. unfold NULL_FOREIGN_ROW. lia. Qed.

(** Claim C2, at the failing input.  A foreignrow field whose stored row id
    is -2 decodes to the number -2, not to null. *)
Theorem readField_foreignrow_minus_two :
  readBigInt64LE b_fr 0 = Some (-2) /\
  readField b_fr 0 0 TForeignRow = Some (VNum (-2), 16).
Proof. split; vm_compute; reflexivity. Qed.

(** Claim C3 fails on scenario S5: the table is known, the schema row size
    is 24 and the observed one 20, and the result carries no warning. *)
Lemma schema_mismatch_warning_counterexample :
  getTableSchema p5 "t" = Some t5 /\
  calculateRowSize t5 = 24 /\
  (indexOf b5 VARIABLE_DATA_MAGIC 4 - 4) / 2 = 20 /\
  ~ (exists r w, parse p5 b5 "t" = Some r /\ error r = Some w).
Proof.
  repeat split; try (vm_compute; reflexivity).
  intros (r & w & Hr & Hw).
  assert (Hp : error <$> parse p5 b5 "t" = Some None) by (vm_compute; reflexivity).
  rewrite Hr in Hp. simpl in Hp. congruence.
Qed.

(** Claim C3, as the code has it.  When the schema row size differs from
    the observed row size, parse returns [row_count] rows with no error or
    warning attached. *)
Theorem parse_schema_mismatch_silent p buf tableName table rc :
  getTableSchema p tableName = Some table ->
  readUInt32LE buf 0 = Some rc -> 0 < rc ->
  indexOf buf VARIABLE_DATA_MAGIC 4 <> -1 ->
  calculateRowSize table <> (indexOf buf VARIABLE_DATA_MAGIC 4 - 4) / rc ->
  exists r, parse p buf tableName = Some r /\
            Z.of_nat (length (rows r)) = rc /\ rowCount r = rc /\ error r = None.
Proof.
  intros Ht Hrc Hpos Hm _.
  rewrite (parse_known p buf tableName table rc Ht Hrc Hpos Hm).
  eexists. split; [reflexivity |]. cbn [rows rowCount error].
  rewrite length_fmap, length_seq. repeat split. lia.
Qed.

(** Scenario S5 again: two rows, no error. *)
Lemma parse_schema_mismatch_silent_witness :
  exists r, parse p5 b5 "t" = Some r /\
            Z.of_nat (length (rows r)) = 2 /\ rowCount r = 2 /\ error r = None.
Proof.
  apply (parse_schema_mismatch_silent p5 b5 "t" t5 2);
    [vm_compute; reflexivity | vm_compute; reflexivity | lia
    | vm_compute; discriminate | vm_compute; discriminate].
Defined.

(** Claim C10 fails for a table with a column named _rid: the column value
    7 replaces the row index 0. *)
Lemma rid_overwritten_counterexample :
  exists r row,
    parse p_rid b_rid "r" = Some r /\ error r = None /\
    readUInt32LE b_rid 0 = Some 1 /\
    rows r !! 0%nat = Some row /\ row !! "_rid" = Some (VNum 7) /\
    row !! "_rid" <> Some (VNum 0).
Proof.
  eexists. eexists.
  split; [vm_compute; reflexivity |].
  split; [reflexivity |].
  split; [vm_compute; reflexivity |].
  split; [reflexivity |].
  split; [vm_compute; reflexivity | vm_compute; discriminate].
Qed.

(** Claim C10, as the code has it.  When parse returns no error for a
    buffer with [row_count > 0], the table is known, there are exactly
    [row_count] rows, the [i]-th is the decoding of the [i]-th row of the
    file, and it carries [_rid = i] provided no column of the table is
    named _rid. *)
Theorem parse_rows_in_file_order p buf tableName r rc :
  parse p buf tableName = Some r -> error r = None ->
  readUInt32LE buf 0 = Some rc -> 0 < rc ->
  exists table,
    getTableSchema p tableName = Some table /\
    Z.of_nat (length (rows r)) = rc /\
    forall i : nat, Z.of_nat i < rc ->
      exists row,
        rows r !! i = Some row /\
        (let m := indexOf buf VARIABLE_DATA_MAGIC 4 in
         let R := (m - 4) / rc in
         row = parse_row buf m R table (Z.of_nat i) (4 + Z.of_nat i * R)) /\
        ((forall (j : nat) col, columns table !! j = Some col -> fieldName col j <> "_rid") ->
         row !! "_rid" = Some (VNum (Z.of_nat i))).
Proof.
  intros Hp Herr Hrc Hpos.
  destruct (getTableSchema p tableName) as [table |] eqn:Ht.
  2: { unfold parse in Hp. rewrite Ht in Hp. injection Hp as <-. discriminate. }
  exists table. split; [reflexivity |].
  destruct (Z.eq_dec (indexOf buf VARIABLE_DATA_MAGIC 4) (-1)) as [Hm | Hm].
  { unfold parse in Hp. rewrite Ht, Hrc in Hp. cbn [mbind option_bind] in Hp.
    apply readUIntLE_inv in Hrc.
    destruct (Z.ltb_spec (buf_length buf) 4); [lia |].
    destruct (Z.eqb_spec rc 0); [lia |].
    rewrite Hm in Hp. simpl in Hp. injection Hp as <-. discriminate. }
  rewrite (parse_known p buf tableName table rc Ht Hrc Hpos Hm) in Hp.
  injection Hp as <-. cbn [rows].
  split; [rewrite length_fmap, length_seq; lia |].
  intros i Hi. eexists. split; [| split].
  - rewrite list_lookup_fmap, lookup_seq_lt by lia. reflexivity.
  - reflexivity.
  - intros Hnames. unfold parse_row.
    rewrite parse_columns_lookup_other by exact Hnames.
    apply lookup_singleton_eq.
Qed.

(** Scenario S3: the second row carries [_rid = 1]. *)
Lemma parse_rows_in_file_order_witness :
  exists r row,
    parse p3 b3 "foo" = Some r /\ rows r !! 1%nat = Some row /\
    row !! "_rid" = Some (VNum 1).
Proof.
  destruct (parse p3 b3 "foo") as [r |] eqn:Hp; [| vm_compute in Hp; discriminate].
  destruct (parse_rows_in_file_order p3 b3 "foo" r 2 Hp) as (table & Ht & _ & Hrows).
  - vm_compute in Hp. injection Hp as <-. reflexivity.
  - vm_compute. reflexivity.
  - lia.
  - destruct (Hrows 1%nat ltac:(lia)) as (row & Hrow & _ & Hrid).
    exists r, row. split; [reflexivity |]. split; [exact Hrow |].
    apply Hrid. vm_compute in Ht. injection Ht as <-.
    intros [| [| [| j]]] col; simpl; intros [= <-]; discriminate.
Defined.

(** Claim C5.  No array in a row returned by parse has more than 100 000
    elements.  An array field whose recorded length is negative or above
    100 000 decodes to the empty list, and an accepted one decodes to the
    elements that fit before the end of the buffer: the first
    [min(length, (buffer_length - data_offset) / element_size)]. *)
Theorem array_bound :
  (forall p buf tableName r (row : gmap string value) k l,
     parse p buf tableName = Some r -> row ∈ rows r -> row !! k = Some (VArr l) ->
     Z.of_nat (length l) <= 100000)
  /\
  (forall buf offset vds ty len64 arrOff,
     readBigInt64LE buf offset = Some len64 ->
     readBigInt64LE buf (offset + 8) = Some arrOff ->
     (exists l, readArray buf offset vds ty = Some (VArr l, 16) /\
                Z.of_nat (length l) <= 100000 /\
                (len64 < 0 \/ 100000 < len64 -> l = [])) /\
     (0 < len64 <= 100000 -> 0 <= arrOff -> ty <> TArray ->
      let dataOffset := num_add vds (Number_of_BigInt arrOff) in
      0 <= dataOffset < buf_length buf ->
      readArray buf offset vds ty =
        Some (VArr ((fun i : nat =>
                       element_at buf vds ty (dataOffset + Z.of_nat i * FIELD_SIZES ty))
                      <$> seq 0 (Z.to_nat len64 `min`
                                   Z.to_nat ((buf_length buf - dataOffset) / FIELD_SIZES ty))),
              16))).
Proof.
  split.
  - intros p buf tableName r row k l Hp Hrow Hk.
    assert (Hall : Forall (map_Forall (fun _ v => array_bounded v)) (rows r)).
    { unfold parse in Hp.
      destruct (getTableSchema p tableName) as [table |]; [| injection Hp as <-; constructor].
      destruct (buf_length buf <? 4); [injection Hp as <-; constructor |].
      destruct (readUInt32LE buf 0) as [rc |]; [| discriminate]. cbn [mbind option_bind] in Hp.
      destruct (rc =? 0); [injection Hp as <-; constructor |].
      destruct (indexOf buf VARIABLE_DATA_MAGIC 4 =? -1); [injection Hp as <-; constructor |].
      rewrite parse_rows_spec in Hp. injection Hp as <-. cbn [rows app].
      apply Forall_fmap, Forall_forall. intros j _. apply parse_row_bounded. }
    rewrite Forall_forall in Hall. exact (Hall row Hrow k (VArr l) Hk l eq_refl).
  - intros buf offset vds ty len64 arrOff H1 H2. split.
    + exact (readArray_shape buf offset vds ty len64 arrOff H1 H2).
    + intros Hl Ho Hty d Hd.
      exact (readArray_partial buf offset vds ty len64 arrOff H1 H2 Hl Ho Hty Hd).
Qed.

(** Scenario S3: a 3-element array, and one of recorded length 5 cut to the
    2 elements that fit. *)
Lemma array_bound_witness :
  readArray b3 16 60 TI32 = Some (VArr [VNum 1; VNum 2; VNum 3], 16) /\
  readArray b3 44 60 TI32 = Some (VArr [VNum 2; VNum 3], 16) /\
  (forall r (row : gmap string value) l,
     parse p3 b3 "foo" = Some r -> row ∈ rows r ->
     row !! "_unknown2" = Some (VArr l) -> Z.of_nat (length l) <= 100000).
Proof.
  split; [| split].
  - exact (proj2 (proj2 array_bound b3 16 60 TI32 3 16
                    ltac:(vm_compute; reflexivity) ltac:(vm_compute; reflexivity))
             ltac:(lia) ltac:(lia) ltac:(discriminate)
             ltac:(vm_compute; split; [discriminate | reflexivity])).
  - exact (proj2 (proj2 array_bound b3 44 60 TI32 5 20
                    ltac:(vm_compute; reflexivity) ltac:(vm_compute; reflexivity))
             ltac:(lia) ltac:(lia) ltac:(discriminate)
             ltac:(vm_compute; split; [discriminate | reflexivity])).
  - intros r row l. exact (proj1 array_bound p3 b3 "foo" r row "_unknown2" l).
Defined.

End DatProofs.

(* ===================================================================== *)
(** * The container reader: proofs *)
(* ===================================================================== *)

Module GgpkProofs.
Import Js Ggpk JsFacts.

(** A positioned read returns a buffer of the requested length. *)
Lemma readAtOffset_length kMax archive offset n buf :
  readAtOffset kMax archive offset n = Some buf -> buf_length buf = n.
Proof.
  unfold readAtOffset.
  destruct (Z.ltb_spec n 0); [discriminate |].
  destruct (kMax <? n); [discriminate |]. cbn [orb].
  destruct (Number_of_BigInt offset <? 0); [discriminate |].
  intros [= <-]. unfold buf_length.
  rewrite length_app, length_replicate.
  set (got := take _ _).
  assert (length got <= Z.to_nat n)%nat by (unfold got; rewrite length_take; lia).
  lia.
Qed.

Lemma utf16le_length bs : Z.of_nat (length (utf16le bs)) = Z.of_nat (length bs) / 2.
Proof.
  assert (H : forall n (l : list byte), (length l <= n)%nat ->
                Z.of_nat (length (utf16le l)) = Z.of_nat (length l) / 2).
  { induction n as [| n IH]; intros l Hl.
    - destruct l; [reflexivity | simpl in Hl; lia].
    - destruct l as [| lo [| hi rest]]; [reflexivity | reflexivity |].
      cbn [utf16le length] in *. rewrite Nat2Z.inj_succ, IH by lia.
      replace (Z.of_nat (S (S (length rest)))) with (Z.of_nat (length rest) + 1 * 2) by lia.
      rewrite Z.div_add by lia. lia. }
  apply (H (length bs)). lia.
Qed.

(** The record parseFileRecordLazy returns, in terms of the name length
    [N] it read at [offset + 8]. *)
Lemma parseFileRecordLazy_payload kMax archive offset L r :
  parseFileRecordLazy kMax archive offset L = Some r ->
  exists metaHeader N,
    readAtOffset kMax archive offset 16 = Some metaHeader /\
    readUInt32LE metaHeader 8 = Some N /\
    file_offset r = offset /\ file_length r = L /\
    dataOffset r = offset + (8 + 4 + 32 + 2 * N) /\
    dataLength r = L - (8 + 4 + 32 + 2 * N) /\
    (1 <= N -> Z.of_nat (length (file_name r)) = N - 1).
Proof.
  unfold parseFileRecordLazy. intros H.
  destruct (readAtOffset kMax archive offset 16) as [metaHeader |] eqn:Hm; [| discriminate].
  cbn [mbind option_bind] in H.
  destruct (readUInt32LE metaHeader 8) as [N |] eqn:HN; [| discriminate].
  cbn [mbind option_bind] in H.
  destruct (readAtOffset kMax archive offset (8 + 4 + 32 + N * 2)) as [hdr |] eqn:Hh;
    [| discriminate].
  cbn [mbind option_bind] in H. injection H as <-.
  exists metaHeader, N. cbn [file_offset file_length dataOffset dataLength file_name].
  split; [reflexivity |]. split; [exact HN |].
  do 4 (split; [reflexivity || lia |]).
  intros HN1. apply readAtOffset_length in Hh. unfold buf_length in Hh.
  rewrite utf16le_length. unfold slice. rewrite length_take, length_drop.
  replace (Z.of_nat (Z.to_nat (8 + 4 + 32 + (N - 1) * 2 - (8 + 4 + 32)) `min`
                     (length hdr - Z.to_nat (8 + 4 + 32))))
    with ((N - 1) * 2) by lia.
  apply Z.div_mul. lia.
Qed.

(** It returns whenever the header fits a Buffer. *)
Lemma parseFileRecordLazy_returns kMax archive offset L metaHeader N :
  readAtOffset kMax archive offset 16 = Some metaHeader ->
  readUInt32LE metaHeader 8 = Some N ->
  8 + 4 + 32 + 2 * N <= kMax ->
  is_Some (parseFileRecordLazy kMax archive offset L).
Proof.
  intros Hm HN Hk. unfold parseFileRecordLazy. rewrite Hm. cbn [mbind option_bind].
  rewrite HN. cbn [mbind option_bind].
  assert (0 <= N).
  { unfold readUInt32LE, readUIntLE in HN. destruct (read_bytes metaHeader 8 4) as [bs |];
      [| discriminate]. injection HN as <-.
    clear. induction bs as [| b bs IH]; simpl; [lia |]. unfold byte_val. lia. }
  unfold readAtOffset in *.
  destruct (Z.ltb_spec (8 + 4 + 32 + N * 2) 0); [lia |].
  destruct (Z.ltb_spec kMax (8 + 4 + 32 + N * 2)); [lia |]. cbn [orb].
  destruct (((16 <? 0) || (kMax <? 16))%bool); [discriminate |].
  destruct (Number_of_BigInt offset <? 0); [discriminate |].
  cbn [mbind option_bind]. eauto.
Qed.

(** Claim C6.  For a FILE record read at [offset] with record length [L]
    and name length [N], the payload starts [8 + 4 + 32 + 2 * N] bytes into
    the record, at [offset + 44 + 2 * N] in the archive, and its length is
    [L - (8 + 4 + 32 + 2 * N)]. *)
Theorem file_record_payload_arithmetic kMax archive offset r :
  readRecord kMax archive offset = Some (FILE r) ->
  exists headerBuffer L metaHeader N,
    readAtOffset kMax archive offset 8 = Some headerBuffer /\
    readUInt32LE headerBuffer 0 = Some L /\
    readAtOffset kMax archive offset 16 = Some metaHeader /\
    readUInt32LE metaHeader 8 = Some N /\
    file_length r = L /\
    dataOffset r - offset = 8 + 4 + 32 + 2 * N /\
    dataOffset r = offset + 44 + 2 * N /\
    dataLength r = L - (8 + 4 + 32 + 2 * N).
Proof.
  unfold readRecord. intros H.
  destruct (readAtOffset kMax archive offset 8) as [hdr |] eqn:Hh; [| discriminate].
  cbn [mbind option_bind] in H.
  destruct (readUInt32LE hdr 0) as [L |] eqn:HL; [| discriminate].
  cbn [mbind option_bind] in H.
  destruct (L <? 8); [discriminate |].
  destruct (tag_is hdr "FILE").
  - destruct (parseFileRecordLazy kMax archive offset L) as [r' |] eqn:Hp; [| discriminate].
    injection H as <-.
    apply parseFileRecordLazy_payload in Hp
      as (metaHeader & N & Hm & HN & _ & HLr & Hdo & Hdl & _).
    exists hdr, L, metaHeader, N. repeat split; try assumption; lia.
  - destruct (tag_is hdr "PDIR").
    + destruct (readAtOffset kMax archive offset L); [| discriminate].
      cbn [mbind option_bind] in H.
      destruct (parseDirectoryRecord _ _); discriminate.
    + destruct (tag_is hdr "FREE"); [| discriminate].
      destruct (readAtOffset kMax archive offset (L `min` 24)); [| discriminate].
      cbn [mbind option_bind] in H.
      destruct (parseFreeRecord _ _ _); discriminate.
Qed.

(** A record of 61 bytes at offset 64 named a.txt: 5 bytes of payload at
    offset 120. *)
Lemma file_record_payload_arithmetic_witness :
  exists r, readRecord 1000 archive_a 64 = Some (FILE r) /\
            dataOffset r = 64 + 44 + 2 * 6 /\ dataLength r = 61 - (8 + 4 + 32 + 2 * 6).
Proof.
  destruct (readRecord 1000 archive_a 64) as [[r | |] |] eqn:Hr;
    try (vm_compute in Hr; discriminate).
  exists r. split; [reflexivity |].
  destruct (file_record_payload_arithmetic 1000 archive_a 64 r Hr)
    as (hdr & L & meta & N & Hh & HL & Hm & HN & _ & _ & Hdo & Hdl).
  vm_compute in Hh. injection Hh as <-. vm_compute in HL. injection HL as <-.
  vm_compute in Hm. injection Hm as <-. vm_compute in HN. injection HN as <-.
  split; assumption.
Defined.

End GgpkProofs.

(* ===================================================================== *)
(** * The bundle extractor: proofs *)
(* ===================================================================== *)

Module BundleProofs.
Import Js Bundle.

Lemma append_nil (s : string) : "" +:+ s = s.
Proof. reflexivity. Qed.

Lemma append_cons c (a b : string) : String c a +:+ b = String c (a +:+ b).
Proof. reflexivity. Qed.

Lemma append_assoc (a b c : string) : (a +:+ b) +:+ c = a +:+ (b +:+ c).
Proof.
  induction a as [| x a IH]; [reflexivity |].
  rewrite !append_cons, IH. reflexivity.
Qed.

Lemma literal_cons a l b s :
  literal (String a l) (String b s) = if Ascii.eqb a b then literal l s else None.
Proof. reflexivity. Qed.

(** ** The matcher is sound and complete for its pattern *)

Lemma literal_app l s : literal l (l +:+ s) = Some s.
Proof.
  induction l as [| a l IH]; [reflexivity |].
  rewrite append_cons. simpl. rewrite Ascii.eqb_refl. exact IH.
Qed.

Lemma literal_inv l : forall s r, literal l s = Some r -> s = l +:+ r.
Proof.
  induction l as [| a l IH]; intros s r H; simpl in H.
  - injection H as <-. reflexivity.
  - destruct s as [| b s]; [discriminate |].
    destruct (Ascii.eqb_spec a b) as [<- | _]; [| discriminate].
    rewrite append_cons. f_equal. apply IH. exact H.
Qed.

Lemma span_digits_inv s : forall d r,
  span_digits s = (d, r) -> s = d +:+ r /\ all_digits d = true.
Proof.
  induction s as [| c s IH]; intros d r H; simpl in H.
  - injection H as <- <-. split; reflexivity.
  - destruct (is_digit c) eqn:Hc.
    + destruct (span_digits s) as [d' r'] eqn:E. injection H as <- <-.
      destruct (IH d' r' eq_refl) as [-> Hd]. simpl. rewrite Hc, Hd. split; reflexivity.
    + injection H as <- <-. split; reflexivity.
Qed.

Lemma span_digits_app d : forall s,
  all_digits d = true -> starts_nondigit s = true -> span_digits (d +:+ s) = (d, s).
Proof.
  induction d as [| c d IH]; intros s Hd Hs.
  - rewrite append_nil. destruct s as [| c s]; [reflexivity |]. simpl in *.
    destruct (is_digit c); [discriminate | reflexivity].
  - rewrite append_cons. simpl in *.
    apply andb_true_iff in Hd as [Hc Hd]. rewrite Hc, IH by assumption. reflexivity.
Qed.

Lemma digits1_app d s :
  numeral d = true -> starts_nondigit s = true -> digits1 (d +:+ s) = Some (d, s).
Proof.
  intros Hd Hs. unfold digits1. destruct d as [| c d]; [discriminate |].
  rewrite span_digits_app by assumption. reflexivity.
Qed.

Lemma digits1_inv s d r : digits1 s = Some (d, r) -> s = d +:+ r /\ numeral d = true.
Proof.
  unfold digits1. destruct (span_digits s) as [d' r'] eqn:E.
  destruct d' as [| c d']; [discriminate |]. intros [= <- <-].
  apply span_digits_inv in E as [-> Hd]. split; [reflexivity | exact Hd].
Qed.

Lemma match_here_done_line x y z post :
  numeral x = true -> numeral y = true -> numeral z = true ->
  match_here (done_line x y z +:+ post) = Some (x, y, z).
Proof.
  intros Hx Hy Hz. unfold match_here, done_line.
  rewrite !append_assoc, literal_app. cbn [mbind option_bind].
  rewrite digits1_app by (assumption || reflexivity). cbn [mbind option_bind].
  rewrite literal_app. cbn [mbind option_bind].
  rewrite digits1_app by (assumption || reflexivity). cbn [mbind option_bind].
  rewrite literal_app. cbn [mbind option_bind].
  rewrite digits1_app by (assumption || reflexivity). cbn [mbind option_bind].
  rewrite literal_app. reflexivity.
Qed.

Lemma match_here_inv s x y z :
  match_here s = Some (x, y, z) ->
  exists post, s = done_line x y z +:+ post /\
               numeral x = true /\ numeral y = true /\ numeral z = true.
Proof.
  unfold match_here. intros H.
  destruct (literal "Done, " s) as [s1 |] eqn:E1; [| discriminate].
  cbn [mbind option_bind] in H.
  destruct (digits1 s1) as [[x' s2] |] eqn:E2; [| discriminate].
  cbn [mbind option_bind] in H.
  destruct (literal "/" s2) as [s3 |] eqn:E3; [| discriminate].
  cbn [mbind option_bind] in H.
  destruct (digits1 s3) as [[y' s4] |] eqn:E4; [| discriminate].
  cbn [mbind option_bind] in H.
  destruct (literal " extracted, " s4) as [s5 |] eqn:E5; [| discriminate].
  cbn [mbind option_bind] in H.
  destruct (digits1 s5) as [[z' s6] |] eqn:E6; [| discriminate].
  cbn [mbind option_bind] in H.
  destruct (literal " missed" s6) as [s7 |] eqn:E7; [| discriminate].
  cbn [mbind option_bind] in H. injection H as <- <- <-.
  apply literal_inv in E1, E3, E5, E7.
  apply digits1_inv in E2 as [E2 Hx], E4 as [E4 Hy], E6 as [E6 Hz].
  exists s7. subst. unfold done_line. rewrite !append_assoc. auto.
Qed.

Lemma includes_app sub pre post : includes sub (pre +:+ sub +:+ post) = true.
Proof.
  induction pre as [| c pre IH].
  - rewrite append_nil. pose proof (literal_app sub post) as H.
    destruct (sub +:+ post); cbn [includes]; rewrite H; reflexivity.
  - rewrite append_cons. cbn [includes].
    destruct (literal sub (String c (pre +:+ sub +:+ post))); [reflexivity | exact IH].
Qed.

Lemma literal_straddle c l : forall u t,
  lacks c l = true -> literal l u = None -> literal l (u +:+ String c t) = None.
Proof.
  induction l as [| a l IH]; intros u t Hl Hu; [discriminate |].
  simpl in Hl. apply andb_true_iff in Hl as [Ha Hl].
  destruct u as [| b u].
  - rewrite append_nil. simpl. apply negb_true_iff in Ha. rewrite Ha. reflexivity.
  - rewrite append_cons. simpl in *.
    destruct (Ascii.eqb a b); [apply IH; assumption | reflexivity].
Qed.

(** No match starts inside a prefix without [Done, ]: a match cannot
    straddle the start of the next D. *)
Lemma literal_Done_straddle u t :
  u <> EmptyString -> literal "Done, " u = None ->
  literal "Done, " (u +:+ String char_D t) = None.
Proof.
  intros Hne Hu. destruct u as [| b u]; [contradiction |].
  rewrite append_cons.
  change "Done, " with (String char_D "one, ") in *.
  rewrite literal_cons in *.
  destruct (Ascii.eqb char_D b); [| reflexivity].
  apply literal_straddle; [reflexivity | exact Hu].
Qed.

Lemma match_here_no_Done s : literal "Done, " s = None -> match_here s = None.
Proof. intros H. unfold match_here. rewrite H. reflexivity. Qed.

Lemma regex_match_skip pre t :
  includes "Done, " pre = false ->
  regex_match (pre +:+ String char_D t) = regex_match (String char_D t).
Proof.
  induction pre as [| c pre IH]; intros H; [reflexivity |].
  cbn [includes] in H.
  destruct (literal "Done, " (String c pre)) eqn:E; [discriminate |].
  rewrite append_cons. cbn [regex_match]. rewrite <- append_cons.
  rewrite match_here_no_Done by (apply literal_Done_straddle; [discriminate | exact E]).
  apply IH. exact H.
Qed.

(** A match is a text of the pattern, somewhere in the string. *)
Lemma regex_match_inv s : forall x y z,
  regex_match s = Some (x, y, z) ->
  exists pre post, s = pre +:+ done_line x y z +:+ post /\
                   numeral x = true /\ numeral y = true /\ numeral z = true.
Proof.
  induction s as [| c s IH]; intros x y z H; cbn [regex_match] in H.
  - destruct (match_here "") as [m |] eqn:E; [| discriminate].
    injection H as ->. apply match_here_inv in E as (post & -> & Hn).
    exists "", post. rewrite append_nil. auto.
  - destruct (match_here (String c s)) as [m |] eqn:E.
    + injection H as ->. apply match_here_inv in E as (post & -> & Hn).
      exists "", post. rewrite append_nil. auto.
    + apply IH in H as (pre & post & -> & Hn).
      exists (String c pre), post. rewrite append_cons. auto.
Qed.

(** The leftmost text of the pattern is the match. *)
Lemma regex_match_done_line pre x y z post :
  numeral x = true -> numeral y = true -> numeral z = true ->
  includes "Done, " pre = false ->
  regex_match (pre +:+ done_line x y z +:+ post) = Some (x, y, z).
Proof.
  intros Hx Hy Hz Hpre.
  assert (E : done_line x y z +:+ post
              = String char_D ("one, " +:+ x +:+ "/" +:+ y +:+ " extracted, " +:+ z
                            +:+ " missed" +:+ post)).
  { unfold done_line. rewrite !append_assoc. reflexivity. }
  rewrite E, regex_match_skip by exact Hpre. rewrite <- E.
  rewrite E at 1. cbn [regex_match]. rewrite <- E.
  rewrite match_here_done_line by assumption. reflexivity.
Qed.

Lemma regex_match_none output : no_done_line output -> regex_match output = None.
Proof.
  intros H. destruct (regex_match output) as [[[x y] z] |] eqn:E; [| reflexivity].
  apply regex_match_inv in E as (pre & post & -> & Hx & Hy & Hz).
  exfalso. exact (H pre x y z post Hx Hy Hz eq_refl).
Qed.

Lemma includes_Done_of_line pre x y z post :
  includes "Done," (pre +:+ done_line x y z +:+ post) = true.
Proof.
  replace (done_line x y z +:+ post)
    with ("Done," +:+ (" " +:+ x +:+ "/" +:+ y +:+ " extracted, " +:+ z +:+ " missed" +:+ post)).
  - apply includes_app.
  - unfold done_line. rewrite !append_assoc. reflexivity.
Qed.

(** ** The leftmost match *)

Lemma length_append (a b : string) :
  String.length (a +:+ b) = (String.length a + String.length b)%nat.
Proof. induction a as [| c a IH]; [reflexivity |]. rewrite append_cons. cbn. lia. Qed.

(** Two ways of cutting one text: the shorter first part is a prefix of the
    longer one. *)
Lemma append_split (a : string) : forall a' b b',
  a +:+ b = a' +:+ b' -> (String.length a <= String.length a')%nat ->
  exists q, a' = a +:+ q /\ b = q +:+ b'.
Proof.
  induction a as [| c a IH]; intros a' b b' H Hlen.
  - exists a'. rewrite !append_nil in *. split; [reflexivity | exact H].
  - destruct a' as [| c' a']; [cbn in Hlen; lia |].
    rewrite !append_cons in H. injection H as <- H.
    destruct (IH a' b b' H ltac:(cbn in Hlen; lia)) as (q & -> & ->).
    exists q. split; reflexivity.
Qed.

(** What [regex_match] returns is the match at the first position where
    the pattern matches. *)
Lemma regex_match_first s : forall m,
  regex_match s = Some m ->
  exists pre rest, s = pre +:+ rest /\ match_here rest = Some m /\
    forall p q, pre = p +:+ q -> q <> EmptyString -> match_here (q +:+ rest) = None.
Proof.
  induction s as [| c s IH]; intros m H; cbn [regex_match] in H.
  - destruct (match_here "") as [m' |] eqn:E; [| discriminate].
    injection H as ->. exists "", "". split; [reflexivity |]. split; [exact E |].
    intros p q Hpq Hq. destruct p, q; first [discriminate | contradiction].
  - destruct (match_here (String c s)) as [m' |] eqn:E.
    + injection H as ->. exists "", (String c s). split; [reflexivity |].
      split; [exact E |]. intros p q Hpq Hq. destruct p, q; first [discriminate | contradiction].
    + destruct (IH m H) as (pre & rest & -> & Hm & Hfirst).
      exists (String c pre), rest. split; [reflexivity |]. split; [exact Hm |].
      intros p q Hpq Hq. destruct p as [| c' p].
      * rewrite append_nil in Hpq. subst q. rewrite append_cons. exact E.
      * rewrite append_cons in Hpq. injection Hpq as _ Hpq. exact (Hfirst p q Hpq Hq).
Qed.

Lemma regex_match_is_Some pre : forall rest m,
  match_here rest = Some m -> is_Some (regex_match (pre +:+ rest)).
Proof.
  induction pre as [| c pre IH]; intros rest m H.
  - rewrite append_nil. destruct rest; cbn [regex_match]; rewrite H; eauto.
  - rewrite append_cons. cbn [regex_match].
    destruct (match_here (String c (pre +:+ rest))); [eauto | exact (IH rest m H)].
Qed.

Lemma regex_match_first_done_line output pre x y z post :
  first_done_line output pre x y z post -> regex_match output = Some (x, y, z).
Proof.
  intros (Hx & Hy & Hz & Hout & Hfirst).
  pose proof (match_here_done_line x y z post Hx Hy Hz) as Hhere.
  destruct (regex_match_is_Some pre _ _ Hhere) as [[[x' y'] z'] Hm].
  rewrite <- Hout in Hm. rewrite Hm.
  destruct (regex_match_first _ _ Hm) as (pre' & rest' & Hcut & Hm' & Hnone).
  destruct (match_here_inv _ _ _ _ Hm') as (post' & Hrest' & Hx' & Hy' & Hz').
  assert (Hle : (String.length pre <= String.length pre')%nat).
  { apply (Hfirst pre' x' y' z' post' Hx' Hy' Hz'). rewrite Hcut, Hrest'. reflexivity. }
  rewrite Hout in Hcut.
  destruct (append_split _ _ _ _ Hcut Hle) as (q & Hpre' & Hline).
  destruct q as [| c q].
  - rewrite append_nil in Hline. rewrite <- Hline, Hhere in Hm'. exact (eq_sym Hm').
  - exfalso. specialize (Hnone pre (String c q) Hpre' ltac:(discriminate)).
    rewrite <- Hline, Hhere in Hnone. discriminate.
Qed.

(** The match found is the first text of the pattern. *)
Lemma first_done_line_of_match output x y z :
  regex_match output = Some (x, y, z) ->
  exists pre post, first_done_line output pre x y z post.
Proof.
  intros Hm. destruct (regex_match_first _ _ Hm) as (pre & rest & Hcut & Hhere & Hnone).
  destruct (match_here_inv _ _ _ _ Hhere) as (post & Hrest & Hx & Hy & Hz).
  exists pre, post. split; [exact Hx |]. split; [exact Hy |]. split; [exact Hz |].
  split; [rewrite Hcut, Hrest; reflexivity |].
  intros pre' x' y' z' post' Hx' Hy' Hz' Hout'.
  destruct (le_lt_dec (String.length pre) (String.length pre')) as [Hle | Hlt];
    [exact Hle | exfalso].
  rewrite Hcut in Hout'. symmetry in Hout'.
  destruct (append_split _ _ _ _ Hout' ltac:(lia)) as (q & Hpre & Hline).
  destruct q as [| c q].
  - rewrite Hpre in Hlt. rewrite length_append in Hlt. cbn in Hlt. lia.
  - specialize (Hnone pre' (String c q) Hpre ltac:(discriminate)).
    rewrite <- Hline, match_here_done_line in Hnone by assumption. discriminate.
Qed.

(** Every output has a first text of the pattern, or none at all. *)
Lemma first_done_line_or_none output :
  (exists pre x y z post, first_done_line output pre x y z post) \/ no_done_line output.
Proof.
  destruct (regex_match output) as [[[x y] z] |] eqn:Hm.
  - left. destruct (first_done_line_of_match _ _ _ _ Hm) as (pre & post & H).
    exists pre, x, y, z, post. exact H.
  - right. intros pre x y z post Hx Hy Hz Hout.
    destruct (regex_match_is_Some pre _ _ (match_here_done_line x y z post Hx Hy Hz))
      as [m Hm'].
    rewrite <- Hout, Hm in Hm'. discriminate.
Qed.

(** Claim C7, as the code has it.  The operation throws exactly when the
    exit code is non-zero and the output lacks the sentinel.  Otherwise the
    first text of the form [Done, X/Y extracted, Z missed] in the output,
    wherever it stands and whatever precedes it, is reported as
    [{extracted: X, total: Y, missed: Z}], each count as [parseInt] gives
    it; when the output holds no such text the result is
    [{extracted: 0, total: n, missed: n}] for [n] requested patterns.
    Every output falls under one of the cases. *)
Theorem extraction_outcome patterns stdout outputBuffer exitCode :
  let output := stdout +:+ newline +:+ outputBuffer in
  ((exists message, extractBundledFiles patterns stdout outputBuffer exitCode = Thrown message)
   <-> exitCode <> 0 /\ includes "Done," output = false)
  /\ (forall pre x y z post,
        first_done_line output pre x y z post ->
        extractBundledFiles patterns stdout outputBuffer exitCode
        = Returned {| extracted := parseInt x; total := parseInt y; missed := parseInt z |})
  /\ (exitCode = 0 \/ includes "Done," output = true ->
      no_done_line output ->
      extractBundledFiles patterns stdout outputBuffer exitCode
      = Returned {| extracted := Finite 0;
                    total := Finite (Z.of_nat (length patterns));
                    missed := Finite (Z.of_nat (length patterns)) |})
  /\ ((exists pre x y z post, first_done_line output pre x y z post) \/ no_done_line output).
Proof.
  intros output. unfold extractBundledFiles. fold output.
  split; [| split; [| split]].
  - destruct (Z.eqb_spec exitCode 0) as [He | He]; cbn [negb andb].
    + split.
      * intros [msg H]. destruct (regex_match output) as [[[x y] z] |]; discriminate.
      * intros [H _]. contradiction.
    + destruct (includes "Done," output); cbn [negb].
      * split.
        -- intros [msg H]. destruct (regex_match output) as [[[x y] z] |]; discriminate.
        -- intros [_ H]. discriminate.
      * split; [auto | eauto].
  - intros pre x y z post Hfirst.
    rewrite (regex_match_first_done_line _ _ _ _ _ _ Hfirst).
    destruct Hfirst as (_ & _ & _ & Hout & _).
    rewrite Hout, includes_Done_of_line, andb_false_r. reflexivity.
  - intros Hok Hnone.
    assert (negb (exitCode =? 0) && negb (includes "Done," output) = false) as ->.
    { destruct Hok as [-> | ->]; [reflexivity | apply andb_false_r]. }
    rewrite regex_match_none by exact Hnone. reflexivity.
  - apply first_done_line_or_none.
Qed.

(** Claim C7 fails when the utility exits with code 0 and prints nothing:
    the operation returns, and what it reports comes from no line of the
    output. *)
Lemma done_line_reported_counterexample :
  extractBundledFiles ["a"] "" "" 0
  = Returned {| extracted := Finite 0; total := Finite 1; missed := Finite 1 |}
  /\ ~ (exists pre x y z post, "" +:+ newline +:+ "" = pre +:+ done_line x y z +:+ post).
Proof.
  split; [reflexivity |].
  intros (pre & x & y & z & post & H).
  pose proof (includes_Done_of_line pre x y z post) as Hin.
  rewrite <- H in Hin. vm_compute in Hin. discriminate.
Qed.

(** A run that reports 12 of 15 files after an unfinished [Done, ] text, and
    a run that prints no summary. *)
Lemma extraction_outcome_witness :
  extractBundledFiles ["a"] "Done, nothing to do"
    ("Extracting: a" +:+ newline +:+ "Done, 12/15 extracted, 3 missed." +:+ newline) 0
  = Returned {| extracted := Finite 12; total := Finite 15; missed := Finite 3 |}
  /\ extractBundledFiles ["a"; "b"] "" "failed" 0
     = Returned {| extracted := Finite 0; total := Finite 2; missed := Finite 2 |}.
Proof.
  split.
  - destruct (first_done_line_of_match
                ("Done, nothing to do" +:+ newline +:+ "Extracting: a" +:+ newline
                 +:+ "Done, 12/15 extracted, 3 missed." +:+ newline) "12" "15" "3" eq_refl)
      as (pre & post & Hfirst).
    exact (proj1 (proj2 (extraction_outcome ["a"] "Done, nothing to do"
                           ("Extracting: a" +:+ newline
                            +:+ "Done, 12/15 extracted, 3 missed." +:+ newline) 0))
             pre "12" "15" "3" post Hfirst).
  - apply (proj1 (proj2 (proj2 (extraction_outcome ["a"; "b"] "" "failed" 0)))).
    + left. reflexivity.
    + intros pre x y z post _ _ _ H.
      pose proof (includes_Done_of_line pre x y z post) as Hin.
      rewrite <- H in Hin. vm_compute in Hin. discriminate.
Defined.

(** A numeral of 309 digits is reported as Infinity. *)
Example parseInt_overflow :
  parseInt (String.string_of_list_ascii (replicate 309 (Ascii.ascii_of_nat 57))) = Infinity /\
  parseInt "9007199254740993" = Finite 9007199254740992.
Proof. split; vm_compute; reflexivity. Qed.

End BundleProofs.

(* ===================================================================== *)
(** * The parallel decode driver: proofs *)
(* ===================================================================== *)

Module ParallelProofs.
Import Parallel.

(** [Math_ceil_div a b] is the least [q] with [a <= q * b]. *)
Lemma Math_ceil_div_spec a b :
  0 < b -> (Math_ceil_div a b - 1) * b < a <= Math_ceil_div a b * b.
Proof.
  intros Hb. unfold Math_ceil_div.
  pose proof (Z.div_mod (- a) b ltac:(lia)).
  pose proof (Z.mod_pos_bound (- a) b Hb). nia.
Qed.

Lemma Math_ceil_div_unique a b q :
  0 < b -> (q - 1) * b < a <= q * b -> Math_ceil_div a b = q.
Proof.
  intros Hb Hq. pose proof (Math_ceil_div_spec a b Hb). nia.
Qed.

Section Batches.
Context {T : Type}.
Implicit Types (tasks : list T) (bs : list (list T)).

(** Inside the array a slice is a [take] of a [drop]. *)
Lemma Array_slice_chunk tasks i s :
  0 <= i -> 0 < s -> i < Z.of_nat (length tasks) ->
  Array_slice tasks i (i + s) = take (Z.to_nat s) (drop (Z.to_nat i) tasks).
Proof.
  intros Hi Hs Hlt. unfold Array_slice. cbv zeta beta.
  destruct (Z.ltb_spec (i + s) 0); [lia |].
  destruct (Z.ltb_spec i 0); [lia |].
  rewrite (Z.min_l i) by lia.
  destruct (Z.le_ge_cases (i + s) (Z.of_nat (length tasks))).
  - rewrite Z.min_l by lia. f_equal. lia.
  - rewrite Z.min_r by lia.
    rewrite !take_ge; [reflexivity | |]; rewrite length_drop; lia.
Qed.

(** With a positive batch size the loop ends within [fuel] iterations and
    cuts the tasks from [i] on into chunks. *)
Lemma batch_loop_chunks tasks s : 0 < s -> forall fuel i,
  0 <= i -> Z.max (Z.of_nat (length tasks) - i) 0 < Z.of_nat fuel ->
  exists bs, batch_loop tasks s fuel i = Some bs /\ chunks_ok tasks s i bs.
Proof.
  intros Hs. induction fuel as [| fuel IH]; intros i Hi Hf.
  - lia.
  - cbn [batch_loop]. destruct (Z.ltb_spec i (Z.of_nat (length tasks))) as [Hlt | Hge].
    + destruct (IH (i + s)) as (rest & -> & Hc & Hn & Hall); [lia | lia |].
      cbn [mbind option_bind]. eexists. split; [reflexivity |].
      rewrite Array_slice_chunk by assumption.
      split; [| split].
      * cbn [concat]. rewrite Hc.
        replace (Z.to_nat (i + s)) with (Z.to_nat i + Z.to_nat s)%nat by lia.
        rewrite <- drop_drop. apply take_drop.
      * cbn [length]. rewrite Nat2Z.inj_succ, Hn. symmetry.
        apply Math_ceil_div_unique; [assumption |].
        pose proof (Math_ceil_div_spec (Z.max (Z.of_nat (length tasks) - (i + s)) 0) s Hs)
          as Hq.
        rewrite (Z.max_l (Z.of_nat (length tasks) - i) 0) by lia.
        destruct (Z.le_ge_cases 0 (Z.of_nat (length tasks) - (i + s))) as [Hm | Hm].
        -- rewrite Z.max_l in * by lia.
           generalize dependent (Math_ceil_div (Z.of_nat (length tasks) - (i + s)) s).
           intros q _ Hq. nia.
        -- rewrite Z.max_r in * by lia.
           generalize dependent (Math_ceil_div 0 s).
           intros q _ Hq. assert (q = 0) as -> by nia. lia.
      * assert (Hlen : Z.of_nat (length (take (Z.to_nat s) (drop (Z.to_nat i) tasks)))
                       = Z.min s (Z.of_nat (length tasks) - i)).
        { rewrite length_take, length_drop. lia. }
        intros [| j] b Hb; cbn [lookup list_lookup] in Hb.
        -- injection Hb as <-. rewrite Hlen. split; [lia |].
           cbn [length]. intros Hmore.
           assert (Hrest : 0 < Z.of_nat (length rest)) by lia.
           rewrite Hn in Hrest.
           pose proof (Math_ceil_div_spec (Z.max (Z.of_nat (length tasks) - (i + s)) 0) s Hs)
             as Hq.
           destruct (Z.lt_ge_cases 0 (Z.of_nat (length tasks) - (i + s))) as [Hm | Hm];
             [lia |].
           rewrite Z.max_r in Hq, Hrest by lia.
           generalize dependent (Math_ceil_div 0 s). intros q Hq Hrest.
           assert (q = 0) by nia. lia.
        -- destruct (Hall j b Hb) as [H1 H2]. split; [exact H1 |].
           cbn [length]. intros Hmore. apply H2. lia.
    + exists []. split; [reflexivity |]. split; [| split].
      * rewrite drop_ge by lia. reflexivity.
      * rewrite Z.max_r by lia. reflexivity.
      * intros j b Hb. discriminate.
Qed.

Lemma runWorkerBatches_tasks bs : worker_tasks <$> runWorkerBatches bs = bs.
Proof.
  unfold runWorkerBatches. apply list_eq. intros j.
  rewrite list_lookup_fmap, list_lookup_imap. destruct (bs !! j); reflexivity.
Qed.

Lemma runWorkerBatches_ids bs : worker_id <$> runWorkerBatches bs = seq 0 (length bs).
Proof.
  unfold runWorkerBatches. apply list_eq. intros j.
  rewrite list_lookup_fmap, list_lookup_imap.
  destruct (bs !! j) as [b |] eqn:E; cbn [fmap option_fmap option_map].
  - apply lookup_lt_Some in E. rewrite lookup_seq_lt by assumption. reflexivity.
  - apply lookup_ge_None in E. rewrite lookup_seq_ge by assumption. reflexivity.
Qed.

(** Claim C8, as the code has it.  For [N >= 1] tasks and concurrency
    [c >= 1], with [w = min(c, N)] and batch size [s = ceil(N / w)], the
    loop ends and yields [ceil(N / s)] batches, at most [w], whose
    concatenation is the task list; every batch has [s] tasks except
    possibly a smaller, non-empty last one, and each batch gets a worker
    of its own. *)
Theorem batches_partition tasks c cpus fuel :
  let N := Z.of_nat (length tasks) in
  1 <= N -> 1 <= c -> N < Z.of_nat fuel ->
  let w := Z.min c N in
  let s := Math_ceil_div N w in
  exists bs,
    make_batches (Some c) cpus tasks fuel = Some bs /\
    concat bs = tasks /\
    Z.of_nat (length bs) = Math_ceil_div N s /\
    Z.of_nat (length bs) <= w /\
    (forall (j : nat) b, bs !! j = Some b ->
       1 <= Z.of_nat (length b) <= s /\
       ((S j < length bs)%nat -> Z.of_nat (length b) = s)) /\
    worker_tasks <$> runWorkerBatches bs = bs /\
    worker_id <$> runWorkerBatches bs = seq 0 (length bs).
Proof.
  intros N HN Hc Hfuel w s.
  assert (Hw : 1 <= w) by (unfold w; lia).
  pose proof (Math_ceil_div_spec N w ltac:(lia)) as Hs. fold s in Hs.
  assert (Hs1 : 1 <= s) by nia.
  destruct (batch_loop_chunks tasks s ltac:(lia) fuel 0 ltac:(lia))
    as (bs & Hbs & Hcat & Hlen & Hall); [fold N; lia |].
  exists bs. split; [| split; [| split; [| split; [| split; [| split]]]]].
  - unfold make_batches. fold N.
    destruct (Z.eqb_spec N 0); [lia |].
    unfold numWorkers_of. destruct (Z.eqb_spec c 0); [lia |]. exact Hbs.
  - rewrite Hcat. reflexivity.
  - rewrite Hlen. fold N. rewrite Z.sub_0_r, Z.max_l by lia. reflexivity.
  - rewrite Hlen. fold N. rewrite Z.sub_0_r, Z.max_l by lia.
    pose proof (Math_ceil_div_spec N s ltac:(lia)) as Hq.
    generalize dependent (Math_ceil_div N s). intros q Hq.
    destruct (Z.le_gt_cases q w) as [Hle | Hgt]; [exact Hle | exfalso].
    assert (w * s <= (q - 1) * s) by (apply Z.mul_le_mono_nonneg_r; lia).
    lia.
  - exact Hall.
  - apply runWorkerBatches_tasks.
  - apply runWorkerBatches_ids.
Qed.

End Batches.

(** Claim C8 fails for 5 tasks and concurrency 4: there are 3 batches, not
    [min(4, 5) = 4]. *)
Lemma batch_count_counterexample :
  make_batches (Some 4) 8 [1; 2; 3; 4; 5] 6 = Some [[1; 2]; [3; 4]; [5]] /\
  Z.of_nat (length [[1; 2]; [3; 4]; [5]]) <> Z.min 4 (Z.of_nat (length [1; 2; 3; 4; 5])).
Proof. split; [reflexivity | vm_compute; discriminate]. Qed.

(** Five tasks, concurrency 4. *)
Lemma batches_partition_witness :
  exists bs, make_batches (Some 4) 8 [1; 2; 3; 4; 5] 6 = Some bs /\
             concat bs = [1; 2; 3; 4; 5] /\ Z.of_nat (length bs) = 3.
Proof.
  destruct (batches_partition [1; 2; 3; 4; 5] 4 8 6 ltac:(simpl; lia) ltac:(lia)
              ltac:(simpl; lia)) as (bs & Hbs & Hcat & Hlen & _).
  exists bs. split; [exact Hbs |]. split; [exact Hcat |]. exact Hlen.
Defined.
End ParallelProofs.

(* ===================================================================== *)
(** * The extraction pipeline: proofs *)
(* ===================================================================== *)

Module PipelineProofs.
Import Js Dat Pipeline JsFacts DatProofs.

Section Run.
Variable basename : string -> string.
Variable JSON_stringify : ParseResult -> Buffer.
Variable can_write : string -> bool.
Variable can_unlink : string -> bool.

Local Abbreviation process := (process_data_file basename JSON_stringify can_write can_unlink).
Local Abbreviation run := (parse_data_files basename JSON_stringify can_write can_unlink).

(** Every file is counted exactly once, as parsed or as failed. *)
Lemma process_counts parser st file :
  parsed (process parser st file) + failed (process parser st file)
  = parsed st + failed st + 1.
Proof.
  unfold process_data_file, count_failed.
  repeat match goal with
         | |- context [match ?x with _ => _ end] => destruct x
         end; cbn [parsed failed]; lia.
Qed.

Lemma loop_counts parser datFiles : forall st,
  parsed (foldl (process parser) st datFiles) + failed (foldl (process parser) st datFiles)
  = parsed st + failed st + Z.of_nat (length datFiles).
Proof.
  induction datFiles as [| file datFiles IH]; intros st; cbn [foldl length].
  - lia.
  - rewrite IH, process_counts. lia.
Qed.

Lemma length_substring_0 : forall (s : string) (k : nat),
  (k <= String.length s)%nat -> String.length (String.substring 0 k s) = k.
Proof.
  induction s as [| c s IH]; intros [| k] Hk; cbn in *; try reflexivity; try lia.
  rewrite IH by lia. reflexivity.
Qed.

(** The text with a replaced suffix is two characters shorter than the
    name: the path written is the file itself exactly when the name has
    neither suffix. *)
Lemma replace_dat_suffix_same file :
  replace_dat_suffix file ".json" = file <->
  ends_with_ci ".datc64" file = false /\ ends_with_ci ".dat64" file = false.
Proof.
  unfold replace_dat_suffix.
  destruct (ends_with_ci ".datc64" file) eqn:E1.
  - split; [| intros [H _]; discriminate]. intros H. exfalso.
    apply (f_equal String.length) in H.
    unfold ends_with_ci in E1. apply andb_true_iff in E1 as [E1 _].
    apply Nat.leb_le in E1. cbn [String.length] in E1.
    rewrite BundleProofs.length_append, length_substring_0 in H by lia. cbn in H. lia.
  - destruct (ends_with_ci ".dat64" file) eqn:E2.
    + split; [| intros [_ H]; discriminate]. intros H. exfalso.
      apply (f_equal String.length) in H.
      unfold ends_with_ci in E2. apply andb_true_iff in E2 as [E2 _].
      apply Nat.leb_le in E2. cbn [String.length] in E2.
      rewrite BundleProofs.length_append, length_substring_0 in H by lia. cbn in H. lia.
    + split; [auto | reflexivity].
Qed.

(** Claim C9, as the code has it.  A file counts as failed, and nothing is
    written or removed, when there is no parser (the schema is missing or
    unreadable), when the file cannot be read, when it decodes to no row,
    or when the JSON text cannot be written.  Otherwise the decoding
    returns a result with at least one row, the JSON text is written to
    the path with the suffix replaced, the binary is unlinked (a failure to
    unlink is ignored) and the file counts as parsed.  The path written is
    another file exactly when the name ends in [.datc64] or [.dat64]; for
    any other name it is the binary itself, which the unlink then removes
    together with the text.  Every file counts once, as parsed or as
    failed, and the loop runs over all of them. *)
Theorem table_file_post_processing parser st file :
  let tableName := toLowerCase (replace_dat_suffix (basename file) "") in
  let jsonPath := replace_dat_suffix file ".json" in
  let st' := process parser st file in
  (parser = None -> st' = count_failed st)
  /\ (files st !! file = None -> st' = count_failed st)
  /\ (forall p buffer,
        parser = Some p -> files st !! file = Some buffer ->
        exists result,
          parse p buffer tableName = Some result /\
          (rows result = [] -> st' = count_failed st) /\
          (can_write jsonPath = false -> st' = count_failed st) /\
          (rows result <> [] -> can_write jsonPath = true ->
             parsed st' = parsed st + 1 /\ failed st' = failed st /\
             files st'
             = (if can_unlink file then delete file else fun m => m)
                 (<[jsonPath := JSON_stringify result]> (files st)) /\
             (jsonPath <> file -> files st' !! jsonPath = Some (JSON_stringify result)) /\
             (can_unlink file = true -> files st' !! file = None)))
  /\ (jsonPath = file <->
      ends_with_ci ".datc64" file = false /\ ends_with_ci ".dat64" file = false)
  /\ (forall parseDatFiles schema extracted datFiles st0,
        let final := run parseDatFiles schema extracted datFiles st0 in
        parsed final + failed final
        = parsed st0 + failed st0
          + (if Bundle.is_positive extracted && parseDatFiles
             then Z.of_nat (length datFiles) else 0)).
Proof.
  intros tableName jsonPath st'. subst st'.
  split; [| split; [| split; [| split]]].
  - intros ->. reflexivity.
  - intros Hnone. unfold process_data_file. rewrite Hnone.
    destruct parser; reflexivity.
  - intros p buffer -> Hfile.
    destruct (parse_total p buffer tableName) as [result Hparse].
    exists result. split; [exact Hparse |].
    unfold process_data_file. fold tableName jsonPath. rewrite Hfile, Hparse.
    split; [| split].
    + intros ->. reflexivity.
    + intros Hw. rewrite Hw. destruct (0 <? length (rows result))%nat; reflexivity.
    + intros Hrows Hw. destruct (rows result) as [| row rest] eqn:E; [contradiction |].
      cbn [length Nat.ltb Nat.leb]. rewrite Hw. cbn [parsed failed files].
      split; [reflexivity |]. split; [reflexivity |]. split; [| split].
      * destruct (can_unlink file); reflexivity.
      * intros Hne. destruct (can_unlink file).
        -- rewrite lookup_delete_ne by congruence. apply lookup_insert_eq.
        -- apply lookup_insert_eq.
      * intros ->. apply lookup_delete_eq.
  - apply replace_dat_suffix_same.
  - intros parseDatFiles schema extracted datFiles st0. cbv zeta.
    unfold parse_data_files.
    destruct (Bundle.is_positive extracted && parseDatFiles); cbn [andb]; [| lia].
    destruct datFiles as [| f fs]; [cbn; lia |].
    cbn [length Nat.ltb Nat.leb]. rewrite loop_counts. cbn [length]. lia.
Qed.

End Run.

(** Claim C9 fails for a table file with [row_count = 0]: it decodes with
    no error, yet no JSON is written, the binary stays, and the file counts
    as failed. *)
Lemma empty_table_not_written_counterexample :
  parse p3 (bytes [0; 0; 0; 0]) "foo" = Some (mkResult [] 0 None) /\
  let final := parse_data_files posix_basename json_stub (fun _ => true) (fun _ => true)
                 true (Some (mkSchema 1 0 [t3])) (Bundle.Finite 1) ["data/Foo.datc64"]
                 st_empty_table in
  files final !! "data/Foo.json" = None /\
  files final !! "data/Foo.datc64" = Some (bytes [0; 0; 0; 0]) /\
  parsed final = 0 /\ failed final = 1.
Proof. vm_compute. repeat split. Qed.

(** The table of S3 is written as JSON and its binary removed; without a
    parser the file counts as failed and stays. *)
Lemma table_file_post_processing_witness :
  (exists r,
     parse p3 b3 "foo" = Some r /\
     let st' := process_data_file posix_basename json_stub (fun _ => true) (fun _ => true)
                  (Some p3) st_table "data/Foo.datc64" in
     parsed st' = 1 /\ failed st' = 0 /\
     files st' !! "data/Foo.json" = Some (json_stub r) /\
     files st' !! "data/Foo.datc64" = None)
  /\ process_data_file posix_basename json_stub (fun _ => true) (fun _ => true)
       None st_table "data/Foo.datc64"
     = count_failed st_table.
Proof.
  pose proof (table_file_post_processing posix_basename json_stub (fun _ => true)
                (fun _ => true)) as T.
  split.
  - destruct (proj1 (proj2 (proj2 (T (Some p3) st_table "data/Foo.datc64")))
                p3 b3 eq_refl ltac:(vm_compute; reflexivity))
      as (r & Hp & _ & _ & Hok).
    exists r. split; [exact Hp |].
    destruct Hok as (H1 & H2 & _ & H3 & H4).
    + vm_compute in Hp. injection Hp as <-. discriminate.
    + reflexivity.
    + cbv zeta. split; [exact H1 |]. split; [exact H2 |]. split.
      * exact (H3 ltac:(vm_compute; discriminate)).
      * exact (H4 eq_refl).
  - exact (proj1 (T None st_table "data/Foo.datc64") eq_refl).
Defined.

(** A file named [.dat] whose table is in the schema: the JSON text is
    written over the binary, and the unlink leaves neither. *)
Example dat_file_overwritten :
  let p := Some (mkSchema 1 0 [mkTable 2 "foo.dat" (columns t3)]) in
  let final := parse_data_files posix_basename json_stub (fun _ => true) (fun _ => true)
                 true p (Bundle.Finite 1) ["data/Foo.dat"]
                 (mkState {[ "data/Foo.dat" := b3 ]} 0 0) in
  replace_dat_suffix "data/Foo.dat" ".json" = "data/Foo.dat" /\
  files final = ∅ /\ parsed final = 1 /\ failed final = 0.
Proof. vm_compute. repeat split. Qed.

End PipelineProofs.

(* ===================================================================== *)
(** * More on the table decoder *)
(* ===================================================================== *)

Module DatSpecProofs.
Import Js Dat DatSpec JsFacts DatProofs.

Lemma tableMap_fold isPOE2 (name : string) tables : forall (m : gmap string SchemaTable),
  foldl (fun (m : gmap string SchemaTable) table =>
           let validForPOE2 := negb (Z.land (validFor table) 2 =? 0) in
           let validForPOE1 := negb (Z.land (validFor table) 1 =? 0) in
           if (isPOE2 && validForPOE2) || (negb isPOE2 && validForPOE1)
           then <[toLowerCase (tbl_name table) := table]> m
           else m) m tables !! toLowerCase name
  = match last (filter (table_matches isPOE2 name) tables) with
    | Some t => Some t
    | None => m !! toLowerCase name
    end.
Proof.
  induction tables as [| t tables IH]; intros m; [reflexivity |].
  cbn [foldl]. rewrite IH. cbv zeta.
  assert (Hv : (isPOE2 && negb (Z.land (validFor t) 2 =? 0)
                || negb isPOE2 && negb (Z.land (validFor t) 1 =? 0)) = valid_for isPOE2 t).
  { unfold valid_for. destruct isPOE2; simpl; [apply orb_false_r | reflexivity]. }
  rewrite Hv. rewrite filter_cons.
  destruct (decide (table_matches isPOE2 name t)) as [[Hvalid Hn] | Hno].
  - rewrite Hvalid, last_cons.
    destruct (last (filter _ tables)); [reflexivity |].
    rewrite <- Hn. apply lookup_insert_eq.
  - destruct (last (filter _ tables)); [reflexivity |].
    destruct (valid_for isPOE2 t) eqn:Hvalid; [| reflexivity].
    apply lookup_insert_ne. intros Hn. apply Hno. split; [exact Hvalid | exact Hn].
Qed.

(** X1: looking a table up ignores the case of its name and the tables that
    are not valid for the game version; when several valid tables share a
    name, the last one in the schema is the one returned. *)
Theorem getTableSchema_last_valid schema isPOE2 tableName :
  getTableSchema (new_DATParser schema isPOE2) tableName
  = last (filter (table_matches isPOE2 tableName) (tables schema)).
Proof.
  unfold getTableSchema, new_DATParser. cbn [tableMap].
  rewrite tableMap_fold. rewrite lookup_empty.
  destruct (last _); reflexivity.
Qed.

(** X2: a result that carries an error has no rows and a row count of 0, and
    parse reports no error exactly when the table is known, the buffer has
    its four count bytes, and either the count is 0 or the magic is found. *)
Theorem parse_error_carries_no_rows p buf tableName r :
  parse p buf tableName = Some r ->
  (error r <> None -> rows r = [] /\ rowCount r = 0) /\
  (error r = None <->
   exists table, getTableSchema p tableName = Some table /\ 4 <= buf_length buf /\
                 (readUInt32LE buf 0 = Some 0 \/ indexOf buf VARIABLE_DATA_MAGIC 4 <> -1)).
Proof.
  unfold parse. intros H.
  destruct (getTableSchema p tableName) as [table |] eqn:Ht.
  2: { injection H as <-. cbn. split; [auto |]. split; [discriminate |].
       intros (t & Hc & _). discriminate. }
  destruct (Z.ltb_spec (buf_length buf) 4) as [Hlen | Hlen].
  { injection H as <-. cbn. split; [auto |]. split; [discriminate |].
    intros (t & _ & Hc & _). lia. }
  destruct (readUInt32LE buf 0) as [rc |] eqn:Hrc; [| discriminate].
  cbn [mbind option_bind] in H.
  destruct (Z.eqb_spec rc 0) as [-> | Hnz].
  { injection H as <-. cbn. split; [intros []; reflexivity |].
    split; [| reflexivity]. intros _. exists table. auto. }
  destruct (Z.eqb_spec (indexOf buf VARIABLE_DATA_MAGIC 4) (-1)) as [Hm | Hm].
  { injection H as <-. cbn. split; [auto |]. split; [discriminate |].
    intros (t & _ & _ & [Hc | Hc]); [congruence | contradiction]. }
  destruct (parse_rows _ _ _ _ _ _ _ _) as [off rws]. injection H as <-. cbn.
  split; [intros []; reflexivity |]. split; [| reflexivity].
  intros _. exists table. auto.
Qed.

Lemma parse_error_carries_no_rows_witness :
  parse p5 (bytes (le_bytes 4 2 ++ le_bytes 8 7)) "t"
  = Some (mkResult [] 0 (Some "Magic bytes not found")).
Proof.
  destruct (parse p5 (bytes (le_bytes 4 2 ++ le_bytes 8 7)) "t") as [r |] eqn:Hp;
    [| vm_compute in Hp; discriminate].
  destruct (parse_error_carries_no_rows p5 _ "t" r Hp) as [Hrows _].
  destruct r as [rws rc err]. cbn in Hrows.
  assert (Herr : err = Some "Magic bytes not found").
  { vm_compute in Hp. injection Hp as _ _ <-. reflexivity. }
  destruct Hrows as [-> ->]; [rewrite Herr; discriminate |].
  rewrite Herr. reflexivity.
Defined.

Lemma calculateRowSize_sum_go cols : forall acc,
  foldl (fun size col =>
           if col_array col then size + 16
           else size + or8 (FIELD_SIZES (col_type col))) acc cols
  = acc + foldr (fun col s => nominal_size col + s) 0 cols.
Proof.
  induction cols as [| col cols IH]; intros acc; cbn [foldl foldr]; [lia |].
  rewrite IH. unfold nominal_size. destruct (col_array col); lia.
Qed.

Lemma nominal_size_pos col : 0 < nominal_size col.
Proof.
  unfold nominal_size, or8. destruct (col_array col); [lia |].
  destruct (col_type col); simpl; lia.
Qed.


Lemma column_read_advance buf offset vds col v n :
  scalar_array_type col = false ->
  (if col_array col then readArray buf offset vds (col_type col)
   else readField buf offset vds (col_type col)) = Some (v, n) ->
  n = nominal_size col.
Proof.
  unfold scalar_array_type, nominal_size. intros Hs H.
  destruct (col_array col).
  - destruct (readBigInt64LE buf offset) as [len64 |] eqn:H1;
      [| unfold readArray in H; rewrite H1 in H; discriminate].
    destruct (readBigInt64LE buf (offset + 8)) as [arrOff |] eqn:H2;
      [| unfold readArray in H; rewrite H1, H2 in H; discriminate].
    destruct (readArray_shape buf offset vds (col_type col) len64 arrOff H1 H2)
      as (l & Hl & _).
    rewrite Hl in H. injection H as _ <-. reflexivity.
  - cbn [negb andb] in Hs. apply bool_decide_eq_false in Hs.
    unfold readField in H.
    destruct (col_type col); try contradiction; cbn in H |- *;
      repeat match type of H with
             | context [mbind _ ?x] => destruct x; cbn in H
             | context [if ?c then _ else _] => destruct c
             end; congruence.
Qed.

Lemma parse_columns_dom_mono buf vds rowStart R (k : string) cols :
  forall colIdx offset (row : gmap string value),
  is_Some (row !! k) ->
  is_Some (snd (parse_columns buf vds rowStart R cols colIdx offset row) !! k).
Proof.
  induction cols as [| col cols IH]; intros colIdx offset row Hk; [exact Hk |].
  cbn [parse_columns]. destruct (rowStart + R <=? offset); [exact Hk |].
  match goal with
  | |- context [let '(v, bytesRead) := ?x in _] => destruct x as [v bytesRead]
  end.
  apply IH. destruct (decide (fieldName col colIdx = k)) as [<- | Hne].
  - rewrite lookup_insert_eq. eauto.
  - rewrite lookup_insert_ne by exact Hne. exact Hk.
Qed.

Lemma parse_columns_fit buf vds rowStart R cols :
  forallb (fun col => negb (scalar_array_type col)) cols = true ->
  forall colIdx offset (row : gmap string value),
  offset + foldr (fun col s => nominal_size col + s) 0 cols <= rowStart + R ->
  fst (parse_columns buf vds rowStart R cols colIdx offset row)
  = offset + foldr (fun col s => nominal_size col + s) 0 cols /\
  forall (j : nat) col, cols !! j = Some col ->
    is_Some (snd (parse_columns buf vds rowStart R cols colIdx offset row)
             !! fieldName col (colIdx + j)).
Proof.
  induction cols as [| col cols IH]; intros Hty colIdx offset row Hfit.
  - cbn. split; [lia |]. intros j c Hj. discriminate.
  - cbn [forallb] in Hty. apply andb_true_iff in Hty as [Hc Hty].
    apply negb_true_iff in Hc.
    cbn [foldr] in Hfit |- *. cbn [parse_columns].
    pose proof (nominal_size_pos col) as Hpos.
    assert (0 <= foldr (fun col s => nominal_size col + s) 0 cols).
    { clear. induction cols as [| c cs IHc]; cbn [foldr]; [lia |].
      pose proof (nominal_size_pos c). lia. }
    destruct (Z.leb_spec (rowStart + R) offset); [lia |].
    destruct (if col_array col
              then readArray buf offset vds (col_type col)
              else readField buf offset vds (col_type col)) as [[v n] |] eqn:E.
    + apply column_read_advance in E as ->; [| exact Hc].
      destruct (IH Hty (S colIdx) (offset + nominal_size col)
                  (<[fieldName col colIdx := v]> row) ltac:(lia)) as [Hfst Hdom].
      split; [rewrite Hfst; lia |].
      intros [| j] c Hj; cbn in Hj.
      * injection Hj as <-. rewrite Nat.add_0_r.
        apply parse_columns_dom_mono. rewrite lookup_insert_eq. eauto.
      * replace (colIdx + S j)%nat with (S colIdx + j)%nat by lia. apply Hdom. exact Hj.
    + fold (nominal_size col).
      destruct (IH Hty (S colIdx) (offset + nominal_size col)
                  (<[fieldName col colIdx := VNull]> row) ltac:(lia)) as [Hfst Hdom].
      split; [rewrite Hfst; lia |].
      intros [| j] c Hj; cbn in Hj.
      * injection Hj as <-. rewrite Nat.add_0_r.
        apply parse_columns_dom_mono. rewrite lookup_insert_eq. eauto.
      * replace (colIdx + S j)%nat with (S colIdx + j)%nat by lia. apply Hdom. exact Hj.
Qed.



(** For a scalar column of type array the cursor moves 8 bytes while the
    schema size counts 16. *)
Example scalar_array_column_advance :
  readField (bytes (le_bytes 8 5)) 0 0 TArray = Some (VStr (code_units "5"), 8) /\
  calculateRowSize (mkTable 2 "A" [mkColumn (Some "x") false TArray]) = 16.
Proof. split; vm_compute; reflexivity. Qed.

Lemma to_double_nonneg z : 0 <= z -> 0 <= to_double z.
Proof.
  intros Hz. destruct (Z.lt_ge_cases z (2 ^ 53)).
  - rewrite to_double_exact by lia. exact Hz.
  - pose proof (to_double_ge z). lia.
Qed.

Lemma scan_end_is_Some buf fuel : forall e, 0 <= e -> is_Some (scan_end buf fuel e).
Proof.
  induction fuel as [| fuel IH]; intros e He; cbn [scan_end]; [eauto |].
  destruct (Z.leb_spec (e + 4) (buf_length buf)); [| eauto].
  destruct (readUIntLE_is_Some buf e 4) as [v Hv]; [lia | lia |].
  unfold readUInt32LE. rewrite Hv. cbn [mbind option_bind].
  destruct (v =? 0); [eauto | apply IH; lia].
Qed.

Lemma readString_is_Some buf p : 0 <= p -> is_Some (readString buf p).
Proof.
  intros Hp. unfold readString. destruct (buf_length buf <=? p); [eauto |].
  destruct (scan_end_is_Some buf (S (length buf)) p Hp) as [e ->].
  cbn [mbind option_bind]. destruct (e =? p); eauto.
Qed.

Lemma readUIntLE_Some_iff buf off n :
  is_Some (readUIntLE buf off n) <-> 0 <= off /\ off + Z.of_nat n <= buf_length buf.
Proof.
  split.
  - intros [v Hv]. eapply readUIntLE_inv. exact Hv.
  - intros [H1 H2]. apply readUIntLE_is_Some; assumption.
Qed.

(** X4: readField throws exactly when the bytes of the field itself, 1, 2, 4
    or 8 of them by type, do not lie inside the buffer; a string whose text
    lies outside, and the second half of a foreign row, never make it throw. *)
Theorem readField_throws_iff_out_of_range buf offset vds type :
  0 <= vds ->
  (is_Some (readField buf offset vds type)
   <-> 0 <= offset /\ offset + read_width type <= buf_length buf).
Proof.
  intros Hvds.
  assert (Hopt : forall (n : nat) (w : Z) (f : Z -> option (value * Z)) (g : Z -> Z),
             w = Z.of_nat n -> (forall v, is_Some (f (g v))) ->
             (is_Some (mbind f (g <$> readUIntLE buf offset n))
              <-> 0 <= offset /\ offset + w <= buf_length buf)).
  { intros n w f g -> Hf. rewrite <- readUIntLE_Some_iff.
    destruct (readUIntLE buf offset n) as [v |]; cbn.
    - split; [eauto | intros _; apply Hf].
    - split; intros [x Hx]; discriminate. }
  assert (Hid : forall (n : nat) (w : Z) (f : Z -> option (value * Z)),
             w = Z.of_nat n -> (forall v, is_Some (f v)) ->
             (is_Some (mbind f (readUIntLE buf offset n))
              <-> 0 <= offset /\ offset + w <= buf_length buf)).
  { intros n w f -> Hf. rewrite <- readUIntLE_Some_iff.
    destruct (readUIntLE buf offset n) as [v |]; cbn.
    - split; [eauto | intros _; apply Hf].
    - split; intros [x Hx]; discriminate. }
  destruct type; unfold readField, read_width;
    unfold readUInt8, readUInt16LE, readUInt32LE, readInt16LE, readInt32LE, readBigInt64LE.
  all: try solve [apply Hid; [reflexivity | intros v; eauto]].
  all: try solve [apply Hopt; [reflexivity | intros v; eauto]].
  - apply (Hopt 8%nat _ _ (asIntN 64)); [reflexivity |]. intros v.
    destruct (Z.ltb_spec (asIntN 64 v) 0); [eauto |].
    destruct (readString_is_Some buf (num_add vds (Number_of_BigInt (asIntN 64 v)))) as [s ->].
    + unfold num_add, Number_of_BigInt. apply to_double_nonneg.
      pose proof (to_double_nonneg (asIntN 64 v)). lia.
    + cbn. eauto.
  - apply (Hopt 8%nat _ _ (asIntN 64)); [reflexivity |]. intros v.
    destruct (_ || _); eauto.
  - apply (Hopt 8%nat _ _ (asIntN 64)); [reflexivity |]. intros v.
    destruct (_ || _); eauto.
Qed.

Lemma readField_throws_iff_out_of_range_witness :
  is_Some (readField b3 80 60 TForeignRow) /\ readField b3 81 60 TForeignRow = None.
Proof.
  split.
  - apply (proj2 (readField_throws_iff_out_of_range b3 80 60 TForeignRow ltac:(lia))).
    vm_compute. split; discriminate.
  - destruct (readField b3 81 60 TForeignRow) eqn:E; [| reflexivity].
    assert (Hs : is_Some (readField b3 81 60 TForeignRow)) by (rewrite E; eauto).
    apply (proj1 (readField_throws_iff_out_of_range b3 81 60 TForeignRow ltac:(lia))) in Hs.
    vm_compute in Hs. destruct Hs as [_ Hs]. exfalso. apply Hs. reflexivity.
Defined.

Lemma byte_val_range b : 0 <= byte_val b <= 255.
Proof. unfold byte_val. pose proof (Byte.to_N_bounded b). lia. Qed.

Lemma byte_val_inj b c : byte_val b = byte_val c -> b = c.
Proof.
  unfold byte_val. intros H. apply N2Z.inj in H.
  apply (f_equal Byte.of_N) in H. rewrite !Byte.of_to_N in H. congruence.
Qed.

Lemma byte_val_byte_of z : byte_val (byte_of z) = z mod 256.
Proof.
  unfold byte_val, byte_of.
  pose proof (Z.mod_pos_bound z 256 ltac:(lia)) as Hm.
  destruct (Byte.of_N (Z.to_N (z mod 256))) as [b |] eqn:E.
  - apply Byte.to_of_N in E. cbn. rewrite E. lia.
  - apply Byte.of_N_None_iff in E. lia.
Qed.

Lemma le_value_range bs : 0 <= le_value bs < 256 ^ Z.of_nat (length bs).
Proof.
  induction bs as [| b bs IH]; cbn [le_value length]; [simpl; lia |].
  rewrite Nat2Z.inj_succ, Z.pow_succ_r by lia.
  pose proof (byte_val_range b). lia.
Qed.

Lemma read_bytes_length buf off n bs : read_bytes buf off n = Some bs -> length bs = n.
Proof.
  intros H. apply read_bytes_inv in H as (H0 & H1 & ->).
  rewrite length_take, length_drop. unfold buf_length in *. lia.
Qed.

(** X5: a row reference decodes to null exactly when its eight bytes are all
    FF or all FE. *)
Theorem readField_row_null_patterns buf offset vds bs :
  read_bytes buf offset 8 = Some bs ->
  (readField buf offset vds TRow = Some (VNull, 8)
   <-> bs = replicate 8 xff \/ bs = replicate 8 xfe).
Proof.
  intros Hbs. pose proof (read_bytes_length _ _ _ _ Hbs) as Hlen.
  unfold readField, readBigInt64LE, readUIntLE. rewrite Hbs. cbn [fmap option_fmap option_map mbind option_bind].
  destruct bs as [| b0 [| b1 [| b2 [| b3 [| b4 [| b5 [| b6 [| b7 [| ? ?]]]]]]]]];
    try discriminate. clear Hlen.
  pose proof (byte_val_range b0). pose proof (byte_val_range b1).
  pose proof (byte_val_range b2). pose proof (byte_val_range b3).
  pose proof (byte_val_range b4). pose proof (byte_val_range b5).
  pose proof (byte_val_range b6). pose proof (byte_val_range b7).
  set (u := le_value [b0; b1; b2; b3; b4; b5; b6; b7]).
  assert (Hu : u = byte_val b0 + 256 * (byte_val b1 + 256 * (byte_val b2 + 256 *
                 (byte_val b3 + 256 * (byte_val b4 + 256 * (byte_val b5 + 256 *
                 (byte_val b6 + 256 * (byte_val b7 + 256 * 0)))))))) by reflexivity.
  assert (Hrange : 0 <= u < 2 ^ 64) by (change (2 ^ 64) with 18446744073709551616; lia).
  assert (Has : asIntN 64 u = if u <? 2 ^ 63 then u else u - 2 ^ 64).
  { unfold asIntN. rewrite Z.mod_small by lia. reflexivity. }
  rewrite Has. unfold NULL_ROW.
  change NULL_MARKER with (-72340172838076674).
  change (2 ^ 63) with 9223372036854775808. change (2 ^ 64) with 18446744073709551616.
  split.
  - intros Hnull.
    assert (Hcase : u = 18446744073709551615 \/ u = 18374403900871474942).
    { destruct (Z.ltb_spec u 9223372036854775808);
        match type of Hnull with
        | context [(?a =? ?b) || (?c =? ?d)] =>
            destruct (Z.eqb_spec a b); destruct (Z.eqb_spec c d)
        end; cbn in Hnull; try discriminate; lia. }
    destruct Hcase as [Hc | Hc]; [left | right]; rewrite Hu in Hc; cbn [replicate];
      repeat f_equal; apply byte_val_inj; unfold byte_val at 2; cbn; lia.
  - intros [E | E]; cbn [replicate] in E; injection E as -> -> -> -> -> -> -> ->;
      vm_compute; reflexivity.
Qed.

Lemma readField_row_null_patterns_witness :
  readField (bytes (replicate 8 0xFE)) 0 0 TRow = Some (VNull, 8) /\
  readField (bytes (le_bytes 8 (-2))) 0 0 TRow <> Some (VNull, 8).
Proof.
  split.
  - apply (proj2 (readField_row_null_patterns (bytes (replicate 8 0xFE)) 0 0
                    (replicate 8 xfe) eq_refl)).
    right. reflexivity.
  - intros H.
    apply (proj1 (readField_row_null_patterns (bytes (le_bytes 8 (-2))) 0 0
                    (bytes (le_bytes 8 (-2))) eq_refl)) in H.
    destruct H as [H | H]; vm_compute in H; discriminate.
Defined.

Lemma scan_end_ge buf fuel : forall e e', scan_end buf fuel e = Some e' -> e <= e'.
Proof.
  induction fuel as [| fuel IH]; intros e e' H; cbn [scan_end] in H.
  - injection H as <-. lia.
  - destruct (e + 4 <=? buf_length buf); [| injection H as <-; lia].
    destruct (readUInt32LE buf e) as [v |]; [| discriminate]. cbn in H.
    destruct (v =? 0); [injection H as <-; lia |].
    apply IH in H. lia.
Qed.

Lemma drop_4 buf e :
  0 <= e -> e + 4 <= buf_length buf ->
  exists b0 b1 b2 b3 rest,
    drop (Z.to_nat e) buf = b0 :: b1 :: b2 :: b3 :: rest /\
    drop (Z.to_nat (e + 2)) buf = b2 :: b3 :: rest.
Proof.
  intros He Hlen.
  assert (Hl : (4 <= length (drop (Z.to_nat e) buf))%nat).
  { rewrite length_drop. unfold buf_length in Hlen. lia. }
  destruct (drop (Z.to_nat e) buf) as [| b0 [| b1 [| b2 [| b3 rest]]]] eqn:E;
    cbn in Hl; try lia.
  exists b0, b1, b2, b3, rest. split; [reflexivity |].
  replace (Z.to_nat (e + 2)) with (Z.to_nat e + 2)%nat by lia.
  rewrite <- drop_drop, E. reflexivity.
Qed.

Lemma no_double_nul_cons a b t :
  no_double_nul (a :: b :: t) = negb ((a =? 0) && (b =? 0)) && no_double_nul (b :: t).
Proof. reflexivity. Qed.

Lemma scan_end_text_no_double_nul buf fuel : forall e e',
  0 <= e -> scan_end buf fuel e = Some e' ->
  no_double_nul (toString_utf16le buf e e') = true.
Proof.
  induction fuel as [| fuel IH]; intros e e' He H; cbn [scan_end] in H.
  - injection H as <-. unfold toString_utf16le. rewrite Z.sub_diag. reflexivity.
  - destruct (Z.leb_spec (e + 4) (buf_length buf)) as [Hlen | Hlen].
    2: { injection H as <-. unfold toString_utf16le. rewrite Z.sub_diag. reflexivity. }
    destruct (readUInt32LE buf e) as [v |] eqn:Hv; [| discriminate]. cbn in H.
    destruct (Z.eqb_spec v 0) as [-> | Hnz].
    { injection H as <-. unfold toString_utf16le. rewrite Z.sub_diag. reflexivity. }
    pose proof (scan_end_ge _ _ _ _ H) as Hge.
    specialize (IH (e + 2) e' ltac:(lia) H).
    destruct (drop_4 buf e He Hlen) as (b0 & b1 & b2 & b3 & rest & E0 & E2).
    unfold toString_utf16le in *. rewrite E0. rewrite E2 in IH.
    replace (Z.to_nat (e' - e)) with (S (S (Z.to_nat (e' - (e + 2))))) by lia.
    cbn [take utf16le].
    assert (Hv' : v = (byte_val b0 + 256 * byte_val b1)
                      + 65536 * (byte_val b2 + 256 * byte_val b3)).
    { unfold readUInt32LE, readUIntLE in Hv. rewrite read_bytes_Some in Hv by (cbn; lia).
      rewrite E0 in Hv. cbn in Hv. injection Hv as <-. lia. }
    destruct (Z.to_nat (e' - (e + 2))) as [| [| n]] eqn:En.
    + reflexivity.
    + reflexivity.
    + cbn [take utf16le] in IH |- *. rewrite no_double_nul_cons, IH, andb_true_r.
      apply negb_true_iff, andb_false_iff.
      pose proof (byte_val_range b0). pose proof (byte_val_range b1).
      pose proof (byte_val_range b2). pose proof (byte_val_range b3).
      destruct (Z.eqb_spec (byte_val b0 + 256 * byte_val b1) 0); [right | left; reflexivity].
      apply Z.eqb_neq. lia.
Qed.

(** X6: a string read from the variable data never holds two neighbouring
    zero code units, and never has more code units than fit between its
    offset and the end of the buffer. *)
Theorem readString_no_double_nul buf offset s :
  0 <= offset -> readString buf offset = Some s ->
  no_double_nul s = true /\ 2 * Z.of_nat (length s) <= Z.max 0 (buf_length buf - offset).
Proof.
  intros Hoff H. unfold readString in H.
  destruct (Z.leb_spec (buf_length buf) offset).
  { injection H as <-. cbn. lia. }
  destruct (scan_end buf (S (length buf)) offset) as [e |] eqn:He; [| discriminate].
  cbn in H.
  assert (Hs : s = toString_utf16le buf offset e).
  { destruct (Z.eqb_spec e offset) as [-> | _]; injection H as <-; [| reflexivity].
    unfold toString_utf16le. rewrite Z.sub_diag. reflexivity. }
  subst s. split.
  - exact (scan_end_text_no_double_nul _ _ _ _ Hoff He).
  - unfold toString_utf16le.
    pose proof (GgpkProofs.utf16le_length
                  (take (Z.to_nat (e - offset)) (drop (Z.to_nat offset) buf))) as Hl.
    rewrite length_take, length_drop in Hl. unfold buf_length in *.
    pose proof (Z.mul_div_le
                  (Z.of_nat (Z.to_nat (e - offset) `min` (length buf - Z.to_nat offset))) 2
                  ltac:(lia)).
    lia.
Qed.

Lemma readString_no_double_nul_witness :
  exists s, readString (bytes [65; 0; 0; 0; 66; 0; 0; 0; 0; 0]) 0 = Some s /\
            s = [65; 0; 66] /\ no_double_nul s = true.
Proof.
  destruct (readString (bytes [65; 0; 0; 0; 66; 0; 0; 0; 0; 0]) 0) as [s |] eqn:E;
    [| vm_compute in E; discriminate].
  exists s. split; [reflexivity |].
  destruct (readString_no_double_nul _ 0 s ltac:(lia) E) as [Hn _].
  split; [| exact Hn]. vm_compute in E. injection E as <-. reflexivity.
Defined.

Lemma asIntN_range w u : 0 < w -> - 2 ^ (w - 1) <= asIntN w u < 2 ^ (w - 1).
Proof.
  intros Hw. unfold asIntN.
  assert (Hp : 2 ^ w = 2 * 2 ^ (w - 1)).
  { rewrite <- Z.pow_succ_r by lia. f_equal. lia. }
  pose proof (Z.mod_pos_bound u (2 ^ w) ltac:(lia)).
  destruct (Z.ltb_spec (u mod 2 ^ w) (2 ^ (w - 1))); lia.
Qed.

Lemma readUIntLE_range buf off n v :
  readUIntLE buf off n = Some v -> 0 <= v < 256 ^ Z.of_nat n.
Proof.
  unfold readUIntLE. destruct (read_bytes buf off n) as [bs |] eqn:E; [| discriminate].
  intros [= <-]. apply read_bytes_length in E as <-. apply le_value_range.
Qed.


(** X7: an integer field of fixed width decodes to a number in the range of
    its type: i16, u16, i32, u32 and enumrow. *)
Theorem readField_integer_ranges buf offset vds type v n :
  readField buf offset vds type = Some (VNum v, n) -> integer_range type v.
Proof.
  unfold readField, readInt16LE, readUInt16LE, readInt32LE, readUInt32LE.
  destruct type; cbn [integer_range]; try (intros _; exact I).
  - destruct (readUIntLE buf offset 2) as [u |]; [| discriminate].
    intros [= <- _]. exact (asIntN_range 16 u ltac:(lia)).
  - destruct (readUIntLE buf offset 4) as [u |]; [| discriminate].
    intros [= <- _]. exact (asIntN_range 32 u ltac:(lia)).
  - destruct (readUIntLE buf offset 2) as [u |] eqn:E; [| discriminate].
    intros [= <- _]. exact (readUIntLE_range _ _ _ _ E).
  - destruct (readUIntLE buf offset 4) as [u |] eqn:E; [| discriminate].
    intros [= <- _]. exact (readUIntLE_range _ _ _ _ E).
  - destruct (readUIntLE buf offset 4) as [u |]; [| discriminate].
    intros [= <- _]. exact (asIntN_range 32 u ltac:(lia)).
Qed.

Lemma readField_integer_ranges_witness :
  readField (bytes [255; 255]) 0 0 TI16 = Some (VNum (-1), 2) /\ -32768 <= -1 < 32768.
Proof.
  split; [reflexivity |].
  exact (readField_integer_ranges (bytes [255; 255]) 0 0 TI16 (-1) 2 eq_refl).
Defined.
End DatSpecProofs.

(* ===================================================================== *)
(** * The rows of a table: what is decoded where *)
(* ===================================================================== *)

Module DatRowsProofs.
Import Js Dat DatSpec DatRows JsFacts DatProofs DatSpecProofs.

(** ** Reads see only the bytes they address *)

Section Agree.

Variables buf buf' : Buffer.
Hypothesis same_length : length buf' = length buf.

Lemma read_bytes_agree off n :
  (forall k : nat, off <= Z.of_nat k < off + Z.of_nat n -> buf' !! k = buf !! k) ->
  read_bytes buf' off n = read_bytes buf off n.
Proof.
  intros H. unfold read_bytes, buf_length. rewrite same_length.
  destruct (Z.leb_spec 0 off); [| reflexivity].
  destruct (Z.leb_spec (off + Z.of_nat n) (Z.of_nat (length buf))); [| reflexivity].
  cbn [andb]. f_equal. apply list_eq. intros j.
  destruct (decide (j < n)%nat) as [Hj | Hj].
  - rewrite !lookup_take_lt, !lookup_drop by exact Hj. apply H. lia.
  - rewrite !lookup_take_ge by lia. reflexivity.
Qed.

Lemma readUIntLE_agree off n :
  (forall k : nat, off <= Z.of_nat k < off + Z.of_nat n -> buf' !! k = buf !! k) ->
  readUIntLE buf' off n = readUIntLE buf off n.
Proof. intros H. unfold readUIntLE. rewrite read_bytes_agree by exact H. reflexivity. Qed.

Variable m : Z.
Hypothesis tail : forall k : nat, m <= Z.of_nat k -> buf' !! k = buf !! k.

Lemma scan_end_agree fuel : forall e, m <= e -> scan_end buf' fuel e = scan_end buf fuel e.
Proof.
  induction fuel as [| fuel IH]; intros e He; [reflexivity |].
  cbn [scan_end]. unfold buf_length. rewrite same_length.
  destruct (e + 4 <=? Z.of_nat (length buf)); [| reflexivity].
  unfold readUInt32LE. rewrite readUIntLE_agree by (intros k Hk; apply tail; lia).
  destruct (readUIntLE buf e 4) as [v |]; [| reflexivity]. cbn [mbind option_bind].
  destruct (v =? 0); [reflexivity |]. apply IH. lia.
Qed.

Lemma readString_agree p : m <= p -> 0 <= p -> readString buf' p = readString buf p.
Proof.
  intros Hp H0. unfold readString, buf_length. rewrite same_length.
  destruct (Z.of_nat (length buf) <=? p); [reflexivity |].
  rewrite scan_end_agree by exact Hp.
  destruct (scan_end buf (S (length buf)) p) as [e |] eqn:He; [| reflexivity].
  cbn [mbind option_bind]. destruct (e =? p); [reflexivity |].
  f_equal. unfold toString_utf16le. f_equal.
  apply list_eq. intros j.
  destruct (decide (j < Z.to_nat (e - p))%nat) as [Hj | Hj].
  - rewrite !lookup_take_lt, !lookup_drop by exact Hj. apply tail. lia.
  - rewrite !lookup_take_ge by lia. reflexivity.
Qed.

Hypothesis m_range : 0 <= m < 2 ^ 53.

Lemma target_in_tail s : 0 <= s -> m <= num_add m (Number_of_BigInt s).
Proof.
  intros Hs. destruct (Z.lt_ge_cases (m + s) (2 ^ 53)).
  - rewrite string_target_exact by lia. lia.
  - pose proof (string_target_large m s ltac:(lia) Hs ltac:(lia)). lia.
Qed.

Lemma readField_agree off ty w :
  read_width ty <= w ->
  (forall k : nat, off <= Z.of_nat k < off + w -> buf' !! k = buf !! k) ->
  readField buf' off m ty = readField buf off m ty.
Proof.
  intros Hw H.
  assert (R : forall n : nat, Z.of_nat n <= read_width ty ->
             readUIntLE buf' off n = readUIntLE buf off n).
  { intros n Hn. apply readUIntLE_agree. intros k Hk. apply H. lia. }
  unfold readField, readUInt8, readUInt16LE, readUInt32LE, readInt16LE, readInt32LE,
    readBigInt64LE.
  destruct ty; cbn [read_width] in R; rewrite R by (cbn; lia); try reflexivity.
  destruct (readUIntLE buf off 8) as [u |]; [| reflexivity].
  cbn [fmap option_fmap option_map mbind option_bind].
  destruct (Z.ltb_spec (asIntN 64 u) 0); [reflexivity |].
  rewrite readString_agree; [reflexivity | apply target_in_tail; lia |].
  pose proof (target_in_tail (asIntN 64 u) ltac:(lia)). lia.
Qed.

Lemma read_elements_agree ty size n : forall off,
  0 <= size -> m <= off ->
  read_elements buf' m ty size n off = read_elements buf m ty size n off.
Proof.
  induction n as [| n IH]; intros off Hsize Hoff; [reflexivity |].
  cbn [read_elements]. unfold buf_length. rewrite same_length.
  destruct (Z.of_nat (length buf) <? off + size); [reflexivity |].
  rewrite (readField_agree off ty 8).
  - f_equal. apply IH; lia.
  - destruct ty; cbn; lia.
  - intros k Hk. apply tail. lia.
Qed.

Lemma readArray_agree off ty :
  (forall k : nat, off <= Z.of_nat k < off + 16 -> buf' !! k = buf !! k) ->
  readArray buf' off m ty = readArray buf off m ty.
Proof.
  intros H. unfold readArray, readBigInt64LE.
  rewrite !readUIntLE_agree by (intros k Hk; apply H; lia).
  destruct (readUIntLE buf off 8) as [l |]; [| reflexivity].
  destruct (readUIntLE buf (off + 8) 8) as [a |]; [| reflexivity].
  cbn [fmap option_fmap option_map mbind option_bind].
  destruct (asIntN 64 l =? 0); cbn [orb]; [reflexivity |].
  destruct (Z.ltb_spec (asIntN 64 a) 0) as [Hneg | Hpos]; [reflexivity |].
  destruct (_ || _); [reflexivity |].
  destruct (_ || _); [reflexivity |].
  unfold buf_length. rewrite same_length.
  destruct (Z.ltb_spec (num_add m (Number_of_BigInt (asIntN 64 a))) 0); cbn [orb];
    [reflexivity |].
  destruct (_ <=? _); [reflexivity |].
  rewrite read_elements_agree; [reflexivity | destruct ty; cbn; lia |].
  apply target_in_tail. exact Hpos.
Qed.

Lemma column_read_agree col off w :
  column_width col <= w ->
  (forall k : nat, off <= Z.of_nat k < off + w -> buf' !! k = buf !! k) ->
  column_read buf' m col off = column_read buf m col off.
Proof.
  unfold column_read, column_width. intros Hw H. destruct (col_array col).
  - apply readArray_agree. intros k Hk. apply H. lia.
  - apply (readField_agree off _ w); assumption.
Qed.

End Agree.

Lemma column_width_le_16 col : column_width col <= 16.
Proof. unfold column_width. destruct (col_array col); [lia |]. destruct (col_type col); cbn; lia. Qed.

Lemma column_width_nominal col : column_width col <= nominal_size col.
Proof.
  unfold column_width, nominal_size. destruct (col_array col); [lia |].
  destruct (col_type col); cbn; lia.
Qed.

Lemma column_read_pos buf vds col off v n : column_read buf vds col off = Some (v, n) -> 0 < n.
Proof.
  unfold column_read. intros H. destruct (col_array col).
  - destruct (readBigInt64LE buf off) as [len64 |] eqn:H1;
      [| unfold readArray in H; rewrite H1 in H; discriminate].
    destruct (readBigInt64LE buf (off + 8)) as [arrOff |] eqn:H2;
      [| unfold readArray in H; rewrite H1, H2 in H; discriminate].
    destruct (readArray_shape buf off vds (col_type col) len64 arrOff H1 H2) as (l & Hl & _).
    rewrite Hl in H. injection H as _ <-. lia.
  - unfold readField in H.
    destruct (col_type col); cbn in H;
      repeat match type of H with
             | context [mbind _ ?x] => destruct x; cbn in H
             | context [if ?c then _ else _] => destruct c
             end; try discriminate; injection H as _ <-; lia.
Qed.

(** The step of the column loop, in terms of [column_read]. *)
Lemma parse_columns_cons buf vds rowStart R col cols colIdx offset (row : gmap string value) :
  parse_columns buf vds rowStart R (col :: cols) colIdx offset row
  = if rowStart + R <=? offset then (offset, row)
    else
      let '(v, bytesRead) :=
        match column_read buf vds col offset with
        | Some (v, bytesRead) => (v, bytesRead)
        | None => (VNull, nominal_size col)
        end in
      parse_columns buf vds rowStart R cols (S colIdx) (offset + bytesRead)
        (<[fieldName col colIdx := v]> row).
Proof. reflexivity. Qed.

(** ** What a row depends on *)

Lemma parse_columns_agree_spill buf buf' m rowStart R cols :
  length buf' = length buf -> 0 <= m < 2 ^ 53 ->
  (forall k : nat, rowStart <= Z.of_nat k < rowStart + R + 15 \/ m <= Z.of_nat k ->
                   buf' !! k = buf !! k) ->
  forall colIdx offset (row : gmap string value),
  rowStart <= offset ->
  parse_columns buf' m rowStart R cols colIdx offset row
  = parse_columns buf m rowStart R cols colIdx offset row.
Proof.
  intros Hlen Hm Hsame.
  induction cols as [| col cols IH]; intros colIdx offset row Hoff; [reflexivity |].
  rewrite !parse_columns_cons.
  destruct (Z.leb_spec (rowStart + R) offset); [reflexivity |].
  rewrite (column_read_agree buf buf' Hlen m (fun k Hk => Hsame k (or_intror Hk)) Hm col offset 16
             (column_width_le_16 col)) by (intros k Hk; apply Hsame; lia).
  destruct (column_read buf m col offset) as [[v n] |] eqn:E.
  - apply IH. apply column_read_pos in E. lia.
  - apply IH. pose proof (nominal_size_pos col). lia.
Qed.

Lemma parse_columns_agree_fit buf buf' m rowStart R cols :
  length buf' = length buf -> 0 <= m < 2 ^ 53 ->
  (forall k : nat, rowStart <= Z.of_nat k < rowStart + R \/ m <= Z.of_nat k ->
                   buf' !! k = buf !! k) ->
  forallb (fun c => negb (scalar_array_type c)) cols = true ->
  forall colIdx offset (row : gmap string value),
  rowStart <= offset -> offset + column_start cols <= rowStart + R ->
  parse_columns buf' m rowStart R cols colIdx offset row
  = parse_columns buf m rowStart R cols colIdx offset row.
Proof.
  intros Hlen Hm Hsame.
  induction cols as [| col cols IH]; intros Hty colIdx offset row Hoff Hfit; [reflexivity |].
  cbn [forallb] in Hty. apply andb_true_iff in Hty as [Hc Hty]. apply negb_true_iff in Hc.
  unfold column_start in Hfit. cbn [foldr] in Hfit. fold (column_start cols) in Hfit.
  assert (Hcs : 0 <= column_start cols).
  { clear. induction cols as [| c cols IH]; [cbn; lia |].
    unfold column_start in *. cbn [foldr]. pose proof (nominal_size_pos c). lia. }
  rewrite !parse_columns_cons.
  destruct (Z.leb_spec (rowStart + R) offset); [reflexivity |].
  rewrite (column_read_agree buf buf' Hlen m (fun k Hk => Hsame k (or_intror Hk)) Hm col offset
             (nominal_size col) (column_width_nominal col))
    by (intros k Hk; apply Hsame; lia).
  pose proof (nominal_size_pos col).
  destruct (column_read buf m col offset) as [[v n] |] eqn:E.
  - apply (column_read_advance buf offset m col v n Hc) in E as ->. apply IH; [exact Hty | lia | lia].
  - apply IH; [exact Hty | lia | lia].
Qed.

Lemma column_start_nonneg cols : 0 <= column_start cols.
Proof.
  induction cols as [| c cols IH]; [cbn; lia |].
  unfold column_start in *. cbn [foldr]. pose proof (nominal_size_pos c). lia.
Qed.

(** ** The field of a column *)

(** The cursor does not depend on the row being built, nor on the index of
    the column. *)
Lemma parse_columns_cursor buf vds rowStart R cols :
  forall colIdx colIdx' offset (row row' : gmap string value),
  fst (parse_columns buf vds rowStart R cols colIdx offset row)
  = fst (parse_columns buf vds rowStart R cols colIdx' offset row').
Proof.
  induction cols as [| c cols IH]; intros colIdx colIdx' offset row row'; [reflexivity |].
  rewrite !parse_columns_cons.
  destruct (rowStart + R <=? offset); [reflexivity |].
  destruct (column_read buf vds c offset) as [[v n] |]; apply IH.
Qed.

Lemma parse_columns_cursor_ge buf vds rowStart R cols :
  forall colIdx offset (row : gmap string value),
  offset <= fst (parse_columns buf vds rowStart R cols colIdx offset row).
Proof.
  induction cols as [| c cols IH]; intros colIdx offset row; [cbn; lia |].
  rewrite parse_columns_cons.
  destruct (rowStart + R <=? offset); [cbn; lia |].
  destruct (column_read buf vds c offset) as [[v n] |] eqn:E.
  - apply column_read_pos in E. etransitivity; [| apply IH]. lia.
  - pose proof (nominal_size_pos c). etransitivity; [| apply IH]. lia.
Qed.

(** The loop over [pre ++ rest] is the loop over [pre] followed by the loop
    over [rest]. *)
Lemma parse_columns_app buf vds rowStart R rest pre :
  forall colIdx offset (row : gmap string value),
  parse_columns buf vds rowStart R (pre ++ rest) colIdx offset row
  = parse_columns buf vds rowStart R rest (colIdx + length pre)
      (fst (parse_columns buf vds rowStart R pre colIdx offset row))
      (snd (parse_columns buf vds rowStart R pre colIdx offset row)).
Proof.
  induction pre as [| c pre IH]; intros colIdx offset row.
  - cbn [app length parse_columns fst snd]. rewrite Nat.add_0_r. reflexivity.
  - cbn [app]. rewrite !parse_columns_cons.
    destruct (Z.leb_spec (rowStart + R) offset) as [Hend | Hin].
    + cbn [fst snd]. destruct rest as [| r rest]; [reflexivity |].
      rewrite parse_columns_cons. destruct (Z.leb_spec (rowStart + R) offset); [reflexivity | lia].
    + destruct (column_read buf vds c offset) as [[v n] |];
        rewrite IH; cbn [length];
        replace (colIdx + S (length pre))%nat with (S colIdx + length pre)%nat by lia;
        reflexivity.
Qed.

Lemma parse_row_field buf vds R table i rowStart pre col post :
  columns table = pre ++ col :: post ->
  keeps_name pre col post ->
  cursor_after buf vds rowStart R pre < rowStart + R ->
  parse_row buf vds R table i rowStart !! fieldName col (length pre)
  = Some (column_value buf vds col (cursor_after buf vds rowStart R pre)).
Proof.
  intros Hcols [_ Hlater] Hfit. unfold parse_row, cursor_after in *. rewrite Hcols.
  rewrite parse_columns_app. cbn [Nat.add].
  rewrite (parse_columns_cursor buf vds rowStart R pre 0 0 rowStart _ ∅).
  set (o := fst (parse_columns buf vds rowStart R pre 0 rowStart ∅)) in *.
  rewrite parse_columns_cons.
  destruct (Z.leb_spec (rowStart + R) o); [lia |].
  unfold column_value.
  destruct (column_read buf vds col o) as [[v n] |];
    (rewrite parse_columns_lookup_other; [apply lookup_insert_eq |]);
    intros j c' Hj; exact (Hlater j c' Hj).
Qed.

(** From the end of the row on, no column is decoded: the row has the
    fields of the columns before. *)
Lemma parse_row_ends buf vds R table i rowStart pre post :
  columns table = pre ++ post ->
  rowStart + R <= cursor_after buf vds rowStart R pre ->
  parse_row buf vds R table i rowStart
  = snd (parse_columns buf vds rowStart R pre 0 rowStart {[ "_rid" := VNum i ]}).
Proof.
  intros Hcols Hend. unfold parse_row, cursor_after in *. rewrite Hcols.
  rewrite parse_columns_app.
  rewrite (parse_columns_cursor buf vds rowStart R pre 0 0 rowStart _ ∅).
  rewrite parse_columns_past_row by exact Hend. reflexivity.
Qed.

(** Where the columns before are plain, the cursor is where their sizes put
    it. *)
Lemma cursor_after_plain buf vds rowStart R pre :
  plain_columns pre = true -> column_start pre <= R ->
  cursor_after buf vds rowStart R pre = rowStart + column_start pre.
Proof.
  intros Hty Hfit. unfold cursor_after.
  exact (proj1 (parse_columns_fit buf vds rowStart R pre Hty 0%nat rowStart ∅
                  ltac:(unfold column_start in Hfit; lia))).
Qed.

(** The sizes of plain columns cannot pass the end of the row unnoticed:
    a cursor inside the row is where the sizes put it. *)
Lemma cursor_plain_inside buf m rowStart R pre :
  0 < R -> plain_columns pre = true ->
  cursor_after buf m rowStart R pre < rowStart + R ->
  cursor_after buf m rowStart R pre = rowStart + column_start pre.
Proof.
  intros HR Hplain Hfit. apply cursor_after_plain; [exact Hplain |].
  destruct (Z.le_gt_cases (column_start pre) R) as [Hle | Hgt]; [exact Hle | exfalso].
  unfold cursor_after in Hfit.
  assert (G : forall cols colIdx offset (row : gmap string value),
            plain_columns cols = true -> offset < rowStart + R ->
            fst (parse_columns buf m rowStart R cols colIdx offset row) < rowStart + R ->
            offset + column_start cols < rowStart + R).
  { induction cols as [| c cols IH]; intros colIdx offset row Hp Hoff Hc; [cbn; lia |].
    cbn [plain_columns forallb] in Hp. apply andb_true_iff in Hp as [Hc1 Hp].
    apply negb_true_iff in Hc1.
    unfold column_start. cbn [foldr]. fold (column_start cols).
    rewrite parse_columns_cons in Hc.
    destruct (Z.leb_spec (rowStart + R) offset); [lia |].
    pose proof (nominal_size_pos c) as Hn.
    assert (Hnext : fst (parse_columns buf m rowStart R cols (S colIdx)
                           (offset + nominal_size c)
                           (<[fieldName c colIdx := column_value buf m c offset]> row))
                    < rowStart + R).
    { unfold column_value.
      destruct (column_read buf m c offset) as [[v n] |] eqn:E.
      - apply (column_read_advance buf offset m c v n Hc1) in E as ->. exact Hc.
      - exact Hc. }
    pose proof (parse_columns_cursor_ge buf m rowStart R cols (S colIdx)
                  (offset + nominal_size c)
                  (<[fieldName c colIdx := column_value buf m c offset]> row)).
    specialize (IH (S colIdx) (offset + nominal_size c) _ Hp ltac:(lia) Hnext). lia. }
  specialize (G pre 0%nat rowStart ∅ Hplain ltac:(lia) Hfit). lia.
Qed.

(** ** The magic that parse finds lies inside the buffer *)

Lemma is_prefix_length pat : forall l, is_prefix pat l = true -> (length pat <= length l)%nat.
Proof.
  induction pat as [| p pat IH]; intros l H; [cbn; lia |].
  destruct l as [| x l]; [discriminate |]. cbn in H.
  apply andb_true_iff in H as [_ H]. apply IH in H. cbn. lia.
Qed.

Lemma indexOf_from_found pat l : forall i r,
  indexOf_from pat l i = r -> r <> -1 -> 0 <= i ->
  r + Z.of_nat (length pat) <= i + Z.of_nat (length l).
Proof.
  induction l as [| x l IH]; intros i r H Hr Hi; [cbn in H; lia |].
  cbn [indexOf_from] in H. destruct (is_prefix pat (x :: l)) eqn:E.
  - apply is_prefix_length in E. subst r. lia.
  - apply IH in H; [| exact Hr | lia]. cbn [length]. lia.
Qed.

Lemma magic_inside buf m :
  indexOf buf VARIABLE_DATA_MAGIC 4 = m -> m <> -1 -> 4 <= m /\ m + 8 <= buf_length buf.
Proof.
  intros H Hm.
  pose proof (indexOf_range buf VARIABLE_DATA_MAGIC 4 ltac:(lia)) as E. rewrite H in E.
  destruct E as [E | E]; [contradiction |]. split; [lia |].
  unfold indexOf in H. apply indexOf_from_found in H; [| exact Hm | lia].
  rewrite length_drop in H. unfold buf_length in *. cbn [length VARIABLE_DATA_MAGIC] in H.
  change (Z.to_nat 4) with 4%nat in H. lia.
Qed.

Lemma rows_inside rc m (i : nat) :
  0 < rc -> 4 <= m -> Z.of_nat i < rc ->
  4 <= 4 + Z.of_nat i * ((m - 4) / rc) /\ 4 + Z.of_nat i * ((m - 4) / rc) + (m - 4) / rc <= m.
Proof.
  intros Hrc Hm Hi.
  assert (0 <= (m - 4) / rc) by (apply Z.div_pos; lia).
  assert (rc * ((m - 4) / rc) <= m - 4) by (apply Z.mul_div_le; lia).
  nia.
Qed.

(** Claim C1, at the failing input: scenario S5, where the schema says 24
    bytes and the rows have 20.  parse finds 2 rows of 20 bytes, so that
    row 0 is bytes 4 to 23 and row 1 starts at byte 24.  The cursor comes
    to the third column at byte 20, inside row 0, and the column is read
    from bytes 20 to 27, past the row boundary.  The second buffer differs
    from the first in bytes 24 to 27 only, which belong to row 1, and yet
    the field [z] of row 0 differs: row 0 does not correspond to its 20
    bytes. *)
Theorem row_read_past_row_boundary :
  readUInt32LE b5 0 = Some 2 /\ indexOf b5 VARIABLE_DATA_MAGIC 4 = 44 /\
  readUInt32LE b5' 0 = Some 2 /\ indexOf b5' VARIABLE_DATA_MAGIC 4 = 44 /\
  take 24 b5' = take 24 b5 /\ drop 28 b5' = drop 28 b5 /\
  cursor_after b5 44 4 20 (take 2 (columns t5)) = 20 /\
  (parse p5 b5 "t" ≫= fun r => rows r !! 0%nat ≫= fun row => row !! "z") = Some VNull /\
  (parse p5 b5' "t" ≫= fun r => rows r !! 0%nat ≫= fun row => row !! "z")
  = Some (VStr [48059; 48059; 48059; 48059; 104; 105]).
Proof. repeat split; vm_compute; reflexivity. Qed.

(** X23: for a buffer of a known table with [row_count > 0] and the magic
    at [m], parse takes the row size [R = (m - 4) / row_count] from the
    data, whatever the schema row size is.  Row [i] is decoded from
    [4 + i * R], inside the fixed region, and the cursor is set to the
    start of the next row after it, so that no row shifts another.  A
    column is decoded at the place the cursor has reached, which is where
    the sizes of the columns before put it when they are plain, as long as
    that is before the end of the row; no column is decoded from the end
    of the row on.  A column that starts inside the row is read in full,
    up to 15 bytes past the end of the row: a row is settled by its [R]
    bytes, the 15 bytes that follow and the variable region, and by its
    [R] bytes and the variable region when the schema row size fits in
    [R]. *)
Theorem row_size_reconciliation p buf tableName table rc m :
  getTableSchema p tableName = Some table ->
  readUInt32LE buf 0 = Some rc -> 0 < rc ->
  indexOf buf VARIABLE_DATA_MAGIC 4 = m -> m <> -1 ->
  buf_length buf < 2 ^ 53 ->
  let R := (m - 4) / rc in
  let rowStart (i : nat) := 4 + Z.of_nat i * R in
  parse p buf tableName =
    Some (mkResult ((fun i : nat => parse_row buf m R table (Z.of_nat i) (rowStart i))
                      <$> seq 0 (Z.to_nat rc)) rc None)
  /\ (forall k : nat, fst (parse_rows buf m R table k 0 4 []) = rowStart k)
  /\ (forall i : nat, Z.of_nat i < rc -> 4 <= rowStart i /\ rowStart i + R <= m)
  /\ (forall (i : nat) pre col post,
        columns table = pre ++ col :: post ->
        let cursor := cursor_after buf m (rowStart i) R pre in
        (keeps_name pre col post -> cursor < rowStart i + R ->
           parse_row buf m R table (Z.of_nat i) (rowStart i) !! fieldName col (length pre)
           = Some (column_value buf m col cursor)) /\
        (rowStart i + R <= cursor ->
           parse_row buf m R table (Z.of_nat i) (rowStart i)
           = snd (parse_columns buf m (rowStart i) R pre 0 (rowStart i)
                    {[ "_rid" := VNum (Z.of_nat i) ]})) /\
        (plain_columns pre = true -> column_start pre <= R ->
           cursor = rowStart i + column_start pre))
  /\ (forall (i : nat) buf',
        agree_on buf buf' (rowStart i) (rowStart i + R + 15) m ->
        parse_row buf' m R table (Z.of_nat i) (rowStart i)
        = parse_row buf m R table (Z.of_nat i) (rowStart i))
  /\ (plain_columns (columns table) = true ->
      calculateRowSize table <= R ->
      forall (i : nat) buf',
        agree_on buf buf' (rowStart i) (rowStart i + R) m ->
        parse_row buf' m R table (Z.of_nat i) (rowStart i)
        = parse_row buf m R table (Z.of_nat i) (rowStart i)).
Proof.
  intros Ht Hrc Hpos Hm Hfound Hlen R rowStart.
  destruct (magic_inside buf m Hm Hfound) as [Hm4 Hm8].
  assert (Hmr : 0 <= m < 2 ^ 53) by lia.
  split; [| split; [| split; [| split; [| split]]]].
  - subst m. apply parse_known; assumption.
  - intros k. rewrite parse_rows_spec. reflexivity.
  - intros i Hi. apply rows_inside; assumption.
  - intros i pre col post Hcols cursor. split; [| split].
    + intros Hname Hfit.
      exact (parse_row_field buf m R table _ _ pre col post Hcols Hname Hfit).
    + intros Hend.
      exact (parse_row_ends buf m R table _ _ pre (col :: post) Hcols Hend).
    + intros Hty Hfit. apply cursor_after_plain; assumption.
  - intros i buf' [Hl Hsame]. unfold parse_row. f_equal.
    apply parse_columns_agree_spill; [exact Hl | exact Hmr | exact Hsame | lia].
  - intros Hty Hfit i buf' [Hl Hsame]. unfold parse_row. f_equal.
    apply parse_columns_agree_fit; [exact Hl | exact Hmr | exact Hsame | exact Hty | lia |].
    unfold calculateRowSize in Hfit. rewrite calculateRowSize_sum_go in Hfit.
    unfold column_start. lia.
Qed.

(** Scenario S5: two rows of 20 bytes against a schema of 24.  The field
    [y] of row 0 is the string at 44 + 8; the field [z] starts at byte 20
    of the buffer, inside the row, and is read with four bytes of row 1. *)
Lemma row_size_reconciliation_witness :
  parse p5 b5 "t" =
    Some (mkResult ((fun i : nat => parse_row b5 44 20 t5 (Z.of_nat i) (4 + Z.of_nat i * 20))
                      <$> seq 0 2) 2 None)
  /\ calculateRowSize t5 = 24
  /\ parse_row b5 44 20 t5 0 4 !! "y" = Some (VStr [104; 105])
  /\ cursor_after b5 44 4 20 [mkColumn (Some "x") false TString; mkColumn (Some "y") false TString]
     = 20
  /\ parse_row b5 44 20 t5 0 4 !! "z" = Some VNull.
Proof.
  pose proof (row_size_reconciliation p5 b5 "t" t5 2 44
                ltac:(vm_compute; reflexivity) ltac:(vm_compute; reflexivity) ltac:(lia)
                ltac:(vm_compute; reflexivity) ltac:(lia) ltac:(vm_compute; reflexivity))
    as (Hparse & _ & _ & Hfield & _).
  split; [exact Hparse |]. split; [reflexivity |]. split; [| split].
  - etransitivity.
    + apply (proj1 (Hfield 0%nat [mkColumn (Some "x") false TString]
                      (mkColumn (Some "y") false TString) [mkColumn (Some "z") false TString]
                      eq_refl)).
      * split; [vm_compute; discriminate |].
        intros [| j] c Hj; [| destruct j; discriminate Hj].
        injection Hj as <-. vm_compute. discriminate.
      * vm_compute. reflexivity.
    + vm_compute. reflexivity.
  - etransitivity.
    + apply (proj2 (proj2 (Hfield 0%nat
                             [mkColumn (Some "x") false TString;
                              mkColumn (Some "y") false TString]
                             (mkColumn (Some "z") false TString) [] eq_refl)));
        vm_compute; [reflexivity | discriminate].
    + vm_compute. reflexivity.
  - etransitivity.
    + apply (proj1 (Hfield 0%nat
                      [mkColumn (Some "x") false TString; mkColumn (Some "y") false TString]
                      (mkColumn (Some "z") false TString) [] eq_refl)).
      * split; [vm_compute; discriminate |]. intros j c Hj. discriminate Hj.
      * vm_compute. reflexivity.
    + vm_compute. reflexivity.
Defined.

(** ** Strings *)

(** Every read of a string field returns, with a value that is the decoding
    of the offset stored. *)
Lemma string_value buf off m strOffset :
  0 <= m -> buf_length buf < 2 ^ 53 ->
  readBigInt64LE buf off = Some strOffset ->
  exists v, readField buf off m TString = Some (v, 8) /\ string_decoding buf m strOffset v.
Proof.
  intros Hm Hlen Hr.
  destruct (readField_string buf off m strOffset Hm Hlen Hr) as (Hneg & Hout & Htext).
  assert (Hsome : exists v, readField buf off m TString = Some (v, 8)).
  { unfold readField. rewrite Hr. cbn [mbind option_bind].
    destruct (Z.ltb_spec strOffset 0); [eauto |].
    destruct (readString_is_Some buf (num_add m (Number_of_BigInt strOffset))) as [str ->].
    - unfold num_add, Number_of_BigInt. apply to_double_nonneg.
      pose proof (to_double_nonneg strOffset ltac:(lia)). lia.
    - cbn [mbind option_bind]. eauto. }
  destruct Hsome as [v Hv]. exists v. split; [exact Hv |].
  split; [| split].
  - intros H. rewrite (Hneg H) in Hv. congruence.
  - intros H1 H2. rewrite (Hout H1 H2) in Hv. congruence.
  - intros H1 k Hk. rewrite (Htext H1 k Hk) in Hv. congruence.
Qed.

(** The elements of an array of strings are decoded like string fields,
    each from its own 8 bytes. *)
Lemma read_elements_string buf m n : forall off (j : nat) v,
  0 <= m -> buf_length buf < 2 ^ 53 -> 0 <= off ->
  read_elements buf m TString 8 n off !! j = Some v ->
  exists strOffset,
    readBigInt64LE buf (off + 8 * Z.of_nat j) = Some strOffset /\
    string_decoding buf m strOffset v.
Proof.
  induction n as [| n IH]; intros off j v Hm Hlen Hoff H; [discriminate |].
  cbn [read_elements] in H.
  destruct (Z.ltb_spec (buf_length buf) (off + 8)) as [Hlt | Hge]; [discriminate |].
  destruct j as [| j].
  - replace (off + 8 * Z.of_nat 0) with off by lia.
    assert (Hr : is_Some (readBigInt64LE buf off)).
    { unfold readBigInt64LE.
      destruct (readUIntLE_is_Some buf off 8) as [u ->]; [lia | lia |]. cbn. eauto. }
    destruct Hr as [strOffset Hr]. exists strOffset. split; [exact Hr |].
    destruct (string_value buf off m strOffset Hm Hlen Hr) as (v' & Hv' & Hdec).
    rewrite Hv' in H. injection H as <-. exact Hdec.
  - change ((?x :: ?l) !! S j) with (l !! j) in H. destruct (IH (off + 8) j v Hm Hlen ltac:(lia) H) as (strOffset & Hr & Hdec).
    exists strOffset. split; [| exact Hdec].
    replace (off + 8 * Z.of_nat (S j)) with (off + 8 + 8 * Z.of_nat j) by lia. exact Hr.
Qed.

Lemma readArray_string_elements buf off m l n (j : nat) v :
  0 <= m -> buf_length buf < 2 ^ 53 ->
  readArray buf off m TString = Some (VArr l, n) -> l !! j = Some v ->
  exists arrayOffset strOffset,
    readBigInt64LE buf (off + 8) = Some arrayOffset /\ 0 <= arrayOffset /\
    readBigInt64LE buf (m + arrayOffset + 8 * Z.of_nat j) = Some strOffset /\
    string_decoding buf m strOffset v.
Proof.
  intros Hm Hlen H Hj. unfold readArray in H.
  destruct (readBigInt64LE buf off) as [len64 |]; [| discriminate].
  destruct (readBigInt64LE buf (off + 8)) as [arrayOffset |] eqn:Ha; [| discriminate].
  cbn [mbind option_bind] in H.
  destruct (len64 =? 0); [injection H as <- _; discriminate |].
  destruct (Z.ltb_spec arrayOffset 0); [injection H as <- _; discriminate |].
  cbn [orb] in H.
  destruct ((100000 <? Number_of_BigInt len64) || (Number_of_BigInt len64 <? 0));
    [injection H as <- _; discriminate |].
  destruct (bool_decide (TString = TArray) || (FIELD_SIZES TString =? 0));
    [injection H as <- _; discriminate |].
  set (dataOffset := num_add m (Number_of_BigInt arrayOffset)) in *.
  destruct (Z.ltb_spec dataOffset 0); [injection H as <- _; discriminate |].
  destruct (Z.leb_spec (buf_length buf) dataOffset); [injection H as <- _; discriminate |].
  cbn [orb] in H. injection H as <- _.
  assert (Hexact : dataOffset = m + arrayOffset).
  { destruct (Z.lt_ge_cases (m + arrayOffset) (2 ^ 53)).
    - apply string_target_exact; lia.
    - pose proof (string_target_large m arrayOffset Hm ltac:(lia) ltac:(lia)).
      unfold dataOffset in *. lia. }
  change (or8 (FIELD_SIZES TString)) with 8 in Hj.
  destruct (read_elements_string buf m _ dataOffset j v Hm Hlen ltac:(lia) Hj)
    as (strOffset & Hr & Hdec).
  exists arrayOffset, strOffset. rewrite <- Hexact. auto.
Qed.

(** Claim C4.  In a row that parse returns, take a column of type string
    that the column loop reaches before the end of the row, and whose
    field name is its own; the cursor is where the sizes of the columns
    before put it when they are plain.  When the column is no array, the 8
    bytes at the cursor are a signed offset and the field is its decoding;
    when it is an array, every element of the field is the decoding of
    the signed offset in its own 8 bytes of the array data, which start at
    [m] plus the offset of the array.  The decoding is with [m], the
    position of the magic itself: a negative offset decodes to null, which
    is not the empty string; an offset that is not negative addresses the
    absolute position [m + offset], where at or past the end of the buffer
    the value is the empty string, and otherwise it is the UTF-16LE text
    of the [k] code units before the first 4-byte run of zeros met in
    steps of two bytes. *)
Theorem string_field_decoding p buf tableName table rc m pre col post (i : nat) :
  getTableSchema p tableName = Some table ->
  readUInt32LE buf 0 = Some rc -> 0 < rc ->
  indexOf buf VARIABLE_DATA_MAGIC 4 = m -> m <> -1 ->
  buf_length buf < 2 ^ 53 ->
  columns table = pre ++ col :: post -> keeps_name pre col post ->
  col_type col = TString ->
  Z.of_nat i < rc ->
  let R := (m - 4) / rc in
  let rowStart := 4 + Z.of_nat i * R in
  let cursor := cursor_after buf m rowStart R pre in
  cursor < rowStart + R ->
  (plain_columns pre = true -> cursor = rowStart + column_start pre) /\
  exists result row,
    parse p buf tableName = Some result /\ error result = None /\
    rows result !! i = Some row /\
    (col_array col = false ->
       exists strOffset v,
         readBigInt64LE buf cursor = Some strOffset /\
         row !! fieldName col (length pre) = Some v /\
         (strOffset < 0 -> v = VNull) /\
         (0 <= strOffset -> buf_length buf <= m + strOffset -> v = VStr []) /\
         (0 <= strOffset -> forall k, first_zero_run buf (m + strOffset) k = true ->
            v = VStr (utf16le (take (2 * k) (drop (Z.to_nat (m + strOffset)) buf))))) /\
    (col_array col = true ->
       forall l (j : nat) v,
         row !! fieldName col (length pre) = Some (VArr l) -> l !! j = Some v ->
         exists arrayOffset strOffset,
           readBigInt64LE buf (cursor + 8) = Some arrayOffset /\ 0 <= arrayOffset /\
           readBigInt64LE buf (m + arrayOffset + 8 * Z.of_nat j) = Some strOffset /\
           string_decoding buf m strOffset v).
Proof.
  intros Ht Hrc Hpos Hm Hfound Hlen Hcols Hname Hty Hi R rowStart cursor Hfit.
  assert (Hparse : parse p buf tableName =
            Some (mkResult ((fun j : nat => parse_row buf m R table (Z.of_nat j)
                                              (4 + Z.of_nat j * R))
                              <$> seq 0 (Z.to_nat rc)) rc None)).
  { unfold R. subst m. apply parse_known; assumption. }
  destruct (magic_inside buf m Hm Hfound) as [Hm4 Hm8].
  destruct (rows_inside rc m i Hpos Hm4 Hi) as [Hlo Hhi]. fold R rowStart in Hlo, Hhi.
  assert (Hge : rowStart <= cursor) by apply parse_columns_cursor_ge.
  split.
  { intros Hplain. apply cursor_plain_inside; [lia | exact Hplain | exact Hfit]. }
  eexists _, (parse_row buf m R table (Z.of_nat i) rowStart).
  split; [exact Hparse |].
  split; [reflexivity |]. cbn [rows].
  split.
  { rewrite list_lookup_fmap, lookup_seq_lt by lia. reflexivity. }
  rewrite (parse_row_field buf m R table (Z.of_nat i) _ pre col post Hcols Hname Hfit).
  fold cursor. unfold column_value, column_read. rewrite Hty.
  split.
  - intros ->.
    assert (Hread : is_Some (readBigInt64LE buf cursor)).
    { unfold readBigInt64LE.
      destruct (readUIntLE_is_Some buf cursor 8) as [u ->]; [lia | lia |]. cbn. eauto. }
    destruct Hread as [strOffset Hread].
    destruct (string_value buf cursor m strOffset ltac:(lia) Hlen Hread)
      as (v & Hv & Hneg & Hout & Htext).
    exists strOffset, v. rewrite Hv. auto.
  - intros -> l j v Hrow Hj.
    destruct (readArray buf cursor m TString) as [[v' n] |] eqn:E; [| discriminate].
    injection Hrow as ->.
    exact (readArray_string_elements buf cursor m l n j v ltac:(lia) Hlen E Hj).
Qed.

(** Scenario S3: in row 0 the column [s] stands at byte 8, holds the offset
    8 and decodes to the string hi, read at 60 + 8, where 60 is the
    position of the magic; in row 1 it holds -1 and decodes to null.  In
    the table of names the second element of the array is the decoding of
    the 8 bytes at 20 + 8 + 8, where 20 is the position of the magic. *)
Lemma string_field_decoding_witness :
  (exists result row,
     parse p3 b3 "foo" = Some result /\ rows result !! 0%nat = Some row /\
     cursor_after b3 60 4 28 [mkColumn (Some "a") false TI32] = 8 /\
     readBigInt64LE b3 8 = Some 8 /\ indexOf b3 VARIABLE_DATA_MAGIC 4 = 60 /\
     row !! "s" = Some (VStr [104; 105]))
  /\ (exists result row,
        parse p3 b3 "foo" = Some result /\ rows result !! 1%nat = Some row /\
        row !! "s" = Some VNull)
  /\ (exists result row,
        parse p_names b_names "names" = Some result /\ rows result !! 0%nat = Some row /\
        row !! "names" = Some (VArr [VStr [104; 105]; VNull]) /\
        exists strOffset,
          readBigInt64LE b_names (20 + 8 + 8 * 1) = Some strOffset /\
          string_decoding b_names 20 strOffset VNull).
Proof.
  assert (Hname : keeps_name [mkColumn (Some "a") false TI32]
                    (mkColumn (Some "s") false TString) [mkColumn None true TI32]).
  { split; [vm_compute; discriminate |].
    intros [| j] c Hj; [| destruct j; discriminate Hj].
    injection Hj as <-. vm_compute. discriminate. }
  split; [| split].
  - destruct (string_field_decoding p3 b3 "foo" t3 2 60 [mkColumn (Some "a") false TI32]
                (mkColumn (Some "s") false TString) [mkColumn None true TI32] 0
                ltac:(vm_compute; reflexivity) ltac:(vm_compute; reflexivity) ltac:(lia)
                ltac:(vm_compute; reflexivity) ltac:(lia) ltac:(vm_compute; reflexivity)
                eq_refl Hname eq_refl ltac:(lia) ltac:(vm_compute; reflexivity))
      as (_ & result & row & Hp & _ & Hrow & Hscalar & _).
    destruct (Hscalar eq_refl) as (strOffset & v & Hoff & Hv & _ & _ & Htext).
    assert (strOffset = 8) as -> by (vm_compute in Hoff; congruence).
    exists result, row. split; [exact Hp |]. split; [exact Hrow |].
    split; [vm_compute; reflexivity |].
    split; [vm_compute; reflexivity |]. split; [vm_compute; reflexivity |].
    etransitivity; [exact Hv |]. f_equal.
    exact (Htext ltac:(lia) 2%nat ltac:(vm_compute; reflexivity)).
  - destruct (string_field_decoding p3 b3 "foo" t3 2 60 [mkColumn (Some "a") false TI32]
                (mkColumn (Some "s") false TString) [mkColumn None true TI32] 1
                ltac:(vm_compute; reflexivity) ltac:(vm_compute; reflexivity) ltac:(lia)
                ltac:(vm_compute; reflexivity) ltac:(lia) ltac:(vm_compute; reflexivity)
                eq_refl Hname eq_refl ltac:(lia) ltac:(vm_compute; reflexivity))
      as (_ & result & row & Hp & _ & Hrow & Hscalar & _).
    destruct (Hscalar eq_refl) as (strOffset & v & Hoff & Hv & Hneg & _).
    assert (strOffset = -1) as -> by (vm_compute in Hoff; congruence).
    exists result, row. split; [exact Hp |]. split; [exact Hrow |].
    etransitivity; [exact Hv |]. f_equal. exact (Hneg ltac:(lia)).
  - destruct (string_field_decoding p_names b_names "names" t_names 1 20 []
                (mkColumn (Some "names") true TString) [] 0
                ltac:(vm_compute; reflexivity) ltac:(vm_compute; reflexivity) ltac:(lia)
                ltac:(vm_compute; reflexivity) ltac:(lia) ltac:(vm_compute; reflexivity)
                eq_refl
                ltac:(split; [vm_compute; discriminate | intros j c Hj; discriminate Hj])
                eq_refl ltac:(lia) ltac:(vm_compute; reflexivity))
      as (_ & result & row & Hp & _ & Hrow & _ & Harray).
    assert (Hval : row !! "names" = Some (VArr [VStr [104; 105]; VNull])).
    { assert (Hall : (parse p_names b_names "names"
                        ≫= fun r => rows r !! 0%nat ≫= fun row => row !! "names")
                     = Some (VArr [VStr [104; 105]; VNull])) by (vm_compute; reflexivity).
      rewrite Hp in Hall. cbn [mbind option_bind] in Hall.
      rewrite Hrow in Hall. exact Hall. }
    exists result, row. split; [exact Hp |]. split; [exact Hrow |]. split; [exact Hval |].
    destruct (Harray eq_refl [VStr [104; 105]; VNull] 1%nat VNull Hval eq_refl)
      as (arrayOffset & strOffset & Ha & _ & Hs & Hdec).
    assert (arrayOffset = 8) as -> by (vm_compute in Ha; congruence).
    exists strOffset. split; [exact Hs | exact Hdec].
Defined.
End DatRowsProofs.

(* ===================================================================== *)
(** * The archive reader: round trips and listings *)
(* ===================================================================== *)

Module GgpkFilesProofs.
Import Js Ggpk GgpkFiles JsFacts GgpkProofs DatSpecProofs.

(** ** Encodings and what the reads recover *)

Lemma length_bytes l : length (bytes l) = length l.
Proof. unfold bytes. apply length_fmap. Qed.

Lemma length_le_bytes n z : length (le_bytes n z) = n.
Proof. revert z. induction n as [| n IH]; intros z; cbn; [reflexivity | rewrite IH; reflexivity]. Qed.

Lemma le_value_le_bytes n : forall z,
  le_value (bytes (le_bytes n z)) = z mod 256 ^ Z.of_nat n.
Proof.
  induction n as [| n IH]; intros z.
  - cbn. rewrite Z.mod_1_r. reflexivity.
  - cbn [le_bytes bytes fmap list_fmap le_value].
    change (byte_of <$> le_bytes n (z / 256)) with (bytes (le_bytes n (z / 256))).
    rewrite IH, byte_val_byte_of, Z.mod_mod by lia.
    rewrite Nat2Z.inj_succ, Z.pow_succ_r by lia.
    rewrite Z.rem_mul_r by lia. reflexivity.
Qed.

Lemma le_value_app_take n (z : Z) (rest : list byte) :
  le_value (take n (bytes (le_bytes n z) ++ rest)) = z mod 256 ^ Z.of_nat n.
Proof.
  rewrite take_app_le by (rewrite length_bytes, length_le_bytes; lia).
  rewrite take_ge by (rewrite length_bytes, length_le_bytes; lia).
  apply le_value_le_bytes.
Qed.

Lemma utf16le_encode units :
  Forall (fun u => 0 <= u < 65536) units ->
  utf16le (encode_utf16 units) = units.
Proof.
  induction 1 as [| u units Hu _ IH]; [reflexivity |].
  cbn [encode_utf16 mbind list_bind app utf16le] in *.
  change (units ≫= _) with (encode_utf16 units). rewrite IH.
  rewrite !byte_val_byte_of. f_equal.
  rewrite (Z.mod_small (u / 256)) by (split; [apply Z.div_pos; lia | apply Z.div_lt_upper_bound; lia]).
  pose proof (Z.div_mod u 256 ltac:(lia)). lia.
Qed.

Lemma length_encode_utf16 units : length (encode_utf16 units) = (2 * length units)%nat.
Proof.
  induction units as [| u units IH]; [reflexivity |].
  cbn [encode_utf16 mbind list_bind app length] in *.
  change (units ≫= _) with (encode_utf16 units). rewrite IH. lia.
Qed.

(** ** Positioned reads *)

Lemma archive_range_lookups archive offset n :
  0 <= offset ->
  archive_range archive offset (Z.of_nat n)
  = (fun i : nat => default x00 (archive !! (Z.to_nat offset + i)%nat)) <$> seq 0 n.
Proof.
  intros Hoff. unfold archive_range. rewrite Nat2Z.id.
  apply list_eq. intros i.
  rewrite list_lookup_fmap.
  destruct (decide (i < n)%nat) as [Hi | Hi].
  - rewrite lookup_seq_lt by exact Hi. cbn.
    destruct (decide (i < length (take n (drop (Z.to_nat offset) archive)))%nat) as [Hl | Hl].
    + rewrite lookup_app_l by exact Hl. rewrite lookup_take_lt by exact Hi.
      rewrite lookup_drop.
      rewrite length_take, length_drop in Hl.
      destruct (archive !! (Z.to_nat offset + i)%nat) eqn:E; [reflexivity |].
      apply lookup_ge_None in E. lia.
    + rewrite lookup_app_r by lia. rewrite lookup_replicate_2.
      * rewrite length_take, length_drop in Hl.
        rewrite (proj2 (lookup_ge_None archive (Z.to_nat offset + i)%nat)) by lia.
        reflexivity.
      * rewrite length_take, length_drop in *. lia.
  - rewrite lookup_seq_ge by lia. cbn.
    apply lookup_ge_None. rewrite length_app, length_replicate, length_take, length_drop. lia.
Qed.

Lemma archive_range_split archive offset a b :
  0 <= offset -> 0 <= a -> 0 <= b ->
  archive_range archive offset (a + b)
  = archive_range archive offset a ++ archive_range archive (offset + a) b.
Proof.
  intros Hoff Ha Hb.
  replace (a + b) with (Z.of_nat (Z.to_nat a + Z.to_nat b)) by lia.
  replace a with (Z.of_nat (Z.to_nat a)) at 2 3 by lia.
  replace b with (Z.of_nat (Z.to_nat b)) at 2 by lia.
  rewrite !archive_range_lookups by lia.
  rewrite seq_app, fmap_app. f_equal.
  replace (seq (0 + Z.to_nat a) (Z.to_nat b))
    with (Nat.add (Z.to_nat a) <$> seq 0 (Z.to_nat b))
    by (rewrite fmap_add_seq; f_equal; lia).
  rewrite <- list_fmap_compose.
  apply list_fmap_ext. intros _ i _. cbn. do 2 f_equal. lia.
Qed.

Lemma readAtOffset_range kMax archive offset n :
  0 <= n <= kMax -> 0 <= offset < 2 ^ 53 ->
  readAtOffset kMax archive offset n = Some (archive_range archive offset n).
Proof.
  intros Hn Hoff. unfold readAtOffset.
  destruct (Z.ltb_spec n 0); [lia |]. destruct (Z.ltb_spec kMax n); [lia |]. cbn [orb].
  unfold Number_of_BigInt. rewrite to_double_exact by lia.
  destruct (Z.ltb_spec offset 0); [lia |]. reflexivity.
Qed.

(** A range that lies inside a piece of the archive is a prefix of what
    follows its start. *)
Lemma archive_range_inside (pre body post : list byte) offset n :
  offset = Z.of_nat (length pre) -> 0 <= n <= Z.of_nat (length body) ->
  archive_range (pre ++ body ++ post) offset n = take (Z.to_nat n) body.
Proof.
  intros -> Hn. unfold archive_range. rewrite Nat2Z.id, drop_app_length.
  rewrite take_app_le by lia.
  rewrite length_take. replace (Z.to_nat n - Z.to_nat n `min` length body)%nat with 0%nat by lia.
  apply app_nil_r.
Qed.

(** ** extractFile *)

Lemma archive_range_length archive offset n :
  0 <= n -> Z.of_nat (length (archive_range archive offset n)) = n.
Proof.
  intros Hn. unfold archive_range. rewrite length_app, length_replicate, length_take. lia.
Qed.

Lemma copy_chunks_range kMax archive chunk :
  0 < chunk <= kMax -> forall fuel remaining currentOffset written,
  0 <= remaining <= Z.of_nat fuel -> 0 <= currentOffset ->
  currentOffset + remaining < 2 ^ 53 ->
  copy_chunks kMax archive chunk fuel remaining currentOffset written
  = (Done, written ++ archive_range archive currentOffset remaining).
Proof.
  intros Hc. induction fuel as [| fuel IH]; intros remaining off written Hrem Hoff Hmax.
  - assert (remaining = 0) as -> by lia. cbn. rewrite app_nil_r. reflexivity.
  - cbn [copy_chunks]. destruct (Z.ltb_spec 0 remaining) as [Hpos | Hzero].
    + rewrite readAtOffset_range by lia.
      rewrite IH by lia. rewrite <- app_assoc. do 2 f_equal.
      rewrite <- archive_range_split by lia. f_equal. lia.
    + assert (remaining = 0) as -> by lia. cbn. rewrite app_nil_r. reflexivity.
Qed.

Lemma extractFile_range kMax archive fileRecord outputPath (files : gmap string Buffer) :
  CHUNK_SIZE <= kMax ->
  0 <= dataOffset fileRecord -> 0 <= dataLength fileRecord ->
  dataOffset fileRecord + dataLength fileRecord < 2 ^ 53 ->
  extractFile kMax archive fileRecord outputPath files
  = (Done, <[outputPath :=
               archive_range archive (dataOffset fileRecord) (dataLength fileRecord)]> files).
Proof.
  intros Hk Hoff Hlen Hmax. unfold extractFile.
  destruct (Z.ltb_spec CHUNK_SIZE (dataLength fileRecord)) as [Hbig | Hsmall].
  - rewrite (copy_chunks_range kMax archive CHUNK_SIZE) by (unfold CHUNK_SIZE in *; lia).
    reflexivity.
  - rewrite readAtOffset_range by lia. reflexivity.
Qed.

(** X14: extractFile writes the dataLength bytes at dataOffset, zeros for
    what lies past the end of the archive, whether it copies in one read or
    in chunks; a negative dataLength throws and writes nothing. *)
Theorem extractFile_writes_payload kMax archive fileRecord outputPath
    (files : gmap string Buffer) :
  CHUNK_SIZE <= kMax ->
  0 <= dataOffset fileRecord ->
  dataOffset fileRecord + Z.max 0 (dataLength fileRecord) < 2 ^ 53 ->
  (0 <= dataLength fileRecord ->
   extractFile kMax archive fileRecord outputPath files
   = (Done, <[outputPath :=
                archive_range archive (dataOffset fileRecord) (dataLength fileRecord)]> files)
   /\ Z.of_nat (length (archive_range archive (dataOffset fileRecord)
                           (dataLength fileRecord))) = dataLength fileRecord)
  /\ (dataLength fileRecord < 0 ->
      extractFile kMax archive fileRecord outputPath files = (Threw, files)).
Proof.
  intros Hk Hoff Hmax. split.
  - intros Hlen. split; [| apply archive_range_length; exact Hlen].
    apply extractFile_range; lia.
  - intros Hneg. unfold extractFile.
    destruct (Z.ltb_spec CHUNK_SIZE (dataLength fileRecord));
      [unfold CHUNK_SIZE in *; lia |].
    unfold readAtOffset. destruct (Z.ltb_spec (dataLength fileRecord) 0); [| lia].
    reflexivity.
Qed.

(** The chunked loop on a small example: 10 bytes copied 4 at a time. *)
Example copy_chunks_by_four :
  copy_chunks 1000 (bytes [0; 1; 2; 3; 4; 5; 6; 7; 8; 9; 10; 11]) 4 10 10 1 []
  = (Done, bytes [1; 2; 3; 4; 5; 6; 7; 8; 9; 10]).
Proof. vm_compute. reflexivity. Qed.

Lemma extractFile_writes_payload_witness :
  extractFile (2 ^ 30) archive_a (mkFileRecord 64 61 (code_units "a.txt") hash0 120 5)
    "out/a.txt" ∅
  = (Done, {[ "out/a.txt" := bytes (code_units "hello") ]}).
Proof.
  exact (proj1 (proj1 (extractFile_writes_payload (2 ^ 30) archive_a
                         (mkFileRecord 64 61 (code_units "a.txt") hash0 120 5) "out/a.txt" ∅
                         ltac:(vm_compute; discriminate) ltac:(cbn; lia)
                         ltac:(vm_compute; reflexivity))
                  ltac:(cbn; lia))).
Defined.

(** ** Records laid out in the archive *)

Lemma take_app_piece m (a x b : list byte) :
  (length a + length x <= m)%nat ->
  take m (a ++ x ++ b) = a ++ x ++ take (m - length a - length x) b.
Proof.
  intros Hm. rewrite take_app_ge by lia. rewrite take_app_ge by lia. reflexivity.
Qed.

Lemma readUIntLE_take_app m (a x b : list byte) off n :
  off = Z.of_nat (length a) -> length x = n -> (length a + n <= m)%nat ->
  readUIntLE (take m (a ++ x ++ b)) off n = Some (le_value x).
Proof.
  intros -> Hx Hm. unfold readUIntLE. rewrite take_app_piece by lia.
  rewrite read_bytes_Some.
  - cbn. do 2 f_equal. rewrite Nat2Z.id, drop_app_length.
    subst n. apply take_app_length.
  - lia.
  - unfold buf_length. rewrite !length_app. lia.
Qed.

Lemma slice_take_app m (a x b : list byte) s e :
  s = Z.of_nat (length a) -> e = s + Z.of_nat (length x) -> (length a + length x <= m)%nat ->
  slice (take m (a ++ x ++ b)) s e = x.
Proof.
  intros -> -> Hm. unfold slice. rewrite take_app_piece by lia. rewrite Nat2Z.id.
  replace (Z.to_nat (Z.of_nat (length a) + Z.of_nat (length x) - Z.of_nat (length a)))
    with (length x) by lia.
  rewrite drop_app_length. apply take_app_length.
Qed.

Lemma tag_is_take_app m (a b : list byte) (tag : string) :
  length a = 4%nat -> (8 <= m)%nat -> length (code_units tag) = 4%nat ->
  Forall (fun u => 0 <= u < 256) (code_units tag) ->
  tag_is (take m (a ++ bytes (code_units tag) ++ b)) tag = true.
Proof.
  intros Ha Hm Ht Hr. unfold tag_is. apply bool_decide_eq_true.
  rewrite (slice_take_app m a (bytes (code_units tag)) b)
    by (rewrite ?length_bytes; lia).
  unfold bytes. rewrite <- list_fmap_compose.
  rewrite <- (list_fmap_id (code_units tag)) at 2.
  apply Forall_fmap_ext_1. eapply Forall_impl; [exact Hr |].
  intros u Hu. cbn. rewrite byte_val_byte_of. apply Z.mod_small. exact Hu.
Qed.

Lemma code_units_FILE_ok :
  length (code_units "FILE") = 4%nat /\ Forall (fun u => 0 <= u < 256) (code_units "FILE").
Proof. split; [reflexivity |]. repeat constructor; cbn; lia. Qed.

Lemma code_units_PDIR_ok :
  length (code_units "PDIR") = 4%nat /\ Forall (fun u => 0 <= u < 256) (code_units "PDIR").
Proof. split; [reflexivity |]. repeat constructor; cbn; lia. Qed.

Lemma code_units_GGPK_ok :
  length (code_units "GGPK") = 4%nat /\ Forall (fun u => 0 <= u < 256) (code_units "GGPK").
Proof. split; [reflexivity |]. repeat constructor; cbn; lia. Qed.

(** X10: a FILE record laid out anywhere in the archive is read back with
    its name, hash, offset and length, and extracting the record that was
    read writes exactly the payload. *)
Theorem file_record_round_trip kMax (pre post : list byte) name hash payload :
  let archive := pre ++ file_record_bytes name hash payload ++ post in
  let offset := Z.of_nat (length pre) in
  let N := Z.of_nat (length name) + 1 in
  let L := 8 + 4 + 32 + 2 * N + Z.of_nat (length payload) in
  length hash = 32%nat ->
  Forall (fun u => 0 <= u < 65536) name ->
  L < 2 ^ 32 -> offset + L < 2 ^ 53 ->
  8 + 4 + 32 + 2 * N <= kMax -> CHUNK_SIZE <= kMax ->
  let record := mkFileRecord offset L name hash (offset + 44 + 2 * N)
                  (Z.of_nat (length payload)) in
  readRecord kMax archive offset = Some (FILE record) /\
  forall outputPath (files : gmap string Buffer),
    extractFile kMax archive record outputPath files
    = (Done, <[outputPath := payload]> files).
Proof.
  intros archive offset N L Hhash Hname HL Hmax Hk Hchunk record.
  set (A := bytes (le_bytes 4 L)).
  set (T := bytes (code_units "FILE")).
  set (NL := bytes (le_bytes 4 N)).
  set (NM := encode_utf16 name).
  set (body := file_record_bytes name hash payload).
  assert (Hbody : body = A ++ T ++ NL ++ hash ++ NM ++ [x00; x00] ++ payload) by reflexivity.
  assert (HA : length A = 4%nat) by reflexivity.
  assert (HT : length T = 4%nat) by reflexivity.
  assert (HNL : length NL = 4%nat) by reflexivity.
  assert (HNM : length NM = (2 * length name)%nat) by apply length_encode_utf16.
  assert (Hlen : Z.of_nat (length body) = L).
  { rewrite Hbody, !length_app, HA, HT, HNL, Hhash, HNM. cbn [length]. lia. }
  assert (Hrange : forall n, 0 <= n <= L -> n <= kMax ->
            readAtOffset kMax archive offset n = Some (take (Z.to_nat n) body)).
  { intros n Hn Hnk. rewrite readAtOffset_range by lia.
    f_equal. apply archive_range_inside; [reflexivity | lia]. }
  split.
  - unfold readRecord. rewrite Hrange by lia. cbn [mbind option_bind].
    assert (H0 : readUInt32LE (take (Z.to_nat 8) body) 0 = Some L).
    { unfold readUInt32LE. rewrite Hbody.
      rewrite <- (app_nil_l (A ++ _)).
      rewrite (readUIntLE_take_app _ [] A) by (cbn; lia).
      f_equal. unfold A. rewrite le_value_le_bytes. apply Z.mod_small. lia. }
    rewrite H0. cbn [mbind option_bind].
    destruct (Z.ltb_spec L 8); [lia |].
    assert (Htag : tag_is (take (Z.to_nat 8) body) "FILE" = true).
    { rewrite Hbody. apply tag_is_take_app; try apply code_units_FILE_ok; lia. }
    rewrite Htag.
    unfold parseFileRecordLazy. rewrite Hrange by lia. cbn [mbind option_bind].
    assert (H8 : readUInt32LE (take (Z.to_nat 16) body) 8 = Some N).
    { unfold readUInt32LE. rewrite Hbody.
      replace (A ++ T ++ NL ++ hash ++ NM ++ [x00; x00] ++ payload)
        with ((A ++ T) ++ NL ++ hash ++ NM ++ [x00; x00] ++ payload)
        by (rewrite <- app_assoc; reflexivity).
      rewrite (readUIntLE_take_app _ (A ++ T) NL) by (rewrite ?length_app; lia).
      f_equal. unfold NL. rewrite le_value_le_bytes. apply Z.mod_small. lia. }
    rewrite H8. cbn [mbind option_bind].
    rewrite Hrange by lia. cbn [mbind option_bind fmap option_fmap option_map].
    do 2 f_equal. unfold record. f_equal; try lia.
    + rewrite Hbody.
      replace (A ++ T ++ NL ++ hash ++ NM ++ [x00; x00] ++ payload)
        with ((A ++ T ++ NL ++ hash) ++ NM ++ [x00; x00] ++ payload)
        by (rewrite <- !app_assoc; reflexivity).
      rewrite slice_take_app; [apply utf16le_encode; exact Hname | | |];
        rewrite ?length_app; lia.
    + rewrite Hbody.
      replace (A ++ T ++ NL ++ hash ++ NM ++ [x00; x00] ++ payload)
        with ((A ++ T ++ NL) ++ hash ++ NM ++ [x00; x00] ++ payload)
        by (rewrite <- !app_assoc; reflexivity).
      rewrite slice_take_app; [reflexivity | | |]; rewrite ?length_app; lia.
  - intros outputPath files.
    rewrite (extractFile_range kMax archive record outputPath files Hchunk)
      by (cbn; lia).
    cbn [dataOffset dataLength record].
    do 2 f_equal.
    unfold archive. fold body.
    replace (pre ++ body ++ post)
      with ((pre ++ A ++ T ++ NL ++ hash ++ NM ++ [x00; x00]) ++ payload ++ post).
    + rewrite archive_range_inside; [rewrite Nat2Z.id; apply firstn_all | | lia].
      rewrite !length_app, HA, HT, HNL, Hhash, HNM. cbn [length]. lia.
    + rewrite Hbody, <- !app_assoc. reflexivity.
Qed.

Lemma file_record_round_trip_witness :
  readRecord (2 ^ 30) archive_S2 off_a
  = Some (FILE (mkFileRecord off_a 61 (code_units "a.txt") hash0 (off_a + 44 + 2 * 6) 5)).
Proof.
  exact (proj1 (file_record_round_trip (2 ^ 30)
                  (header_bytes 28 3 off_root ++ replicate 12 x00 ++ rec_root off_a off_sub)
                  (rec_sub off_b ++ rec_b)
                  (code_units "a.txt") hash0 (bytes (code_units "hello"))
                  eq_refl ltac:(repeat constructor; cbn; lia)
                  ltac:(vm_compute; reflexivity) ltac:(vm_compute; reflexivity)
                  ltac:(vm_compute; discriminate)
                  ltac:(vm_compute; discriminate))).
Defined.

Lemma readUIntLE_app (a x b : list byte) off n :
  off = Z.of_nat (length a) -> length x = n ->
  readUIntLE (a ++ x ++ b) off n = Some (le_value x).
Proof.
  intros Ha Hx.
  rewrite <- (take_ge (a ++ x ++ b) (length (a ++ x ++ b))) by lia.
  apply readUIntLE_take_app; [exact Ha | exact Hx |]. rewrite !length_app. lia.
Qed.

Lemma slice_app (a x b : list byte) s e :
  s = Z.of_nat (length a) -> e = s + Z.of_nat (length x) -> slice (a ++ x ++ b) s e = x.
Proof.
  intros Hs He.
  rewrite <- (take_ge (a ++ x ++ b) (length (a ++ x ++ b))) by lia.
  apply slice_take_app; [exact Hs | exact He |]. rewrite !length_app. lia.
Qed.

Lemma archive_range_app_prefix (a r : list byte) n :
  Z.of_nat (length a) <= n ->
  archive_range (a ++ r) 0 n = a ++ archive_range r 0 (n - Z.of_nat (length a)).
Proof.
  intros Hn. unfold archive_range. change (Z.to_nat 0) with 0%nat. rewrite !drop_0.
  rewrite take_app_ge by lia. rewrite <- app_assoc. do 2 f_equal.
  - f_equal. lia.
  - f_equal. rewrite length_app, !length_take. lia.
Qed.

(** X8: readHeader recovers the version and the first record offset of a
    header laid out as length, GGPK, version, offset, whatever the length
    field says and whatever follows. *)
Theorem readHeader_round_trip kMax recordLength version firstRecord (rest : list byte) :
  32 <= kMax -> 0 <= version < 2 ^ 32 -> 0 <= firstRecord < 2 ^ 64 ->
  readHeader kMax (header_bytes recordLength version firstRecord ++ rest)
  = Some (mkHeader version firstRecord).
Proof.
  intros Hk Hv Ho. unfold readHeader.
  rewrite readAtOffset_range by lia.
  rewrite archive_range_app_prefix by (cbn; lia).
  unfold header_bytes.
  set (A := bytes (le_bytes 4 recordLength)).
  set (T := bytes (code_units "GGPK")).
  set (V := bytes (le_bytes 4 version)).
  set (O := bytes (le_bytes 8 firstRecord)).
  set (tail := archive_range rest 0 _).
  cbn [mbind option_bind].
  assert (H0 : readUInt32LE ((A ++ T ++ V ++ O) ++ tail) 0 = Some (le_value A)).
  { unfold readUInt32LE. rewrite <- !app_assoc. rewrite <- (app_nil_l (A ++ _)).
    apply readUIntLE_app; reflexivity. }
  rewrite H0. cbn [mbind option_bind].
  assert (Htag : tag_is ((A ++ T ++ V ++ O) ++ tail) "GGPK" = true).
  { rewrite <- !app_assoc.
    rewrite <- (take_ge (A ++ _) (length (A ++ T ++ V ++ O ++ tail))) by lia.
    apply tag_is_take_app;
      [reflexivity | rewrite !length_app; cbn; lia
      | apply code_units_GGPK_ok | apply code_units_GGPK_ok]. }
  rewrite Htag. cbn [negb].
  assert (H8 : readUInt32LE ((A ++ T ++ V ++ O) ++ tail) 8 = Some version).
  { unfold readUInt32LE.
    replace ((A ++ T ++ V ++ O) ++ tail) with ((A ++ T) ++ V ++ O ++ tail)
      by (rewrite <- !app_assoc; reflexivity).
    rewrite readUIntLE_app by reflexivity.
    f_equal. unfold V. rewrite le_value_le_bytes. apply Z.mod_small. lia. }
  rewrite H8. cbn [mbind option_bind].
  assert (H12 : readBigUInt64LE ((A ++ T ++ V ++ O) ++ tail) 12 = Some firstRecord).
  { unfold readBigUInt64LE.
    replace ((A ++ T ++ V ++ O) ++ tail) with ((A ++ T ++ V) ++ O ++ tail)
      by (rewrite <- !app_assoc; reflexivity).
    rewrite readUIntLE_app by reflexivity.
    f_equal. unfold O. rewrite le_value_le_bytes. apply Z.mod_small. lia. }
  rewrite H12. reflexivity.
Qed.

Lemma readHeader_round_trip_witness :
  readHeader 1000 archive_S2 = Some (mkHeader 3 32).
Proof.
  exact (readHeader_round_trip 1000 28 3 32 _ ltac:(lia) ltac:(lia) ltac:(lia)).
Defined.

Lemma header_tag kMax archive hdr :
  readAtOffset kMax archive 0 32 = Some hdr ->
  tag_is hdr "GGPK" = true <-> byte_val <$> take 4 (drop 4 archive) = code_units "GGPK".
Proof.
  intros Hh. unfold readAtOffset in Hh.
  destruct ((32 <? 0) || (kMax <? 32)); [discriminate |].
  change (Number_of_BigInt 0) with 0 in Hh. cbn [Z.ltb Z.compare Z.to_nat drop] in Hh.
  injection Hh as <-.
  unfold tag_is. rewrite bool_decide_eq_true.
  unfold slice. change (Z.to_nat (8 - 4)) with 4%nat.
  change (Z.to_nat 4) with 4%nat. change (Z.to_nat 32) with 32%nat.
  change (Z.to_nat 0) with 0%nat. rewrite drop_0.
  set (got := take 32 archive).
  assert (Hsame : (8 <= length got)%nat ->
            take 4 (drop 4 (got ++ replicate (32 - length got) x00)) = take 4 (drop 4 archive)).
  { intros Hlong. rewrite drop_app_le, take_app_le by (rewrite ?length_drop; lia).
    unfold got. rewrite skipn_firstn_comm, take_take. reflexivity. }
  split; intros Htag.
  - rewrite <- Hsame; [exact Htag |].
    destruct (decide (8 <= length got)%nat) as [Hl | Hs]; [exact Hl | exfalso].
    apply (f_equal (fun l => l !! 3%nat)) in Htag.
    rewrite list_lookup_fmap, lookup_take_lt, lookup_drop in Htag by lia.
    rewrite lookup_app_r, lookup_replicate_2 in Htag by lia.
    vm_compute in Htag. discriminate.
  - rewrite Hsame; [exact Htag |].
    apply (f_equal length) in Htag.
    rewrite length_fmap, length_take, length_drop in Htag.
    change (length (code_units "GGPK")) with 4%nat in Htag.
    unfold got. rewrite length_take. lia.
Qed.

(** X9: readHeader accepts an archive exactly when a buffer of 32 bytes can
    be allocated and bytes 4 to 7 of the archive spell GGPK; nothing else is
    checked, and a shorter archive is read as if padded with zeros. *)
Theorem readHeader_accepts_iff_magic kMax archive :
  is_Some (readHeader kMax archive) <->
  32 <= kMax /\ byte_val <$> take 4 (drop 4 archive) = code_units "GGPK".
Proof.
  unfold readHeader.
  destruct (readAtOffset kMax archive 0 32) as [hdr |] eqn:Hh.
  - pose proof (readAtOffset_length _ _ _ _ _ Hh) as Hlen.
    pose proof (header_tag _ _ _ Hh) as Htag.
    assert (Hk : 32 <= kMax).
    { unfold readAtOffset in Hh. destruct (Z.ltb_spec kMax 32); [| lia].
      rewrite orb_true_r in Hh. discriminate. }
    cbn [mbind option_bind].
    destruct (readUIntLE_is_Some hdr 0 4 ltac:(lia) ltac:(lia)) as [v0 H0].
    destruct (readUIntLE_is_Some hdr 8 4 ltac:(lia) ltac:(lia)) as [v8 H8].
    destruct (readUIntLE_is_Some hdr 12 8 ltac:(lia) ltac:(lia)) as [v12 H12].
    unfold readUInt32LE, readBigUInt64LE. rewrite H0, H8, H12. cbn [mbind option_bind].
    destruct (tag_is hdr "GGPK").
    + cbn. split; [intros _; split; [exact Hk | apply Htag; reflexivity] | eauto].
    + cbn. split; [intros [x Hx]; discriminate |].
      intros [_ Hm]. apply Htag in Hm. discriminate.
  - cbn. split; [intros [x Hx]; discriminate |]. intros [Hk _]. exfalso.
    unfold readAtOffset in Hh.
    destruct (Z.ltb_spec kMax 32); [lia |]. cbn in Hh. discriminate.
Qed.

(** A file of eight bytes that ends in GGPK is a valid header, of version 0
    with its first record at offset 0. *)
Example readHeader_truncated :
  readHeader 1000 (replicate 4 x00 ++ bytes (code_units "GGPK")) = Some (mkHeader 0 0).
Proof. vm_compute. reflexivity. Qed.

(** ** Directory records *)

Lemma asIntN_64_signed c : - 2 ^ 63 <= c < 2 ^ 63 -> asIntN 64 (c mod 2 ^ 64) = c.
Proof.
  intros Hc. unfold asIntN. rewrite Z.mod_mod by lia.
  change (2 ^ (64 - 1)) with (2 ^ 63).
  destruct (Z.lt_ge_cases c 0).
  - replace (c mod 2 ^ 64) with (c + 2 ^ 64).
    + destruct (Z.ltb_spec (c + 2 ^ 64) (2 ^ 63)); lia.
    + apply Z.mod_unique with (q := -1); lia.
  - rewrite Z.mod_small by lia. destruct (Z.ltb_spec c (2 ^ 63)); lia.
Qed.


Lemma read_entries_layout children : forall (a b : list byte) pos,
  pos = Z.of_nat (length a) ->
  Forall (fun c => - 2 ^ 63 <= snd c < 2 ^ 63) children ->
  read_entries (a ++ (children ≫= entry_bytes) ++ b) (length children) pos
  = Some (snd <$> children).
Proof.
  induction children as [| c children IH]; intros a b pos Hpos Hr; [reflexivity |].
  apply Forall_cons in Hr as [Hc Hr].
  cbn [length read_entries mbind list_bind fmap list_fmap].
  change (children ≫= entry_bytes) with (mbind entry_bytes children).
  set (h := bytes (le_bytes 4 (fst c))). set (o := bytes (le_bytes 8 (snd c))).
  assert (Ho : readBigInt64LE (a ++ ((h ++ o) ++ children ≫= entry_bytes) ++ b) (pos + 4)
               = Some (snd c)).
  { unfold readBigInt64LE.
    replace (a ++ ((h ++ o) ++ children ≫= entry_bytes) ++ b)
      with ((a ++ h) ++ o ++ (children ≫= entry_bytes) ++ b)
      by (rewrite <- !app_assoc; reflexivity).
    rewrite readUIntLE_app; [| rewrite length_app; cbn; lia | reflexivity].
    cbn [fmap option_fmap option_map]. f_equal. unfold o. rewrite le_value_le_bytes. apply asIntN_64_signed. exact Hc. }
  change (entry_bytes c) with (h ++ o).
  rewrite Ho. cbn [mbind option_bind].
  replace (a ++ ((h ++ o) ++ children ≫= entry_bytes) ++ b)
    with ((a ++ h ++ o) ++ (children ≫= entry_bytes) ++ b)
    by (rewrite <- !app_assoc; reflexivity).
  rewrite IH; [reflexivity | | exact Hr].
  rewrite !length_app. cbn. lia.
Qed.

(** X11: a PDIR record laid out anywhere in the archive is read back with
    its name, hash, length and the offsets of its children, in order. *)
Theorem directory_record_round_trip kMax (pre post : list byte) name hash children :
  let archive := pre ++ directory_record_bytes name hash children ++ post in
  let offset := Z.of_nat (length pre) in
  let N := Z.of_nat (length name) + 1 in
  let L := 8 + 4 + 4 + 32 + 2 * N + 12 * Z.of_nat (length children) in
  length hash = 32%nat ->
  Forall (fun u => 0 <= u < 65536) name ->
  Forall (fun c => - 2 ^ 63 <= snd c < 2 ^ 63) children ->
  L < 2 ^ 32 -> offset + L < 2 ^ 53 -> L <= kMax ->
  readRecord kMax archive offset
  = Some (PDIR (mkDirectoryRecord offset L name hash (snd <$> children))).
Proof.
  intros archive offset N L Hhash Hname Hch HL Hmax Hk.
  set (A := bytes (le_bytes 4 L)).
  set (T := bytes (code_units "PDIR")).
  set (NL := bytes (le_bytes 4 N)).
  set (C := bytes (le_bytes 4 (Z.of_nat (length children)))).
  set (NM := encode_utf16 name).
  set (E := children ≫= entry_bytes).
  set (body := directory_record_bytes name hash children).
  assert (Hbody : body = A ++ T ++ NL ++ C ++ hash ++ NM ++ [x00; x00] ++ E) by reflexivity.
  assert (HNM : length NM = (2 * length name)%nat) by apply length_encode_utf16.
  assert (HE : length E = (12 * length children)%nat).
  { unfold E. clear. induction children as [| c cs IH]; [reflexivity |].
    change ((c :: cs) ≫= entry_bytes) with (entry_bytes c ++ (cs ≫= entry_bytes)).
    rewrite length_app, IH. change (length (entry_bytes c)) with 12%nat.
    cbn [length]. lia. }
  assert (Hlen : Z.of_nat (length body) = L).
  { rewrite Hbody, !length_app, Hhash, HNM, HE. cbn [length]. cbn. lia. }
  assert (Hrange : forall n, 0 <= n <= L -> n <= kMax ->
            readAtOffset kMax archive offset n = Some (take (Z.to_nat n) body)).
  { intros n Hn Hnk. rewrite readAtOffset_range by lia.
    f_equal. apply archive_range_inside; [reflexivity | lia]. }
  unfold readRecord. rewrite Hrange by lia. cbn [mbind option_bind].
  assert (H0 : readUInt32LE (take (Z.to_nat 8) body) 0 = Some L).
  { unfold readUInt32LE. rewrite Hbody. rewrite <- (app_nil_l (A ++ _)).
    rewrite (readUIntLE_take_app _ [] A) by (cbn; lia).
    f_equal. unfold A. rewrite le_value_le_bytes. apply Z.mod_small. lia. }
  rewrite H0. cbn [mbind option_bind].
  destruct (Z.ltb_spec L 8); [lia |].
  assert (Hnf : tag_is (take (Z.to_nat 8) body) "FILE" = false).
  { assert (Htag : tag_is (take (Z.to_nat 8) body) "PDIR" = true).
    { rewrite Hbody. apply tag_is_take_app;
        [reflexivity | lia | apply code_units_PDIR_ok | apply code_units_PDIR_ok]. }
    unfold tag_is in *. apply bool_decide_eq_true in Htag.
    apply bool_decide_eq_false. rewrite Htag. discriminate. }
  rewrite Hnf.
  assert (Htag : tag_is (take (Z.to_nat 8) body) "PDIR" = true).
  { rewrite Hbody. apply tag_is_take_app;
      [reflexivity | lia | apply code_units_PDIR_ok | apply code_units_PDIR_ok]. }
  rewrite Htag. rewrite Hrange by lia. cbn [mbind option_bind].
  rewrite take_ge by lia.
  unfold parseDirectoryRecord.
  assert (H8 : readUInt32LE body 8 = Some N).
  { unfold readUInt32LE. rewrite Hbody.
    replace (A ++ T ++ NL ++ C ++ hash ++ NM ++ [x00; x00] ++ E)
      with ((A ++ T) ++ NL ++ C ++ hash ++ NM ++ [x00; x00] ++ E)
      by (rewrite <- !app_assoc; reflexivity).
    rewrite readUIntLE_app by reflexivity.
    f_equal. unfold NL. rewrite le_value_le_bytes. apply Z.mod_small. lia. }
  rewrite H8. cbn [mbind option_bind].
  assert (H12 : readUInt32LE body (8 + 4) = Some (Z.of_nat (length children))).
  { unfold readUInt32LE. rewrite Hbody.
    replace (A ++ T ++ NL ++ C ++ hash ++ NM ++ [x00; x00] ++ E)
      with ((A ++ T ++ NL) ++ C ++ hash ++ NM ++ [x00; x00] ++ E)
      by (rewrite <- !app_assoc; reflexivity).
    rewrite readUIntLE_app by reflexivity.
    f_equal. unfold C. rewrite le_value_le_bytes. apply Z.mod_small. lia. }
  rewrite H12. cbn [mbind option_bind]. rewrite Nat2Z.id.
  assert (Hent : read_entries body (length children) (8 + 4 + 4 + 32 + N * 2)
                 = Some (snd <$> children)).
  { rewrite Hbody.
    replace (A ++ T ++ NL ++ C ++ hash ++ NM ++ [x00; x00] ++ E)
      with ((A ++ T ++ NL ++ C ++ hash ++ NM ++ [x00; x00]) ++ E ++ [])
      by (rewrite <- !app_assoc, app_nil_r; reflexivity).
    apply read_entries_layout; [| exact Hch].
    rewrite !length_app, Hhash, HNM. cbn. lia. }
  rewrite Hent. cbn [mbind option_bind fmap option_fmap option_map].
  do 2 f_equal. f_equal.
  - unfold buf_length. exact Hlen.
  - rewrite Hbody.
    replace (A ++ T ++ NL ++ C ++ hash ++ NM ++ [x00; x00] ++ E)
      with ((A ++ T ++ NL ++ C ++ hash) ++ NM ++ [x00; x00] ++ E)
      by (rewrite <- !app_assoc; reflexivity).
    rewrite slice_app; [apply utf16le_encode; exact Hname | |];
      rewrite ?length_app, ?Hhash; cbn; lia.
  - rewrite Hbody.
    replace (A ++ T ++ NL ++ C ++ hash ++ NM ++ [x00; x00] ++ E)
      with ((A ++ T ++ NL ++ C) ++ hash ++ NM ++ [x00; x00] ++ E)
      by (rewrite <- !app_assoc; reflexivity).
    rewrite slice_app; [reflexivity | |]; rewrite ?length_app, ?Hhash; cbn; lia.
Qed.

Lemma directory_record_round_trip_witness :
  readRecord (2 ^ 30) archive_S2 32
  = Some (PDIR (mkDirectoryRecord 32 82 (code_units "ROOT") hash0 [off_a; off_sub])).
Proof.
  pose proof (directory_record_round_trip (2 ^ 30)
                (header_bytes 28 3 off_root ++ replicate 12 x00)
                (rec_a ++ rec_sub off_b ++ rec_b)
                (code_units "ROOT") hash0 [(1, off_a); (2, off_sub)]
                eq_refl) as H.
  cbv zeta in H.
  specialize (H ltac:(vm_compute code_units; repeat constructor; lia)).
  specialize (H ltac:(repeat constructor; vm_compute; intros [=])).
  specialize (H ltac:(vm_compute; reflexivity) ltac:(vm_compute; reflexivity)
                ltac:(vm_compute; intros [=])).
  vm_compute in H |- *. exact H.
Defined.

(** ** What readRecord returns, and when it throws *)

Lemma readAtOffset_inv kMax archive offset n buf :
  readAtOffset kMax archive offset n = Some buf ->
  0 <= n <= kMax /\ 0 <= Number_of_BigInt offset /\
  buf = archive_range archive (Number_of_BigInt offset) n.
Proof.
  unfold readAtOffset.
  destruct (Z.ltb_spec n 0); [discriminate |].
  destruct (Z.ltb_spec kMax n); [discriminate |]. cbn [orb].
  destruct (Z.ltb_spec (Number_of_BigInt offset) 0); [discriminate |].
  intros [= <-]. repeat split; lia.
Qed.

Lemma read_entries_inv buffer n : forall pos es,
  read_entries buffer n pos = Some es ->
  length es = n /\ (n <> 0%nat -> 0 <= pos + 4 /\ pos + 12 * Z.of_nat n <= buf_length buffer).
Proof.
  induction n as [| n IH]; intros pos es H.
  - injection H as <-. split; [reflexivity | congruence].
  - cbn [read_entries] in H.
    destruct (readBigInt64LE buffer (pos + 4)) as [e |] eqn:He; [| discriminate].
    cbn [mbind option_bind] in H.
    destruct (read_entries buffer n (pos + 4 + 8)) as [rest |] eqn:Hr; [| discriminate].
    injection H as <-. apply IH in Hr as [Hlen Hb].
    unfold readBigInt64LE in He.
    destruct (readUIntLE buffer (pos + 4) 8) as [v |] eqn:Hv; [| discriminate].
    apply readUIntLE_inv in Hv.
    split; [cbn; congruence |]. intros _. split; [lia |].
    destruct n as [| n]; [lia |]. specialize (Hb ltac:(discriminate)). lia.
Qed.

(** X12: at an offset that is not negative, a record that readRecord
    returns is the one that the eight bytes of the archive at the offset
    announce: the tag picks the kind, the record carries the offset asked
    for and the length field, which is at least 8 (16 for PDIR and FREE),
    and the entries of a directory all lie inside its length. *)
Theorem readRecord_result kMax archive offset r :
  0 <= offset ->
  readRecord kMax archive offset = Some r ->
  let header := archive_range archive (Number_of_BigInt offset) 8 in
  exists L, readUInt32LE header 0 = Some L /\ 8 <= L /\
    match r with
    | FILE f => tag_is header "FILE" = true /\ file_offset f = offset /\ file_length f = L
    | PDIR d =>
        tag_is header "PDIR" = true /\ dir_offset d = offset /\ dir_length d = L /\
        16 <= L <= kMax /\
        (entries d <> [] -> 48 + 12 * Z.of_nat (length (entries d)) <= L)
    | FREE fr =>
        tag_is header "FREE" = true /\ free_offset fr = offset /\ free_length fr = L /\
        16 <= L
    end.
Proof.
  intros _ H header. unfold readRecord in H.
  destruct (readAtOffset kMax archive offset 8) as [hb |] eqn:Hhb; [| discriminate].
  apply readAtOffset_inv in Hhb as (_ & _ & ->). fold header in H.
  cbn [mbind option_bind] in H.
  destruct (readUInt32LE header 0) as [L |] eqn:HL; [| discriminate].
  cbn [mbind option_bind] in H.
  destruct (Z.ltb_spec L 8); [discriminate |].
  exists L. split; [reflexivity |]. split; [assumption |].
  destruct (tag_is header "FILE") eqn:Tf.
  { destruct (parseFileRecordLazy kMax archive offset L) as [f |] eqn:Hf; [| discriminate].
    injection H as <-. unfold parseFileRecordLazy in Hf.
    destruct (readAtOffset kMax archive offset 16); [| discriminate].
    cbn [mbind option_bind] in Hf.
    destruct (readUInt32LE _ 8); [| discriminate]. cbn [mbind option_bind] in Hf.
    destruct (readAtOffset kMax archive offset _); [| discriminate].
    injection Hf as <-. repeat split. }
  destruct (tag_is header "PDIR") eqn:Tp.
  { destruct (readAtOffset kMax archive offset L) as [pb |] eqn:Hpb; [| discriminate].
    cbn [mbind option_bind] in H.
    pose proof (readAtOffset_length _ _ _ _ _ Hpb) as Hlen.
    apply readAtOffset_inv in Hpb as (Hk & _ & _).
    destruct (parseDirectoryRecord offset pb) as [d |] eqn:Hd; [| discriminate].
    injection H as <-. unfold parseDirectoryRecord in Hd.
    destruct (readUInt32LE pb 8) as [N |] eqn:HN; [| discriminate].
    cbn [mbind option_bind] in Hd.
    destruct (readUInt32LE pb (8 + 4)) as [c |] eqn:Hc; [| discriminate].
    cbn [mbind option_bind] in Hd.
    destruct (read_entries pb (Z.to_nat c) _) as [es |] eqn:Hes; [| discriminate].
    injection Hd as <-. cbn.
    pose proof (readUIntLE_range _ _ _ _ HN) as HNr.
    apply readUIntLE_inv in Hc.
    apply read_entries_inv in Hes as [Hn Hb].
    repeat split; try lia.
    intros Hne. destruct es as [| e es]; [congruence |].
    rewrite Hn in *. specialize (Hb ltac:(rewrite <- Hn; discriminate)). lia. }
  destruct (tag_is header "FREE") eqn:Tr; [| discriminate].
  destruct (readAtOffset kMax archive offset (Z.min L 24)) as [fb |] eqn:Hfb; [| discriminate].
  cbn [mbind option_bind] in H.
  pose proof (readAtOffset_length _ _ _ _ _ Hfb) as Hlen.
  unfold parseFreeRecord in H.
  destruct (readBigUInt64LE fb 8) as [nx |] eqn:Hnx; [| discriminate].
  injection H as <-. cbn.
  apply readUIntLE_inv in Hnx. repeat split; lia.
Qed.

Lemma readRecord_result_witness :
  exists L, readUInt32LE (archive_range archive_S2 (Number_of_BigInt 32) 8) 0 = Some L /\
    8 <= L /\ tag_is (archive_range archive_S2 (Number_of_BigInt 32) 8) "PDIR" = true /\
    32 = 32 /\ 82 = L /\ 16 <= L <= 2 ^ 30 /\
    ([off_a; off_sub] <> [] -> 48 + 12 * Z.of_nat 2 <= L).
Proof.
  assert (H : readRecord (2 ^ 30) archive_S2 32
              = Some (PDIR (mkDirectoryRecord 32 82 (code_units "ROOT") hash0 [off_a; off_sub])))
    by (vm_compute; reflexivity).
  apply readRecord_result in H; [exact H | lia].
Defined.

(** X13: at or past the end of the archive every read comes back as zeros, a
    record of length 0, so readRecord throws there. *)
Theorem readRecord_past_end kMax archive offset :
  Z.of_nat (length archive) <= 2 ^ 53 ->
  Z.of_nat (length archive) <= offset ->
  readRecord kMax archive offset = None.
Proof.
  intros Hsize Hoff. unfold readRecord.
  destruct (readAtOffset kMax archive offset 8) as [hb |] eqn:Hhb; [| reflexivity].
  apply readAtOffset_inv in Hhb as (_ & Hpos & ->).
  assert (Hp : Z.of_nat (length archive) <= Number_of_BigInt offset).
  { unfold Number_of_BigInt. destruct (Z.lt_ge_cases offset (2 ^ 53)).
    - rewrite to_double_exact by lia. lia.
    - pose proof (to_double_ge offset ltac:(lia)). lia. }
  unfold archive_range. rewrite drop_ge by lia. rewrite take_nil.
  change (Z.to_nat 8 - length (@nil byte))%nat with 8%nat.
  reflexivity.
Qed.

Lemma readRecord_past_end_witness :
  readRecord (2 ^ 30) archive_S2 (Z.of_nat (length archive_S2)) = None.
Proof.
  apply readRecord_past_end; [vm_compute; intros [=] | lia].
Defined.

(** ** The index and the listing walk the same files *)

Section Traversal.

Variable kMax : Z.
Variable archive : list byte.









End Traversal.






(** Scenario S2: ROOT is dropped from the paths, sub is kept; at depth 2 the
    model is silent. *)
Example listFiles_S2 :
  listFiles (2 ^ 30) archive_S2 None 4
  = Returns [code_units "a.txt"; code_units "sub/b.txt"] /\
  listFiles (2 ^ 30) archive_S2 None 2 = Unsettled.
Proof. split; vm_compute; reflexivity. Qed.
End GgpkFilesProofs.

(* ===================================================================== *)
(** * Parsing a directory of tables *)
(* ===================================================================== *)

Module ParseAllProofs.
Import Js Dat ParseAll JsFacts DatProofs.

(** Membership in the list the loop still has to go through. *)
Ltac membership :=
  match goal with
  | |- ?l ⊆ ?l => intros ? ?; assumption
  | H : _ :: ?rest ⊆ ?all |- ?rest ⊆ ?all =>
      intros ? ?; apply H; apply elem_of_cons; right; assumption
  | H : ?file :: _ ⊆ ?all |- ?file ∈ ?all => apply H; (apply elem_of_cons; left; reflexivity)
  | |- ?x ∈ ?x :: _ => (apply elem_of_cons; left; reflexivity)
  | H : ?f ∈ ?rest |- ?f ∈ _ :: ?rest => apply elem_of_cons; right; exact H
  | H : ?f ∈ ?file :: ?rest, Hne : ?f <> ?file |- ?f ∈ ?rest =>
      apply elem_of_cons in H as [? | ?]; [congruence | assumption]
  | Hsub : ?l ⊆ ?all, H : ?f ∈ ?l |- ?f ∈ ?all => apply Hsub; exact H
  end.

Section Loop.

Variable join : string -> string -> string.
Variable JSON_stringify : list Row -> Buffer.
Variable can_write : string -> bool.
Variable parser : DATParser.
Variable dataDir outputDir : string.

Local Abbreviation step := (parse_one join JSON_stringify can_write parser).
Local Abbreviation loop := (parse_loop join JSON_stringify can_write parser).
Local Abbreviation inp := (join dataDir).
Local Abbreviation out := (outputPath_of join outputDir).
Local Abbreviation schema_of := (has_schema parser).
Local Abbreviation hit_in := (hit join dataDir outputDir).

Lemma parse_one_counts useCache now st file :
  let c := counts st in
  let c' := counts (step useCache dataDir outputDir now st file) in
  accounted c' = accounted c + 1 /\
  success c <= success c' /\ failed c <= failed c' /\ skipped c <= skipped c' /\
  cached c' - cached c <= success c' - success c /\ cached c <= cached c' /\
  skipped c' = skipped c + (if schema_of file then 0 else 1).
Proof.
  unfold parse_one, accounted, has_schema.
  destruct (getTableSchema parser _) as [t |].
  2: { rewrite bool_decide_eq_false_2 by (intros [x Hx]; discriminate).
       cbn. repeat split; lia. }
  rewrite bool_decide_eq_true_2 by eauto.
  destruct (useCache && isCached _ _ _); cbn; [repeat split; lia |].
  destruct (fs st !! _) as [input |]; cbn; [| repeat split; lia].
  destruct (parse parser _ _) as [result |]; cbn; [| repeat split; lia].
  destruct (can_write _); cbn; repeat split; lia.
Qed.

Lemma parse_loop_counts useCache clock datFiles : forall i st,
  let c := counts st in
  let c' := counts (loop useCache dataDir outputDir clock i st datFiles) in
  accounted c' = accounted c + Z.of_nat (length datFiles) /\
  success c <= success c' /\ failed c <= failed c' /\
  cached c' - cached c <= success c' - success c /\ cached c <= cached c' /\
  skipped c' = skipped c
               + Z.of_nat (length (List.filter (fun f => negb (schema_of f)) datFiles)).
Proof.
  induction datFiles as [| file rest IH]; intros i st; cbn [parse_loop length List.filter].
  - cbn. repeat split; lia.
  - specialize (IH (S i) (step useCache dataDir outputDir (clock i) st file)).
    pose proof (parse_one_counts useCache (clock i) st file) as H1.
    cbv zeta in *. destruct (schema_of file); cbn [negb length] in *; lia.
Qed.

(** *** One iteration and the file system *)

Lemma step_fs useCache now st file :
  fs (step useCache dataDir outputDir now st file) = fs st \/
  exists data, fs (step useCache dataDir outputDir now st file)
               = <[out file := mkFile data now]> (fs st).
Proof.
  unfold parse_one, outputPath_of.
  destruct (getTableSchema parser _); [| left; reflexivity].
  destruct (useCache && isCached _ _ _); [left; reflexivity |].
  destruct (fs st !! _); [| left; reflexivity].
  destruct (parse parser _ _); [| left; reflexivity].
  destruct (can_write _); [right; eauto | left; reflexivity].
Qed.

Lemma step_keeps_input useCache now st file g :
  inp g <> out file ->
  fs (step useCache dataDir outputDir now st file) !! inp g = fs st !! inp g.
Proof.
  intros Hne. destruct (step_fs useCache now st file) as [-> | [data ->]]; [reflexivity |].
  rewrite lookup_insert_ne by congruence. reflexivity.
Qed.

Lemma step_keeps_hit useCache now st file g :
  inp g <> out file ->
  (forall e, fs st !! inp g = Some e -> mtimeMs e <= now) ->
  hit_in (fs st) g = true ->
  hit_in (fs (step useCache dataDir outputDir now st file)) g = true.
Proof.
  intros Hne Ht Hg.
  destruct (step_fs useCache now st file) as [-> | [data ->]]; [exact Hg |].
  unfold hit, isCached in *. rewrite lookup_insert_ne by congruence.
  destruct (fs st !! inp g) as [e |] eqn:Ei; [| discriminate].
  destruct (decide (out file = out g)) as [Heq | Hd].
  - rewrite Heq, lookup_insert_eq. cbn. apply Z.leb_le. apply Ht. reflexivity.
  - rewrite lookup_insert_ne by exact Hd. exact Hg.
Qed.

(** An iteration that counts a success leaves the file cached. *)
Lemma step_success_hit useCache now st file :
  inp file <> out file ->
  (forall e, fs st !! inp file = Some e -> mtimeMs e <= now) ->
  success (counts (step useCache dataDir outputDir now st file)) = success (counts st) + 1 ->
  schema_of file = true /\
  hit_in (fs (step useCache dataDir outputDir now st file)) file = true.
Proof.
  intros Hne Ht. unfold parse_one, has_schema, hit, outputPath_of.
  destruct (getTableSchema parser _) as [t |]; [| cbn; lia].
  rewrite bool_decide_eq_true_2 by eauto.
  destruct (useCache && isCached _ _ _) eqn:Hc; cbn.
  { intros _. apply andb_true_iff in Hc as [_ Hc]. split; [reflexivity | exact Hc]. }
  destruct (fs st !! inp file) as [input |] eqn:Ei; cbn; [| lia].
  destruct (parse parser _ _) as [result |]; cbn; [| lia].
  destruct (can_write _); cbn; [| lia].
  intros _. split; [reflexivity |]. unfold isCached.
  rewrite lookup_insert_ne by (unfold outputPath_of in Hne; congruence).
  rewrite Ei, lookup_insert_eq. cbn. apply Z.leb_le. apply Ht. reflexivity.
Qed.

(** An iteration that can parse its file counts a success: the decoder
    never throws. *)
Lemma step_parses_success useCache now st file :
  parses join can_write parser dataDir outputDir (fs st) file = true ->
  success (counts (step useCache dataDir outputDir now st file)) = success (counts st) + 1.
Proof.
  unfold parses, has_schema, parse_one, outputPath_of.
  intros H. apply andb_true_iff in H as [H Hw]. apply andb_true_iff in H as [Hs Hi].
  apply bool_decide_eq_true in Hs as [t Hs]. apply bool_decide_eq_true in Hi as [input Hi].
  rewrite Hs. destruct (useCache && isCached _ _ _); [reflexivity |].
  rewrite Hi. destruct (parse_total parser (content input) (remove_first ".datc64" file))
    as [result ->].
  rewrite Hw. reflexivity.
Qed.

(** *** The first run *)

Section FirstRun.

Variable useCache : bool.
Variable clock : nat -> Z.
Variable all : list string.

Hypothesis inputs_apart : forall f g, f ∈ all -> g ∈ all -> inp f <> out g.

Local Abbreviation stamped := (ParseAll.stamped join dataDir clock all).

Lemma loop_keeps_inputs datFiles : forall i st g,
  datFiles ⊆ all -> g ∈ all ->
  fs (loop useCache dataDir outputDir clock i st datFiles) !! inp g = fs st !! inp g.
Proof.
  induction datFiles as [| file rest IH]; intros i st g Hsub Hg; [reflexivity |].
  cbn [parse_loop]. rewrite IH; [| membership | exact Hg].
  apply step_keeps_input. apply inputs_apart; [exact Hg | membership].
Qed.

Lemma loop_keeps_hit datFiles : forall i st g,
  datFiles ⊆ all -> g ∈ all -> stamped (fs st) ->
  hit_in (fs st) g = true ->
  hit_in (fs (loop useCache dataDir outputDir clock i st datFiles)) g = true.
Proof.
  induction datFiles as [| file rest IH]; intros i st g Hsub Hg Hst Hh; [exact Hh |].
  cbn [parse_loop]. apply IH; [membership | exact Hg | |].
  - intros f e j Hf. rewrite step_keeps_input by (apply inputs_apart; [exact Hf | membership]).
    apply Hst. exact Hf.
  - apply step_keeps_hit; [apply inputs_apart; [exact Hg | membership] | | exact Hh].
    intros e He. exact (Hst g e i Hg He).
Qed.

Lemma loop_success_bound datFiles : forall i st,
  datFiles ⊆ all -> stamped (fs st) ->
  let st' := loop useCache dataDir outputDir clock i st datFiles in
  success (counts st') - success (counts st)
  <= Z.of_nat (length (List.filter (fun f => schema_of f && hit_in (fs st') f) datFiles)).
Proof.
  induction datFiles as [| file rest IH]; intros i st Hsub Hst; [cbn; lia |].
  cbn [parse_loop]. cbv zeta.
  set (st1 := step useCache dataDir outputDir (clock i) st file).
  assert (Hfile : file ∈ all) by membership.
  assert (Hst1 : stamped (fs st1)).
  { intros f e j Hf. unfold st1.
    rewrite step_keeps_input by (apply inputs_apart; [exact Hf | exact Hfile]).
    apply Hst. exact Hf. }
  specialize (IH (S i) st1 ltac:(membership) Hst1). cbv zeta in IH.
  cbn [List.filter].
  pose proof (parse_one_counts useCache (clock i) st file) as Hc. cbv zeta in Hc.
  fold st1 in Hc.
  destruct (Z.eq_dec (success (counts st1)) (success (counts st) + 1)) as [Hwin | Hno].
  - destruct (step_success_hit useCache (clock i) st file) as [Hs Hh];
      [apply inputs_apart; assumption | intros e He; exact (Hst file e i Hfile He)
      | exact Hwin |].
    fold st1 in Hh.
    rewrite Hs, (loop_keeps_hit rest (S i) st1 file ltac:(membership) Hfile Hst1 Hh).
    cbn [andb length]. lia.
  - assert (success (counts st1) = success (counts st)).
    { unfold st1, parse_one in *.
      destruct (getTableSchema parser _); cbn in *; [| lia].
      destruct (useCache && isCached _ _ _); cbn in *; [lia |].
      destruct (fs st !! _); cbn in *; [| lia].
      destruct (parse parser _ _); cbn in *; [| lia].
      destruct (can_write _); cbn in *; lia. }
    destruct (schema_of file && hit_in _ file); cbn [length]; lia.
Qed.

Lemma loop_parses_hit datFiles : forall i st f,
  datFiles ⊆ all -> stamped (fs st) -> f ∈ datFiles ->
  parses join can_write parser dataDir outputDir (fs st) f = true ->
  hit_in (fs (loop useCache dataDir outputDir clock i st datFiles)) f = true.
Proof.
  induction datFiles as [| file rest IH]; intros i st f Hsub Hst Hf Hp.
  - apply elem_of_nil in Hf. destruct Hf.
  - cbn [parse_loop].
    set (st1 := step useCache dataDir outputDir (clock i) st file).
    assert (Hfile : file ∈ all) by membership.
    assert (Hst1 : stamped (fs st1)).
    { intros g e j Hg. unfold st1.
      rewrite step_keeps_input by (apply inputs_apart; [exact Hg | exact Hfile]).
      apply Hst. exact Hg. }
    destruct (decide (f = file)) as [-> | Hne].
    + apply loop_keeps_hit; [membership | exact Hfile | exact Hst1 |].
      apply (step_success_hit useCache (clock i) st file);
        [apply inputs_apart; assumption | intros e He; exact (Hst file e i Hfile He) |].
      apply step_parses_success. exact Hp.
    + apply IH; [membership | exact Hst1 | membership |].
      unfold parses in *. unfold st1.
      rewrite step_keeps_input by (apply inputs_apart; [membership | exact Hfile]).
      exact Hp.
Qed.

End FirstRun.

(** *** A run over a file system where all that can be parsed is cached *)

Lemma cached_run clock F datFiles : forall i st,
  fs st = F ->
  (forall f, f ∈ datFiles ->
     parses join can_write parser dataDir outputDir F f = true -> hit_in F f = true) ->
  let st' := loop true dataDir outputDir clock i st datFiles in
  let n := Z.of_nat (length (List.filter (fun f => schema_of f && hit_in F f) datFiles)) in
  fs st' = F /\
  success (counts st') = success (counts st) + n /\
  cached (counts st') = cached (counts st) + n.
Proof.
  induction datFiles as [| file rest IH]; intros i st HF Hall; cbv zeta.
  - cbn. repeat split; [exact HF | lia | lia].
  - cbn [parse_loop List.filter].
    set (st1 := step true dataDir outputDir (clock i) st file).
    assert (H1 : fs st1 = F /\
                 success (counts st1)
                 = success (counts st) + (if schema_of file && hit_in F file then 1 else 0) /\
                 cached (counts st1)
                 = cached (counts st) + (if schema_of file && hit_in F file then 1 else 0)).
    { specialize (Hall file ltac:(membership)).
      unfold st1, parse_one, parses, has_schema, hit, outputPath_of in *. rewrite HF in *.
      destruct (getTableSchema parser _) as [t |] eqn:Hs.
      2: { rewrite bool_decide_eq_false_2 by (intros [x Hx]; discriminate).
           cbn. repeat split; lia. }
      rewrite bool_decide_eq_true_2 in * by eauto. cbn [andb] in *.
      destruct (isCached F _ _) eqn:Hc; cbn; [repeat split; lia |].
      destruct (F !! inp file) as [input |] eqn:Ei; cbn; [| repeat split; lia].
      rewrite bool_decide_eq_true_2 in Hall by eauto. cbn [andb] in Hall.
      destruct (parse parser _ _); cbn; [| repeat split; lia].
      destruct (can_write _); cbn; [| repeat split; lia].
      specialize (Hall eq_refl). discriminate. }
    destruct H1 as (HF1 & Hs1 & Hc1).
    specialize (IH (S i) st1 HF1 ltac:(intros f Hf; apply Hall; membership)).
    cbv zeta in IH. destruct IH as (IHF & IHs & IHc).
    split; [exact IHF |].
    destruct (schema_of file && hit_in F file); cbn [length]; lia.
Qed.

End Loop.

(** X16: the counters of parseAllDatFiles account for every file once:
    success, failed and skipped add up to the number of files, the cached
    ones are among the successes, and the skipped ones are exactly the files
    whose table has no schema. *)
Theorem parseAllDatFiles_counts join JSON_stringify can_write parser useCache
    dataDir outputDir clock files datFiles :
  let r := counts (parseAllDatFiles join JSON_stringify can_write parser useCache
                     dataDir outputDir clock files datFiles) in
  success r + failed r + skipped r = Z.of_nat (length datFiles) /\
  0 <= cached r <= success r /\ 0 <= failed r /\
  skipped r = Z.of_nat (length (List.filter (fun f => negb (has_schema parser f)) datFiles)).
Proof.
  unfold parseAllDatFiles.
  pose proof (parse_loop_counts join JSON_stringify can_write parser dataDir outputDir
                useCache clock datFiles 0 (mkRun files (mkCounts 0 0 0 0))) as H.
  cbv zeta in *. unfold accounted in H. cbn in H. lia.
Qed.

(** X17: when no input path is an output path and no input is newer than the
    run, a second run over the files the first run left reads everything
    from the cache: it writes nothing, each of its successes is a cached
    one, and no success of the first run is lost. *)
Theorem second_run_reads_the_cache join JSON_stringify can_write parser useCache
    dataDir outputDir clock1 clock2 files datFiles :
  (forall f g, f ∈ datFiles -> g ∈ datFiles ->
     join dataDir f <> outputPath_of join outputDir g) ->
  (forall f e i, f ∈ datFiles -> files !! join dataDir f = Some e -> mtimeMs e <= clock1 i) ->
  let run1 := parseAllDatFiles join JSON_stringify can_write parser useCache
                dataDir outputDir clock1 files datFiles in
  let run2 := parseAllDatFiles join JSON_stringify can_write parser true
                dataDir outputDir clock2 (fs run1) datFiles in
  fs run2 = fs run1 /\
  cached (counts run2) = success (counts run2) /\
  success (counts run1) <= success (counts run2) /\
  skipped (counts run2) = skipped (counts run1).
Proof.
  intros Hapart Hstamp run1 run2.
  assert (Hst0 : stamped join dataDir clock1 datFiles
                   (fs (mkRun files (mkCounts 0 0 0 0)))).
  { intros f e i Hf He. exact (Hstamp f e i Hf He). }
  assert (Hhits : forall f, f ∈ datFiles ->
            parses join can_write parser dataDir outputDir (fs run1) f = true ->
            hit join dataDir outputDir (fs run1) f = true).
  { intros f Hf Hp. unfold run1, parseAllDatFiles.
    apply (loop_parses_hit join JSON_stringify can_write parser dataDir outputDir
             useCache clock1 datFiles Hapart); [membership | exact Hst0 | exact Hf |].
    unfold parses in *. unfold run1, parseAllDatFiles in Hp.
    rewrite (loop_keeps_inputs join JSON_stringify can_write parser dataDir outputDir
               useCache clock1 datFiles Hapart) in Hp by (membership || exact Hf).
    exact Hp. }
  pose proof (cached_run join JSON_stringify can_write parser dataDir outputDir clock2
                (fs run1) datFiles 0 (mkRun (fs run1) (mkCounts 0 0 0 0)) eq_refl Hhits) as H2.
  cbv zeta in H2. destruct H2 as (HF & Hs & Hc).
  pose proof (loop_success_bound join JSON_stringify can_write parser dataDir outputDir
                useCache clock1 datFiles Hapart datFiles 0 (mkRun files (mkCounts 0 0 0 0))
                ltac:(membership) Hst0) as H1.
  cbv zeta in H1.
  pose proof (parse_loop_counts join JSON_stringify can_write parser dataDir outputDir
                useCache clock1 datFiles 0 (mkRun files (mkCounts 0 0 0 0))) as C1.
  pose proof (parse_loop_counts join JSON_stringify can_write parser dataDir outputDir
                true clock2 datFiles 0 (mkRun (fs run1) (mkCounts 0 0 0 0))) as C2.
  cbv zeta in C1, C2. unfold run2, run1, parseAllDatFiles in *.
  cbn [counts fs success cached skipped failed] in *.
  split; [exact HF |]. split; [lia |]. split; lia.
Qed.

Lemma second_run_reads_the_cache_witness :
  let run1 := parseAllDatFiles join_slash json_rows (fun _ => true) p3 false
                "in" "out" (fun _ => 200) fs3 ["Foo.datc64"] in
  let run2 := parseAllDatFiles join_slash json_rows (fun _ => true) p3 true
                "in" "out" (fun _ => 300) (fs run1) ["Foo.datc64"] in
  fs run2 = fs run1 /\
  cached (counts run2) = success (counts run2) /\
  success (counts run1) <= success (counts run2) /\
  skipped (counts run2) = skipped (counts run1).
Proof.
  apply second_run_reads_the_cache.
  - intros f g Hf Hg. apply list_elem_of_singleton in Hf, Hg. subst. vm_compute. discriminate.
  - intros f e i Hf He. apply list_elem_of_singleton in Hf. subst.
    vm_compute in He. injection He as <-. cbn. lia.
Defined.

(** The first run parses Foo and writes out/Foo.json; the second one finds
    it cached. *)
Example two_runs :
  let run1 := parseAllDatFiles join_slash json_rows (fun _ => true) p3 false
                "in" "out" (fun _ => 200) fs3 ["Foo.datc64"; "Bar.datc64"] in
  counts run1 = mkCounts 1 0 1 0 /\
  fs run1 !! "out/Foo.json" = Some (mkFile (bytes [91; 2; 93]) 200) /\
  counts (parseAllDatFiles join_slash json_rows (fun _ => true) p3 true
            "in" "out" (fun _ => 300) (fs run1) ["Foo.datc64"; "Bar.datc64"])
  = mkCounts 1 0 1 1.
Proof. vm_compute. repeat split. Qed.

(** ** The statistics of the parallel driver *)

Lemma aggregate_one_counts stats r :
  let s' := aggregate_one stats r in
  st_success s' + st_failed s' + st_skipped s'
  = st_success stats + st_failed stats + st_skipped stats + 1 /\
  st_cached s' = st_cached stats + (if res_cached r then 1 else 0) /\
  st_skipped s' = st_skipped stats + (if is_skip r then 1 else 0) /\
  st_success s' = st_success stats + (if res_cached r || res_success r then 1 else 0).
Proof.
  unfold aggregate_one, is_skip.
  destruct (res_cached r), (res_success r); cbn; try (repeat split; lia).
  destruct (bool_decide _); cbn; repeat split; lia.
Qed.

Lemma aggregate_fold results : forall stats,
  let s' := foldl aggregate_one stats results in
  st_success s' + st_failed s' + st_skipped s'
  = st_success stats + st_failed stats + st_skipped stats + Z.of_nat (length results) /\
  st_cached s' = st_cached stats + Z.of_nat (length (List.filter res_cached results)) /\
  st_skipped s' = st_skipped stats + Z.of_nat (length (List.filter is_skip results)) /\
  st_success s' = st_success stats
    + Z.of_nat (length (List.filter (fun r => res_cached r || res_success r) results)).
Proof.
  induction results as [| r results IH]; intros stats; cbn [foldl length List.filter].
  - cbn. repeat split; lia.
  - specialize (IH (aggregate_one stats r)). cbv zeta in IH.
    pose proof (aggregate_one_counts stats r) as H1. cbv zeta in H1.
    destruct (res_cached r), (res_success r), (is_skip r); cbn [orb length] in *; lia.
Qed.

(** X18: the statistics of the parallel driver put every worker result in
    exactly one of success, failed and skipped; a cached result is a success
    whatever else it says, and only an uncached failure with the error text
    No schema is skipped. *)
Theorem aggregate_accounts_for_every_result results :
  let s := aggregate results in
  st_success s + st_failed s + st_skipped s = Z.of_nat (length results) /\
  st_cached s = Z.of_nat (length (List.filter res_cached results)) /\
  st_cached s <= st_success s /\
  st_success s
  = Z.of_nat (length (List.filter (fun r => res_cached r || res_success r) results)) /\
  st_skipped s = Z.of_nat (length (List.filter is_skip results)).
Proof.
  pose proof (aggregate_fold results (mkStats 0 0 0 0 0)) as H. cbv zeta in *.
  unfold aggregate. cbn in H. destruct H as (H1 & H2 & H3 & H4).
  repeat split; try lia.
  rewrite H2, H4. apply inj_le. clear.
  induction results as [| r results IH]; cbn; [lia |].
  destruct (res_cached r); cbn; [lia |]. destruct (res_success r); cbn; lia.
Qed.

Lemma parsed_rows_nonneg results :
  Forall (fun r => 0 <= res_rowCount r) results -> 0 <= parsed_rows results.
Proof.
  unfold parsed_rows. induction 1 as [| r results Hr _ IH]; cbn [foldr]; [lia |].
  destruct (negb (res_cached r) && res_success r); lia.
Qed.

Lemma totalRows_fold results : forall stats,
  Forall (fun r => 0 <= res_rowCount r) results ->
  0 <= totalRows stats ->
  totalRows stats + parsed_rows results < 2 ^ 53 ->
  totalRows (foldl aggregate_one stats results) = totalRows stats + parsed_rows results.
Proof.
  induction results as [| r results IH]; intros stats Hpos H0 Hb; cbn [foldl parsed_rows foldr].
  - lia.
  - apply Forall_cons in Hpos as [Hr Hpos].
    pose proof (parsed_rows_nonneg results Hpos) as Hn.
    cbn [parsed_rows foldr] in Hb. fold (parsed_rows results) in *.
    unfold aggregate_one at 2.
    destruct (res_cached r); cbn [negb andb] in *.
    { rewrite IH; cbn [totalRows]; [lia | exact Hpos | lia | lia]. }
    destruct (res_success r).
    { rewrite IH; cbn [totalRows]; unfold num_add; rewrite ?to_double_exact by lia;
        [lia | exact Hpos | lia | lia]. }
    destruct (bool_decide _); rewrite IH; cbn [totalRows]; try lia; exact Hpos.
Qed.

(** X19: totalRows adds up the row counts of the tables parsed in this run;
    tables taken from the cache, and failures, add nothing. *)
Theorem totalRows_leaves_out_cached results :
  Forall (fun r => 0 <= res_rowCount r) results ->
  parsed_rows results < 2 ^ 53 ->
  totalRows (aggregate results) = parsed_rows results.
Proof.
  intros Hpos Hb. unfold aggregate.
  rewrite totalRows_fold; cbn; [lia | exact Hpos | lia | lia].
Qed.

Lemma totalRows_leaves_out_cached_witness :
  totalRows (aggregate [mkWorkerResult "a" true 5 None false;
                        mkWorkerResult "b" true 0 None true;
                        mkWorkerResult "c" false 0 (Some "No schema") false;
                        mkWorkerResult "d" true 7 (Some "No magic") false]) = 12.
Proof.
  apply (totalRows_leaves_out_cached
           [mkWorkerResult "a" true 5 None false;
            mkWorkerResult "b" true 0 None true;
            mkWorkerResult "c" false 0 (Some "No schema") false;
            mkWorkerResult "d" true 7 (Some "No magic") false]).
  - repeat constructor; cbn; lia.
  - vm_compute. reflexivity.
Defined.
End ParseAllProofs.

(* ===================================================================== *)
(** * The parallel driver with a negative concurrency *)
(* ===================================================================== *)

Module ParallelEdgeProofs.
Import Parallel ParallelProofs.

Section Stuck.
Context {ParseTask : Type}.
Implicit Types tasks : list ParseTask.

Lemma batch_loop_stuck tasks s : s <= 0 -> forall fuel i,
  i < Z.of_nat (length tasks) -> batch_loop tasks s fuel i = None.
Proof.
  intros Hs. induction fuel as [| fuel IH]; intros i Hi; [reflexivity |].
  cbn [batch_loop]. destruct (Z.ltb_spec i (Z.of_nat (length tasks))); [| lia].
  rewrite IH by lia. reflexivity.
Qed.

(** X22: with a negative concurrency the batch size is zero or negative, the
    cursor of the batching loop never reaches the number of tasks, and the
    loop does not finish, however long it runs. *)
Theorem negative_concurrency_never_finishes tasks c cpus fuel :
  c < 0 -> tasks <> [] -> make_batches (Some c) cpus tasks fuel = None.
Proof.
  intros Hc Hne. unfold make_batches, numWorkers_of.
  assert (HN : 1 <= Z.of_nat (length tasks)) by (destruct tasks; [congruence | cbn; lia]).
  destruct (Z.eqb_spec (Z.of_nat (length tasks)) 0); [lia |].
  destruct (Z.eqb_spec c 0); [lia |].
  apply batch_loop_stuck; [| lia].
  rewrite Z.min_l by lia. unfold Math_ceil_div.
  replace c with (- - c) by lia. rewrite Z.div_opp_opp by lia.
  pose proof (Z.div_pos (Z.of_nat (length tasks)) (- c) ltac:(lia) ltac:(lia)). lia.
Qed.

End Stuck.

Lemma negative_concurrency_never_finishes_witness :
  make_batches (Some (-1)) 8 [1; 2; 3] 1000 = None.
Proof.
  apply negative_concurrency_never_finishes; [lia | discriminate].
Defined.
End ParallelEdgeProofs.

(* ===================================================================== *)
(** * The file list of the bundle utility *)
(* ===================================================================== *)

Module BundleListProofs.
Import Js Bundle BundleList.

Lemma split_lines_nonempty s : split_lines s <> [].
Proof.
  destruct s as [| u s]; cbn; [discriminate |].
  destruct (split_lines s); [discriminate |]. destruct (u =? 10); discriminate.
Qed.

Lemma split_lines_app line : forall rest,
  10 ∉ line ->
  split_lines (line ++ 10 :: rest) = line :: split_lines rest.
Proof.
  induction line as [| u line IH]; intros rest Hno.
  - cbn. destruct (split_lines rest) eqn:E; [exfalso; exact (split_lines_nonempty _ E) |].
    reflexivity.
  - cbn [app split_lines]. rewrite IH by (intros H; apply Hno; right; exact H).
    destruct (Z.eqb_spec u 10) as [-> | _]; [exfalso; apply Hno; left |]. reflexivity.
Qed.

Lemma trimStart_spaces ws s : forallb is_space ws = true -> trimStart (ws ++ s) = trimStart s.
Proof.
  induction ws as [| w ws IH]; [reflexivity |]. cbn. intros H.
  apply andb_true_iff in H as [-> H]. exact (IH H).
Qed.

Lemma trimStart_kept s :
  (forall u, head s = Some u -> is_space u = false) -> trimStart s = s.
Proof.
  destruct s as [| u s]; [reflexivity |]. intros H. cbn. rewrite (H u eq_refl). reflexivity.
Qed.

Lemma forallb_reverse (f : Z -> bool) l : forallb f (reverse l) = forallb f l.
Proof.
  induction l as [| x l IH]; [reflexivity |].
  rewrite reverse_cons, forallb_app, IH. cbn. rewrite andb_true_r. apply andb_comm.
Qed.

Lemma trim_line name ws :
  printable name -> forallb is_space ws = true -> trim (name ++ ws) = name.
Proof.
  intros (Hne & _ & Hh & Hl) Hws. unfold trim.
  rewrite trimStart_kept.
  2: { intros u Hu. apply Hh. destruct name; [congruence | exact Hu]. }
  unfold trimEnd. rewrite reverse_app, trimStart_spaces.
  2: { rewrite forallb_reverse. exact Hws. }
  rewrite trimStart_kept; [apply reverse_involutive |].
  intros u Hu. apply Hl. rewrite <- head_reverse. exact Hu.
Qed.

(** X20: a listing printed one path per line is read back as the same paths,
    whether the lines end in LF, in CR LF or in other white space before the
    LF. *)
Theorem listBundledFiles_round_trip names ws stderr :
  Forall printable names -> forallb is_space ws = true -> 10 ∉ ws ->
  listBundledFiles (print_lines (ws ++ [10]) names) stderr 0 = Some names.
Proof.
  intros Hnames Hws Hno. unfold listBundledFiles. cbn [Z.eqb negb andb]. f_equal.
  induction Hnames as [| name names Hn _ IH].
  - reflexivity.
  - cbn [print_lines mbind list_bind]. fold (print_lines (ws ++ [10]) names).
    replace ((name ++ ws ++ [10]) ++ print_lines (ws ++ [10]) names)
      with ((name ++ ws) ++ 10 :: print_lines (ws ++ [10]) names)
      by (rewrite <- !app_assoc; reflexivity).
    rewrite split_lines_app.
    2: { intros H. apply elem_of_app in H as [H | H]; [| exact (Hno H)].
         destruct Hn as (_ & Hn & _). exact (Hn H). }
    cbn [fmap list_fmap List.filter]. rewrite trim_line by assumption.
    destruct name as [| u name]; [destruct Hn as (Hn & _); congruence |].
    cbn [length Nat.ltb Nat.leb]. f_equal. exact IH.
Qed.

Lemma listBundledFiles_round_trip_witness :
  listBundledFiles (print_lines ([13] ++ [10]) [code_units "a/b.dat"; code_units "c d.txt"])
    "" 0
  = Some [code_units "a/b.dat"; code_units "c d.txt"].
Proof.
  apply listBundledFiles_round_trip.
  - repeat constructor; try discriminate; try (intros u [= <-]; reflexivity);
      vm_compute code_units; intros H; repeat (apply elem_of_cons in H as [H | H]; [discriminate |]);
      apply elem_of_nil in H; exact H.
  - reflexivity.
  - intros H. apply list_elem_of_singleton in H. discriminate.
Defined.

Lemma split_lines_no_feed s : Forall (fun line => 10 ∉ line) (split_lines s).
Proof.
  induction s as [| u s IH]; cbn.
  - repeat constructor. intros H. apply elem_of_nil in H. exact H.
  - destruct (split_lines s) as [| line rest] eqn:E.
    + exfalso. exact (split_lines_nonempty s E).
    + apply Forall_cons in IH as [Hl Hr].
      destruct (Z.eqb_spec u 10) as [-> | Hne].
      * repeat constructor; [| exact Hl | exact Hr]. intros H. apply elem_of_nil in H. exact H.
      * constructor; [| exact Hr]. intros H. apply elem_of_cons in H as [H | H]; [lia | tauto].
Qed.

Lemma trimStart_suffix s : exists ws, s = ws ++ trimStart s.
Proof.
  induction s as [| u s [ws IH]]; [exists []; reflexivity |]. cbn.
  destruct (is_space u); [| exists []; reflexivity].
  exists (u :: ws). cbn. f_equal. exact IH.
Qed.

Lemma trimStart_head s u : head (trimStart s) = Some u -> is_space u = false.
Proof.
  induction s as [| v s IH]; [discriminate |]. cbn.
  destruct (is_space v) eqn:E; [exact IH |]. cbn. intros [= <-]. exact E.
Qed.

Lemma trimEnd_prefix s : exists ws, s = trimEnd s ++ ws.
Proof.
  destruct (trimStart_suffix (reverse s)) as [ws H].
  exists (reverse ws). unfold trimEnd. rewrite <- reverse_app, <- H.
  symmetry. apply reverse_involutive.
Qed.

Lemma trim_printable s : trim s <> [] -> 10 ∉ s -> printable (trim s).
Proof.
  intros Hne Hno. unfold trim in *.
  destruct (trimStart_suffix s) as [ws Hs].
  destruct (trimEnd_prefix (trimStart s)) as [ws' Ht].
  split; [exact Hne |]. split; [| split].
  - intros H. apply Hno. rewrite Hs, Ht. apply elem_of_app. right.
    apply elem_of_app. left. exact H.
  - intros u Hu. apply (trimStart_head s). rewrite Ht.
    destruct (trimEnd (trimStart s)); [discriminate | exact Hu].
  - intros u Hu. apply (trimStart_head (reverse (trimStart s))).
    unfold trimEnd in Hu. rewrite last_reverse in Hu. exact Hu.
Qed.

(** X21: what listBundledFiles returns holds no empty entry, no line feed
    and no entry with white space at either end. *)
Theorem listBundledFiles_entries_trimmed stdout stderr exitCode files :
  listBundledFiles stdout stderr exitCode = Some files ->
  Forall printable files.
Proof.
  unfold listBundledFiles. destruct (_ && _); [discriminate |]. intros [= <-].
  pose proof (split_lines_no_feed stdout) as H.
  induction H as [| line rest Hl _ IH]; [constructor |].
  cbn [fmap list_fmap List.filter].
  destruct (trim line) as [| u t] eqn:E; [exact IH |].
  cbn [length Nat.ltb Nat.leb]. constructor; [| exact IH].
  rewrite <- E. apply trim_printable; [rewrite E; discriminate | exact Hl].
Qed.

Lemma listBundledFiles_entries_trimmed_witness :
  Forall printable [code_units "a.dat"; code_units "b c"].
Proof.
  apply (listBundledFiles_entries_trimmed
           (code_units " a.dat " ++ [13; 10; 10; 9] ++ code_units "b c") "" 0).
  vm_compute. reflexivity.
Defined.

(** A failed run is still read when stderr mentions the file count. *)
Example listBundledFiles_exit_code :
  listBundledFiles (code_units "a") "oops" 1 = None /\
  listBundledFiles (code_units "a") "File count in index binary: 1" 1
  = Some [code_units "a"].
Proof. split; vm_compute; reflexivity. Qed.
End BundleListProofs.
